(** * cfstructs: robin-hood hash map, hash set and memory pool

    A shallow embedding of [cf_hashmap.hpp], [cf_hashset.hpp] (the
    robin-hood variant), the older local-probing [cf_hashmap.hpp] and
    [cf_memorypool.hpp], and the properties of the specification and of
    the code stated over it.

    Conventions of the embedding.
    - [uint32_t] and [size_t] values are integers of [Z]; every place
      where the C++ code wraps around or truncates is written out with
      [u32] or [u64].
    - The arena is kept as its typed regions: the [hashes], [keys] and
      [values] arrays are lists indexed by position.  Reading outside a
      region is undefined behaviour in C++; the embedding returns a default
      element there, and the statements that need a read to be in range
      assume that the region has [m_capacity] slots.
    - [while (42)] loops are given a [fuel] argument that bounds the number
      of iterations, that is, the number of slots probed; [None] means the
      fuel ran out before the loop returned. *)

From Stdlib Require Import ZArith Lia Bool.
From stdpp Require Import base option list numbers list_numbers.

Local Open Scope Z_scope.

(** ** Machine integers *)

Definition u32 (x : Z) : Z := x mod 2 ^ 32.
Definition u64 (x : Z) : Z := x mod 2 ^ 64.

(** [~x] on a [uint32_t]. *)
Definition not32 (x : Z) : Z := Z.lxor x (Z.ones 32).

(** Array read [a[i]] and write [a[i] = x] at a machine-integer index. *)
Definition rd {A} `{Inhabited A} (a : list A) (i : Z) : A := a !!! Z.to_nat i.
Definition wr {A} (a : list A) (i : Z) (x : A) : list A := <[Z.to_nat i := x]> a.

(** ** The robin-hood hash map, [cf_hashmap.hpp] *)

Module HashMap.

Definition EMPTY_HASH : Z := 0.
Definition DELETED_HASH_BIT : Z := Z.shiftl 1 31.

(** [hash & DELETED_HASH_BIT] used as a condition. *)
Definition deleted (hash : Z) : bool := negb (Z.land hash DELETED_HASH_BIT =? 0).

Definition _hash (hash : Z) : Z :=
  if hash =? EMPTY_HASH then EMPTY_HASH + 1
  else if deleted hash then Z.land hash (not32 DELETED_HASH_BIT)
  else hash.

Section Table.
Context {K V : Type} `{EqDecision K} `{Inhabited K} `{Inhabited V}.

(** [sizeof(TKey)] and [sizeof(TValue)]. *)
Variables sizeof_key sizeof_value : Z.

Record hashmap : Type := Hashmap {
  m_num_elements : Z;
  m_capacity : Z;
  hashes : list Z;
  keys : list K;
  values : list V
}.

Record iter : Type := Iter { offset : Z }.

Definition _get_probe_distance (t : hashmap) (pos hash : Z) : Z :=
  let hash := Z.land hash (not32 DELETED_HASH_BIT) in
  let ideal_pos := u32 (hash mod m_capacity t) in
  u32 (pos - ideal_pos).

(** [pos = (pos + 1) % m_capacity]. *)
Definition next_pos (t : hashmap) (pos : Z) : Z :=
  u32 (u32 (pos + 1) mod m_capacity t).

(** The loop of [_lookup_pos]; the result is the returned flag and the
    final content of the reference parameter [pos]. *)
Fixpoint _lookup_pos_loop (fuel : nat) (t : hashmap) (hash : Z) (key : K)
    (pos distance : Z) : option (bool * Z) :=
  match fuel with
  | O => None
  | S fuel =>
    if rd (hashes t) pos =? EMPTY_HASH then Some (false, pos)
    else if distance >? _get_probe_distance t pos (rd (hashes t) pos)
    then Some (false, pos)
    else if (rd (hashes t) pos =? hash) && bool_decide (rd (keys t) pos = key)
    then Some (true, pos)
    else _lookup_pos_loop fuel t hash key (next_pos t pos) (u32 (distance + 1))
  end.

Definition _lookup_pos (fuel : nat) (t : hashmap) (hash : Z) (key : K)
    : option (bool * Z) :=
  _lookup_pos_loop fuel t hash key (u32 (hash mod m_capacity t)) 0.

(** The three stores [hashes[pos] = hash; keys[pos] = key; values[pos] = value]. *)
Definition store (t : hashmap) (pos hash : Z) (key : K) (value : V) : hashmap :=
  {| m_num_elements := m_num_elements t;
     m_capacity := m_capacity t;
     hashes := wr (hashes t) pos hash;
     keys := wr (keys t) pos key;
     values := wr (values t) pos value |}.

(** The stores followed by [m_num_elements++]. *)
Definition place (t : hashmap) (pos hash : Z) (key : K) (value : V) : hashmap :=
  {| m_num_elements := u64 (m_num_elements t + 1);
     m_capacity := m_capacity t;
     hashes := wr (hashes t) pos hash;
     keys := wr (keys t) pos key;
     values := wr (values t) pos value |}.

(** The loop of [insert]: [hash], [_key], [_value] are the travelling entry. *)
Fixpoint insert_loop (fuel : nat) (t : hashmap) (hash : Z) (_key : K)
    (_value : V) (pos distance : Z) : option hashmap :=
  match fuel with
  | O => None
  | S fuel =>
    if rd (hashes t) pos =? EMPTY_HASH then Some (place t pos hash _key _value)
    else
      let exiting_distance := _get_probe_distance t pos (rd (hashes t) pos) in
      if exiting_distance <? distance then
        if deleted (rd (hashes t) pos) then Some (place t pos hash _key _value)
        else
          insert_loop fuel (store t pos hash _key _value)
            (rd (hashes t) pos) (rd (keys t) pos) (rd (values t) pos)
            (next_pos t pos) (u32 (exiting_distance + 1))
      else
        insert_loop fuel t hash _key _value (next_pos t pos) (u32 (distance + 1))
  end.

Definition insert (fuel : nat) (t : hashmap) (hash : Z) (key : K) (value : V)
    : option hashmap :=
  insert_loop fuel t hash key value (u32 (hash mod m_capacity t)) 0.

(** [create]: the arena arrives with arbitrary content; [ks] and [vs] are
    what the key and value regions hold at that moment. *)
Definition create (buffer_size : Z) (ks : list K) (vs : list V) : hashmap :=
  let capacity := buffer_size / (sizeof_key + sizeof_value + 4) in
  {| m_num_elements := 0;
     m_capacity := capacity;
     hashes := replicate (Z.to_nat capacity) EMPTY_HASH;
     keys := resize (Z.to_nat capacity) inhabitant ks;
     values := resize (Z.to_nat capacity) inhabitant vs |}.

Definition set_value (t : hashmap) (pos : Z) (value : V) : hashmap :=
  {| m_num_elements := m_num_elements t;
     m_capacity := m_capacity t;
     hashes := hashes t;
     keys := keys t;
     values := wr (values t) pos value |}.

Definition set (fuel : nat) (t : hashmap) (hash : Z) (key : K) (value : V)
    : option hashmap :=
  let hash := _hash hash in
  match _lookup_pos fuel t hash key with
  | None => None
  | Some (true, pos) => Some (set_value t pos value)
  | Some (false, _) => insert fuel t hash key value
  end.

(** [lookup]: the flag and the final content of the out-parameter [value]. *)
Definition lookup (fuel : nat) (t : hashmap) (hash : Z) (key : K) (value : V)
    : option (bool * V) :=
  match _lookup_pos fuel t (_hash hash) key with
  | None => None
  | Some (true, pos) => Some (true, rd (values t) pos)
  | Some (false, _) => Some (false, value)
  end.

(** [get]: [value] is the uninitialised local the function declares. *)
Definition get (fuel : nat) (t : hashmap) (hash : Z) (key : K) (value : V)
    : option V :=
  match lookup fuel t (_hash hash) key value with
  | None => None
  | Some (_, value) => Some value
  end.

Definition mark_deleted (t : hashmap) (pos : Z) : hashmap :=
  {| m_num_elements := u64 (m_num_elements t - 1);
     m_capacity := m_capacity t;
     hashes := wr (hashes t) pos (Z.lor (rd (hashes t) pos) DELETED_HASH_BIT);
     keys := keys t;
     values := values t |}.

Definition remove (fuel : nat) (t : hashmap) (hash : Z) (key : K)
    : option hashmap :=
  match _lookup_pos fuel t (_hash hash) key with
  | None => None
  | Some (false, _) => Some t
  | Some (true, pos) => Some (mark_deleted t pos)
  end.

Definition iter_start (t : hashmap) : iter := {| offset := 0 |}.

(** The [for] loop of [iter_next], [n] slots from [i] on; the result is the
    flag, the cursor and the out-parameters [key] and [value]. *)
Fixpoint iter_next_loop (n : nat) (t : hashmap) (i : Z) (it : iter)
    (key : K) (value : V) : bool * iter * K * V :=
  match n with
  | O => (false, it, key, value)
  | S n =>
    if rd (hashes t) i =? EMPTY_HASH then iter_next_loop n t (i + 1) it key value
    else if deleted (rd (hashes t) i) then iter_next_loop n t (i + 1) it key value
    else (true, {| offset := i + 1 |}, rd (keys t) i, rd (values t) i)
  end.

Definition iter_next (t : hashmap) (it : iter) (key : K) (value : V)
    : bool * iter * K * V :=
  iter_next_loop (Z.to_nat (m_capacity t - offset it)) t (offset it) it key value.

(** The [for] loop of [copy] over the source slots. *)
Fixpoint copy_loop (fuel : nat) (t : hashmap) (slots : list Z)
    (new_hashmap : hashmap) : option hashmap :=
  match slots with
  | [] => Some new_hashmap
  | i :: slots =>
    if rd (hashes t) i =? EMPTY_HASH then copy_loop fuel t slots new_hashmap
    else if deleted (rd (hashes t) i) then copy_loop fuel t slots new_hashmap
    else
      match insert fuel new_hashmap (rd (hashes t) i) (rd (keys t) i)
              (rd (values t) i) with
      | None => None
      | Some new_hashmap => copy_loop fuel t slots new_hashmap
      end
  end.

Definition copy (fuel : nat) (t : hashmap) (buffer_size : Z) (ks : list K)
    (vs : list V) : option hashmap :=
  copy_loop fuel t (seqZ 0 (m_capacity t)) (create buffer_size ks vs).

(** A sequence of [set] calls. *)
Fixpoint set_all (fuel : nat) (t : hashmap) (ops : list (Z * K * V))
    : option hashmap :=
  match ops with
  | [] => Some t
  | (hash, key, value) :: ops =>
    match set fuel t hash key value with
    | None => None
    | Some t => set_all fuel t ops
    end
  end.

(** The pair under which [set(hash, key, value)] files its entry. *)
Definition stored_key (op : Z * K * V) : Z * K := (_hash op.1.1, op.1.2).

(** *** Vocabulary of the specification *)

Definition is_live (t : hashmap) (p : Z) : bool :=
  negb (rd (hashes t) p =? EMPTY_HASH) && negb (deleted (rd (hashes t) p)).

(** The ideal position of a stored hash, [(hash & ~DELETED_HASH_BIT) % capacity]. *)
Definition ideal_pos (t : hashmap) (hash : Z) : Z :=
  Z.land hash (not32 DELETED_HASH_BIT) mod m_capacity t.

(** The probe distance of the specification: the position of slot [p] minus
    the ideal position of its hash, modulo capacity. *)
Definition probe_distance (t : hashmap) (p : Z) : Z :=
  (p - ideal_pos t (rd (hashes t) p)) mod m_capacity t.

(** The slots [i], [i+1], ..., [i+s] (modulo capacity) are all occupied:
    slot [i+s] is reached from slot [i] by [s] steps of forward probing. *)
Definition occupied_run (t : hashmap) (i s : Z) : Prop :=
  forall x, 0 <= x <= s -> rd (hashes t) ((i + x) mod m_capacity t) <> EMPTY_HASH.

(** The caller hashes: any [uint32_t]; and those that [_hash] maps to the
    stored hash of a live entry, which leaves out [0x80000000] alone. *)
Definition uint32 (h : Z) : Prop := 0 <= h < 2 ^ 32.
Definition normalisable (h : Z) : Prop := 0 <= h < 2 ^ 32 /\ h <> DELETED_HASH_BIT.

(** Tables built from a fresh one by [set] and by the raw [insert] as [set]
    and [copy] call it (on a normalised hash), without [remove]; [allowed]
    delimits the caller hashes. *)
Inductive reachable (allowed : Z -> Prop) : hashmap -> Prop :=
| reachable_create buffer_size ks vs :
    reachable allowed (create buffer_size ks vs)
| reachable_set fuel t hash key value t' :
    reachable allowed t -> allowed hash ->
    set fuel t hash key value = Some t' -> reachable allowed t'
| reachable_insert fuel t hash key value t' :
    reachable allowed t -> allowed hash ->
    insert fuel t (_hash hash) key value = Some t' -> reachable allowed t'.

(** The ordering of the specification, as it is written there: along an
    occupied run the probe distance never increases. *)
Definition decreasing_richness (t : hashmap) : Prop :=
  forall i s, 0 <= i < m_capacity t -> 0 <= s < m_capacity t ->
    let j := (i + s) mod m_capacity t in
    is_live t i = true -> is_live t j = true -> occupied_run t i s ->
    probe_distance t j <= probe_distance t i.

(** A stored hash of a live entry: not the sentinel, DELETED bit clear. *)
Definition live_hash (h : Z) : Prop := 0 < h < 2 ^ 31.

(** Every slot is empty or holds the hash of a live entry. *)
Definition no_tombstones (t : hashmap) : Prop :=
  forall p, 0 <= p < m_capacity t ->
    rd (hashes t) p = EMPTY_HASH \/ live_hash (rd (hashes t) p).

(** The first [n] slots of the probe sequence that starts at position [i]
    are occupied, and the entry met after [d] steps is at least [d] away
    from its own ideal position by [_get_probe_distance]: a lookup that
    starts at [i] walks over them without stopping early. *)
Definition good_path (t : hashmap) (i n : Z) : Prop :=
  forall d, 0 <= d < n ->
    let q := (i + d) mod m_capacity t in
    rd (hashes t) q <> EMPTY_HASH /\
    d <= _get_probe_distance t q (rd (hashes t) q).

(** Slot [p] holds the entry [(h, k, v)]; the table holds it in some slot. *)
Definition holds (t : hashmap) (p h : Z) (k : K) (v : V) : Prop :=
  0 <= p < m_capacity t /\ h <> EMPTY_HASH /\
  rd (hashes t) p = h /\ rd (keys t) p = k /\ rd (values t) p = v.

Definition contains (t : hashmap) (h : Z) (k : K) (v : V) : Prop :=
  exists p, holds t p h k v.

(** No slot holds an entry of hash [h] and key [k]. *)
Definition absent (t : hashmap) (h : Z) (k : K) : Prop :=
  forall p v, ~ holds t p h k v.

(** No two occupied slots hold the same hash and key. *)
Definition unique_keys (t : hashmap) : Prop :=
  forall p q, 0 <= p < m_capacity t -> 0 <= q < m_capacity t ->
    rd (hashes t) p <> EMPTY_HASH ->
    rd (hashes t) p = rd (hashes t) q -> rd (keys t) p = rd (keys t) q ->
    p = q.

(** The number of occupied slots. *)
Fixpoint occupied (hs : list Z) : Z :=
  match hs with
  | [] => 0
  | h :: hs => (if h =? EMPTY_HASH then 0 else 1) + occupied hs
  end.

(** The three regions have [m_capacity] slots each, and [m_num_elements]
    counts the occupied ones. *)
Record well_formed (t : hashmap) : Prop := WellFormed {
  wf_hashes : Z.of_nat (length (hashes t)) = m_capacity t;
  wf_keys : Z.of_nat (length (keys t)) = m_capacity t;
  wf_values : Z.of_nat (length (values t)) = m_capacity t;
  wf_count : m_num_elements t = occupied (hashes t)
}.

(** The invariant of a table without tombstones: every entry can be
    reached from its ideal position. *)
Record robin_hood (t : hashmap) : Prop := RobinHood {
  rh_capacity : 0 < m_capacity t <= 2 ^ 31;
  rh_length : Z.of_nat (length (hashes t)) = m_capacity t;
  rh_hashes : no_tombstones t;
  rh_paths : forall p, 0 <= p < m_capacity t ->
    rd (hashes t) p <> EMPTY_HASH ->
    good_path t (ideal_pos t (rd (hashes t) p)) (probe_distance t p)
}.

(** A table as [set] without [remove] keeps it. *)
Record consistent (t : hashmap) : Prop := Consistent {
  cs_robin_hood : robin_hood t;
  cs_well_formed : well_formed t;
  cs_unique_keys : unique_keys t
}.

(** *** The caller's side

    The loop [while (map.iter_next(iter, key, value)) ...] of the example
    programs, collecting the pairs it is handed. *)
Fixpoint iter_all (fuel : nat) (t : hashmap) (it : iter) (key : K) (value : V)
    : option (list (K * V)) :=
  match fuel with
  | O => None
  | S fuel =>
    match iter_next t it key value with
    | (true, it, key, value) =>
      match iter_all fuel t it key value with
      | None => None
      | Some rest => Some ((key, value) :: rest)
      end
    | (false, _, _, _) => Some []
    end
  end.

(** The keys and values of the live slots, in slot order. *)
Definition live_entries (t : hashmap) : list (K * V) :=
  (fun p => (rd (keys t) p, rd (values t) p))
    <$> filter (fun p => is_live t p = true) (seqZ 0 (m_capacity t)).

End Table.

End HashMap.

(** ** The robin-hood hash set, [cf_hashset.hpp] *)

Module HashSet.

Definition EMPTY_HASH : Z := 0.
Definition DELETED_HASH_BIT : Z := Z.shiftl 1 31.

Definition deleted (hash : Z) : bool := negb (Z.land hash DELETED_HASH_BIT =? 0).

Definition _hash (hash : Z) : Z :=
  if hash =? EMPTY_HASH then EMPTY_HASH + 1
  else if deleted hash then Z.land hash (not32 DELETED_HASH_BIT)
  else hash.

Section Table.
Context {T : Type} `{EqDecision T} `{Inhabited T}.

Record hashset : Type := Hashset {
  m_num_elements : Z;
  m_capacity : Z;
  hashes : list Z;
  values : list T
}.

Record iter : Type := Iter { offset : Z }.

Definition _get_probe_distance (t : hashset) (pos hash : Z) : Z :=
  let hash := Z.land hash (not32 DELETED_HASH_BIT) in
  let ideal_pos := u32 (hash mod m_capacity t) in
  u32 (pos - ideal_pos).

Definition next_pos (t : hashset) (pos : Z) : Z :=
  u32 (u32 (pos + 1) mod m_capacity t).

(** The loop of [_lookup_pos], [while (distance < m_capacity)]: the guard
    is tested first and one unit of fuel is spent per execution of the
    body, that is, per slot probed; falling out of the loop returns
    [false]. *)
Fixpoint _lookup_pos_loop (fuel : nat) (t : hashset) (hash : Z) (value : T)
    (pos distance : Z) : option (bool * Z) :=
  if distance <? m_capacity t then
    match fuel with
    | O => None
    | S fuel =>
      if rd (hashes t) pos =? EMPTY_HASH then Some (false, pos)
      else if distance >? _get_probe_distance t pos (rd (hashes t) pos)
      then Some (false, pos)
      else if (rd (hashes t) pos =? hash) && bool_decide (rd (values t) pos = value)
      then Some (true, pos)
      else _lookup_pos_loop fuel t hash value (next_pos t pos) (u32 (distance + 1))
    end
  else Some (false, pos).

Definition _lookup_pos (fuel : nat) (t : hashset) (hash : Z) (value : T)
    : option (bool * Z) :=
  _lookup_pos_loop fuel t hash value (u32 (hash mod m_capacity t)) 0.

Definition store (t : hashset) (pos hash : Z) (value : T) : hashset :=
  {| m_num_elements := m_num_elements t;
     m_capacity := m_capacity t;
     hashes := wr (hashes t) pos hash;
     values := wr (values t) pos value |}.

Definition place (t : hashset) (pos hash : Z) (value : T) : hashset :=
  {| m_num_elements := u64 (m_num_elements t + 1);
     m_capacity := m_capacity t;
     hashes := wr (hashes t) pos hash;
     values := wr (values t) pos value |}.

(** The loop of [_insert], [while (distance < m_capacity)]; falling out of
    the loop returns with the table as the swaps left it. *)
Fixpoint _insert_loop (fuel : nat) (t : hashset) (hash : Z) (_value : T)
    (pos distance : Z) : option hashset :=
  if distance <? m_capacity t then
    match fuel with
    | O => None
    | S fuel =>
      if rd (hashes t) pos =? EMPTY_HASH then Some (place t pos hash _value)
      else
        let exiting_distance := _get_probe_distance t pos (rd (hashes t) pos) in
        if exiting_distance <? distance then
          if deleted (rd (hashes t) pos) then Some (place t pos hash _value)
          else
            _insert_loop fuel (store t pos hash _value)
              (rd (hashes t) pos) (rd (values t) pos)
              (next_pos t pos) (u32 (exiting_distance + 1))
        else
          _insert_loop fuel t hash _value (next_pos t pos) (u32 (distance + 1))
    end
  else Some t.

Definition _insert (fuel : nat) (t : hashset) (hash : Z) (value : T)
    : option hashset :=
  if m_num_elements t =? m_capacity t then Some t
  else _insert_loop fuel t hash value (u32 (hash mod m_capacity t)) 0.

(** The [for] loop of [iter_next]. *)
Fixpoint iter_next_loop (n : nat) (t : hashset) (i : Z) (it : iter)
    (value : T) : bool * iter * T :=
  match n with
  | O => (false, it, value)
  | S n =>
    if rd (hashes t) i =? EMPTY_HASH then iter_next_loop n t (i + 1) it value
    else if deleted (rd (hashes t) i) then iter_next_loop n t (i + 1) it value
    else (true, {| offset := i + 1 |}, rd (values t) i)
  end.

Definition iter_next (t : hashset) (it : iter) (value : T) : bool * iter * T :=
  iter_next_loop (Z.to_nat (m_capacity t - offset it)) t (offset it) it value.

(** [sizeof(T)]. *)
Variable sizeof_T : Z.

(** [create]: [vs] is what the value region of the arena holds. *)
Definition create (buffer_size : Z) (vs : list T) : hashset :=
  let capacity := buffer_size / (sizeof_T + 4) in
  {| m_num_elements := 0;
     m_capacity := capacity;
     hashes := replicate (Z.to_nat capacity) EMPTY_HASH;
     values := resize (Z.to_nat capacity) inhabitant vs |}.

Definition insert (fuel : nat) (t : hashset) (hash : Z) (value : T)
    : option hashset :=
  let hash := _hash hash in
  match _lookup_pos fuel t hash value with
  | None => None
  | Some (true, _) => Some t
  | Some (false, _) => _insert fuel t hash value
  end.

Definition has (fuel : nat) (t : hashset) (hash : Z) (value : T) : option bool :=
  match _lookup_pos fuel t (_hash hash) value with
  | None => None
  | Some (found, _) => Some found
  end.

Definition mark_deleted (t : hashset) (pos : Z) : hashset :=
  {| m_num_elements := u64 (m_num_elements t - 1);
     m_capacity := m_capacity t;
     hashes := wr (hashes t) pos (Z.lor (rd (hashes t) pos) DELETED_HASH_BIT);
     values := values t |}.

Definition remove (fuel : nat) (t : hashset) (hash : Z) (value : T)
    : option hashset :=
  match _lookup_pos fuel t (_hash hash) value with
  | None => None
  | Some (false, _) => Some t
  | Some (true, pos) => Some (mark_deleted t pos)
  end.

Definition iter_start (t : hashset) : iter := {| offset := 0 |}.

(** The [for] loop of [copy] over the source slots. *)
Fixpoint copy_loop (fuel : nat) (t : hashset) (slots : list Z)
    (new_hashset : hashset) : option hashset :=
  match slots with
  | [] => Some new_hashset
  | i :: slots =>
    if rd (hashes t) i =? EMPTY_HASH then copy_loop fuel t slots new_hashset
    else if deleted (rd (hashes t) i) then copy_loop fuel t slots new_hashset
    else
      match insert fuel new_hashset (rd (hashes t) i) (rd (values t) i) with
      | None => None
      | Some new_hashset => copy_loop fuel t slots new_hashset
      end
  end.

Definition copy (fuel : nat) (t : hashset) (buffer_size : Z) (vs : list T)
    : option hashset :=
  copy_loop fuel t (seqZ 0 (m_capacity t)) (create buffer_size vs).

(** A sequence of [insert] calls. *)
Fixpoint insert_all (fuel : nat) (t : hashset) (ops : list (Z * T))
    : option hashset :=
  match ops with
  | [] => Some t
  | (hash, value) :: ops =>
    match insert fuel t hash value with
    | None => None
    | Some t => insert_all fuel t ops
    end
  end.

(** The set read as a map from each value to itself: the two tables have
    the same hash region, and [_lookup_pos] and [_insert] of the set are
    those of the map with the bound [distance < m_capacity] added. *)
Definition as_map (t : hashset) : @HashMap.hashmap T T :=
  HashMap.Hashmap (m_num_elements t) (m_capacity t) (hashes t) (values t)
    (values t).

End Table.

End HashSet.

(** ** The local-probing hash map

    The older [cf_hashmap.hpp] keeps two flag bits per slot, four slots to
    a byte: a filled flag and a deleted flag.  Its loops are [for] loops
    over [capacity] rounds, so that the operations are total functions.
    [create] and [copy] compute the capacity in [float] and are left
    out. *)

Module LocalProbing.

Section Table.
Context {K V : Type} `{Inhabited K} `{Inhabited V}.

Record hashmap : Type := Hashmap {
  num_elements : Z;
  capacity : Z;
  flags : list Z;
  hashes : list Z;
  keys : list K;
  values : list V
}.

Record iter : Type := Iter { offset : Z }.

(** [flags_ptr[pos / 4] & (1 << (2 * (pos % 4)))]. *)
Definition is_filled (t : hashmap) (pos : Z) : bool :=
  let flag_pos := pos / 4 in
  let flag_pos_offset := pos mod 4 in
  negb (Z.land (rd (flags t) flag_pos) (Z.shiftl 1 (2 * flag_pos_offset)) =? 0).

(** The [for] loop of [iter_next] and the two statements after it. *)
Fixpoint iter_next_loop (n : nat) (t : hashmap) (i : Z) (key : K) (value : V)
    : bool * iter * K * V :=
  match n with
  | O => (false, {| offset := capacity t |}, key, value)
  | S n =>
    if is_filled t i
    then (true, {| offset := i + 1 |}, rd (keys t) i, rd (values t) i)
    else iter_next_loop n t (i + 1) key value
  end.

Definition iter_next (t : hashmap) (it : iter) (key : K) (value : V)
    : bool * iter * K * V :=
  iter_next_loop (Z.to_nat (capacity t - offset it)) t (offset it) key value.

Context `{EqDecision K}.

(** A [uint8_t]. *)
Definition u8 (x : Z) : Z := x mod 2 ^ 8.

(** [flags_ptr[pos / 4] & (1 << (2 * (pos % 4) + 1))]. *)
Definition was_deleted (t : hashmap) (pos : Z) : bool :=
  let flag_pos := pos / 4 in
  let flag_pos_offset := pos mod 4 in
  negb (Z.land (rd (flags t) flag_pos) (Z.shiftl 1 (2 * flag_pos_offset + 1)) =? 0).

(** [flags_ptr[flag_pos] |= (1 << (2 * flag_pos_offset));
     flags_ptr[flag_pos] &= ~(1 << (2 * flag_pos_offset + 1));] *)
Definition fill_flag (fl : list Z) (pos : Z) : list Z :=
  let flag_pos := pos / 4 in
  let flag_pos_offset := pos mod 4 in
  let fl := wr fl flag_pos
              (u8 (Z.lor (rd fl flag_pos) (Z.shiftl 1 (2 * flag_pos_offset)))) in
  wr fl flag_pos
    (u8 (Z.land (rd fl flag_pos) (Z.lnot (Z.shiftl 1 (2 * flag_pos_offset + 1))))).

(** [flags_ptr[flag_pos] &= ~(1 << (2 * flag_pos_offset));
     flags_ptr[flag_pos] |= (1 << (2 * flag_pos_offset + 1));] *)
Definition delete_flag (fl : list Z) (pos : Z) : list Z :=
  let flag_pos := pos / 4 in
  let flag_pos_offset := pos mod 4 in
  let fl := wr fl flag_pos
              (u8 (Z.land (rd fl flag_pos) (Z.lnot (Z.shiftl 1 (2 * flag_pos_offset))))) in
  wr fl flag_pos
    (u8 (Z.lor (rd fl flag_pos) (Z.shiftl 1 (2 * flag_pos_offset + 1)))).

(** [values_ptr[pos] = value] of an entry that exists. *)
Definition set_value (t : hashmap) (pos : Z) (value : V) : hashmap :=
  {| num_elements := num_elements t; capacity := capacity t;
     flags := flags t; hashes := hashes t; keys := keys t;
     values := wr (values t) pos value |}.

(** The three stores, the two flag updates and [num_elements++]. *)
Definition place (t : hashmap) (pos hash : Z) (key : K) (value : V) : hashmap :=
  {| num_elements := u64 (num_elements t + 1); capacity := capacity t;
     flags := fill_flag (flags t) pos;
     hashes := wr (hashes t) pos hash;
     keys := wr (keys t) pos key;
     values := wr (values t) pos value |}.

(** The two flag updates of [remove] and [num_elements--]. *)
Definition unfill (t : hashmap) (pos : Z) : hashmap :=
  {| num_elements := u64 (num_elements t - 1); capacity := capacity t;
     flags := delete_flag (flags t) pos;
     hashes := hashes t; keys := keys t; values := values t |}.

(** [hashes_ptr[pos] == hash && keys_ptr[pos] == key]. *)
Definition entry_matches (t : hashmap) (pos hash : Z) (key : K) : bool :=
  (rd (hashes t) pos =? hash) && bool_decide (rd (keys t) pos = key).

(** The [for] loop of [set], [n] rounds from [i] on. *)
Fixpoint set_loop (n : nat) (t : hashmap) (hash : Z) (key : K) (value : V)
    (i : Z) : hashmap :=
  match n with
  | O => t
  | S n =>
    let pos := u64 (hash + i) mod capacity t in
    if is_filled t pos then
      if entry_matches t pos hash key then set_value t pos value
      else set_loop n t hash key value (i + 1)
    else place t pos hash key value
  end.

Definition set (t : hashmap) (hash : Z) (key : K) (value : V) : hashmap :=
  set_loop (Z.to_nat (capacity t)) t hash key value 0.

(** The [for] loop of [lookup]: the flag and the final content of the
    out-parameter [value]. *)
Fixpoint lookup_loop (n : nat) (t : hashmap) (hash : Z) (key : K) (value : V)
    (i : Z) : bool * V :=
  match n with
  | O => (false, value)
  | S n =>
    let pos := u64 (hash + i) mod capacity t in
    if is_filled t pos then
      if entry_matches t pos hash key then (true, rd (values t) pos)
      else lookup_loop n t hash key value (i + 1)
    else if was_deleted t pos then lookup_loop n t hash key value (i + 1)
    else (false, value)
  end.

Definition lookup (t : hashmap) (hash : Z) (key : K) (value : V) : bool * V :=
  lookup_loop (Z.to_nat (capacity t)) t hash key value 0.

(** [get]: [value] is the uninitialised local the function declares. *)
Definition get (t : hashmap) (hash : Z) (key : K) (value : V) : V :=
  (lookup t hash key value).2.

(** The [for] loop of [remove]. *)
Fixpoint remove_loop (n : nat) (t : hashmap) (hash : Z) (key : K) (i : Z)
    : hashmap :=
  match n with
  | O => t
  | S n =>
    let pos := u64 (hash + i) mod capacity t in
    if is_filled t pos then
      if entry_matches t pos hash key then unfill t pos
      else remove_loop n t hash key (i + 1)
    else if was_deleted t pos then remove_loop n t hash key (i + 1)
    else t
  end.

Definition remove (t : hashmap) (hash : Z) (key : K) : hashmap :=
  remove_loop (Z.to_nat (capacity t)) t hash key 0.

(** The three regions behind the flags have [capacity] slots each, the
    flag region [capacity / 4 + 1] bytes. *)
Definition laid_out (t : hashmap) : Prop :=
  0 < capacity t <= 2 ^ 63 /\
  Z.of_nat (length (flags t)) = capacity t / 4 + 1 /\
  Z.of_nat (length (hashes t)) = capacity t /\
  Z.of_nat (length (keys t)) = capacity t /\
  Z.of_nat (length (values t)) = capacity t.

(** The number of slots whose filled flag is set. *)
Definition filled_slots (t : hashmap) : Z :=
  Z.of_nat (length (filter (fun p => is_filled t p = true)
                      (seqZ 0 (capacity t)))).

End Table.

End LocalProbing.

(** ** The pool allocator, [cf_memorypool.hpp] *)

Module MemoryPool.

(** One cell per [element_t]: the union is kept as the raw content of the
    cell read through its [next] member; a payload written through the
    pointer [allocate] returned overwrites it.  The bytes of a [T] wider
    than the index that lie beyond the [next] member are not kept, so that
    what is stated of the content of a cell is stated of its [next]
    member only.  Addresses are integers, [nullptr] is [0]; [None] is an
    access outside the buffer. *)
Record memorypool : Type := Memorypool {
  m_num_elements : Z;
  m_capacity : Z;
  next_free : Z;
  m_buffer : list Z;
  (** address of the buffer and [sizeof(element_t)] *)
  base : Z;
  esize : Z
}.

Definition nullptr : Z := 0.

Definition load (buf : list Z) (i : Z) : option Z :=
  if (0 <=? i) then buf !! Z.to_nat i else None.

Definition save (buf : list Z) (i : Z) (x : Z) : option (list Z) :=
  if (0 <=? i) && (i <? Z.of_nat (length buf)) then Some (wr buf i x) else None.

(** The initialisation loop of [create] over the indices [is]. *)
Fixpoint create_loop (capacity : Z) (idx : list Z) (buf : list Z) : option (list Z) :=
  match idx with
  | [] => Some buf
  | i :: idx =>
    match save buf i (u32 (u32 (i + 1) mod capacity)) with
    | None => None
    | Some buf => create_loop capacity idx buf
    end
  end.

(** [create]: [buf] is the content of the caller's buffer, [addr] its
    address, [sz] the size of one [element_t]. *)
Definition create (buffer_size : Z) (addr sz : Z) (buf : list Z)
    : option memorypool :=
  let capacity := buffer_size / sz in
  match create_loop capacity (seqZ 0 capacity) buf with
  | None => None
  | Some buf =>
    Some {| m_num_elements := 0; m_capacity := capacity; next_free := 0;
            m_buffer := buf; base := addr; esize := sz |}
  end.

Definition allocate (p : memorypool) : option (Z * memorypool) :=
  if m_num_elements p =? m_capacity p then Some (nullptr, p)
  else
    match load (m_buffer p) (next_free p) with
    | None => None
    | Some new_next_free =>
      let old_next_free := next_free p in
      match load (m_buffer p) new_next_free with
      | None => None
      | Some nn =>
        match save (m_buffer p) (next_free p) nn with
        | None => None
        | Some buf =>
          Some (base p + old_next_free * esize p,
                {| m_num_elements := u64 (m_num_elements p + 1);
                   m_capacity := m_capacity p;
                   next_free := new_next_free;
                   m_buffer := buf; base := base p; esize := esize p |})
        end
      end
    end.

Definition free (p : memorypool) (element : Z) : option memorypool :=
  let index := u32 ((element - base p) / esize p) in
  let old_next_free := next_free p in
  match save (m_buffer p) index old_next_free with
  | None => None
  | Some buf =>
    Some {| m_num_elements := u64 (m_num_elements p - 1);
            m_capacity := m_capacity p;
            next_free := index;
            m_buffer := buf; base := base p; esize := esize p |}
  end.

(** The caller writes a payload through a pointer it holds. *)
Definition write (p : memorypool) (element : Z) (payload : Z) : option memorypool :=
  match save (m_buffer p) ((element - base p) / esize p) payload with
  | None => None
  | Some buf =>
    Some {| m_num_elements := m_num_elements p; m_capacity := m_capacity p;
            next_free := next_free p;
            m_buffer := buf; base := base p; esize := esize p |}
  end.

(** [allocate] once per payload, the caller writing the payload through the
    pointer it got; the result lists each pointer with the pool after it. *)
Fixpoint allocate_all (p : memorypool) (payloads : list Z)
    : option (list (Z * memorypool)) :=
  match payloads with
  | [] => Some []
  | v :: payloads =>
    '(a, p) ← allocate p;
    p ← (if a =? nullptr then Some p else write p a v);
    rest ← allocate_all p payloads;
    Some ((a, p) :: rest)
  end.

Definition within_capacity (p : memorypool) : Prop :=
  m_num_elements p <= m_capacity p.

(** A pool of five cells at address [addr], cells of size [sz]. *)
Definition pool5 (addr sz n f : Z) (buf : list Z) : memorypool :=
  {| m_num_elements := n; m_capacity := 5; next_free := f;
     m_buffer := buf; base := addr; esize := sz |}.

(** The state of a pool of [n] cells at address [addr] from which the
    cells [0], ..., [k - 1] have been handed out and none given back: the
    free list runs through the cells from [k] on, in address order. *)
Definition handed_out (addr sz n k : Z) (p : memorypool) : Prop :=
  m_num_elements p = k /\ m_capacity p = n /\ next_free p = k mod n /\
  Z.of_nat (length (m_buffer p)) = n /\ base p = addr /\ esize p = sz /\
  forall j, k <= j < n -> load (m_buffer p) j = Some ((j + 1) mod n).

End MemoryPool.

(** ** Tables of the examples

    [uint32_t] keys and [uint32_t] values, twelve bytes per slot. *)

Module Examples.
Import HashMap.

Definition fresh (capacity : Z) : @hashmap Z Z :=
  create 4 4 (12 * capacity) [] [].

(** Two keys with the same ideal position in a table of four slots. *)
Definition colliding : @hashmap Z Z :=
  {| m_num_elements := 2; m_capacity := 4;
     hashes := [0; 1; 5; 0];
     keys := [inhabitant; 10; 11; inhabitant];
     values := [inhabitant; 100; 101; inhabitant] |}.

(** A table of two slots, both taken by entries whose ideal position is 0. *)
Definition full_two : @hashmap Z Z :=
  {| m_num_elements := 2; m_capacity := 2;
     hashes := [2; 2]; keys := [10; 11]; values := [100; 101] |}.

(** A table of one slot, taken. *)
Definition full_one : @hashmap Z Z :=
  {| m_num_elements := 1; m_capacity := 1;
     hashes := [2]; keys := [10]; values := [100] |}.

(** The table after [set(0x80000000, 7, 42)] on a fresh table of four slots. *)
Definition lost_entry : @hashmap Z Z :=
  {| m_num_elements := 1; m_capacity := 4;
     hashes := [0; 0; 0; 0];
     keys := [7; inhabitant; inhabitant; inhabitant];
     values := [42; inhabitant; inhabitant; inhabitant] |}.

(** Three slots: three entries are set, one is removed, a fourth is set. *)
Definition set_after_remove : option (@hashmap Z Z) :=
  t ← set_all 16 (fresh 3) [(4, 0, 40); (1, 2, 12); (5, 1, 51)];
  t ← remove 16 t 1 2;
  set 16 t 6 0 60.

Definition stored_out_of_reach : @hashmap Z Z :=
  {| m_num_elements := 3; m_capacity := 3;
     hashes := [5; 4; 6]; keys := [1; 0; 0]; values := [51; 40; 60] |}.

(** Three slots, calls of the public interface only: three entries with
    ideal position 0 are set, the first is removed and its slot taken by an
    entry that wraps around, the second is removed, and a last entry is set
    and removed again. *)
Definition set_and_remove_calls : option (@hashmap Z Z) :=
  t ← set_all 16 (fresh 3) [(3, 3, 30); (6, 6, 60); (9, 9, 90)];
  t ← remove 16 t 3 3;
  t ← set 16 t 8 8 80;
  t ← remove 16 t 6 6;
  t ← set 16 t 7 7 70;
  remove 16 t 7 7.

Definition live_key_out_of_reach : @hashmap Z Z :=
  {| m_num_elements := 2; m_capacity := 3;
     hashes := [8; 2 ^ 31 + 7; 9]; keys := [8; 7; 9]; values := [80; 70; 90] |}.

(** The same calls on the robin-hood set. *)
Definition insert_and_remove_calls : option (@HashSet.hashset Z) :=
  t ← HashSet.insert_all 16 (HashSet.create 4 24 []) [(3, 3); (6, 6); (9, 9)];
  t ← HashSet.remove 16 t 3 3;
  t ← HashSet.insert 16 t 8 8;
  t ← HashSet.remove 16 t 6 6;
  t ← HashSet.insert 16 t 7 7;
  HashSet.remove 16 t 7 7.

(** A local-probing map of four slots (two flag bytes), nothing set yet. *)
Definition unused_four : @LocalProbing.hashmap Z Z :=
  {| LocalProbing.num_elements := 0; LocalProbing.capacity := 4;
     LocalProbing.flags := [0; 0];
     LocalProbing.hashes := [0; 0; 0; 0];
     LocalProbing.keys := [0; 0; 0; 0];
     LocalProbing.values := [0; 0; 0; 0] |}.

(** A robin-hood set of four slots after [insert(5, 11)]. *)
Definition one_value : @HashSet.hashset Z :=
  {| HashSet.m_num_elements := 1; HashSet.m_capacity := 4;
     HashSet.hashes := [0; 5; 0; 0];
     HashSet.values := [inhabitant; 11; inhabitant; inhabitant] |}.

(** A pool of five cells as [create] leaves it. *)
Definition fresh_pool : MemoryPool.memorypool :=
  MemoryPool.pool5 4096 8 0 0 [1; 2; 3; 4; 0].

(** A pool of five cells, all handed out and written. *)
Definition full_pool : MemoryPool.memorypool :=
  MemoryPool.pool5 4096 8 5 0 [11; 12; 13; 14; 15].

End Examples.

(** * Properties *)

(** ** Machine arithmetic *)

Lemma u32_small x : 0 <= x < 2 ^ 32 -> u32 x = x.
Proof. intros. unfold u32. apply Z.mod_small. lia. Qed.

Lemma u64_small x : 0 <= x < 2 ^ 64 -> u64 x = x.
Proof. intros. unfold u64. apply Z.mod_small. lia. Qed.

Lemma land_pow2 h n :
  0 <= n -> Z.land h (2 ^ n) = if Z.testbit h n then 2 ^ n else 0.
Proof.
  intros Hn. apply Z.bits_inj'. intros m Hm.
  rewrite Z.land_spec, Z.pow2_bits_eqb by lia.
  destruct (Z.eqb_spec n m) as [->|Hne].
  - destruct (Z.testbit h m) eqn:E; simpl.
    + rewrite Z.pow2_bits_eqb by lia. now rewrite Z.eqb_refl.
    + now rewrite Z.bits_0.
  - rewrite andb_false_r. destruct (Z.testbit h n).
    + rewrite Z.pow2_bits_eqb by lia. symmetry. now apply Z.eqb_neq.
    + now rewrite Z.bits_0.
Qed.

Lemma hm_deleted_testbit h : HashMap.deleted h = Z.testbit h 31.
Proof.
  unfold HashMap.deleted, HashMap.DELETED_HASH_BIT.
  change (Z.shiftl 1 31) with (2 ^ 31).
  rewrite land_pow2 by lia. now destruct (Z.testbit h 31).
Qed.

Lemma hm_clear_deleted h :
  Z.land h (not32 HashMap.DELETED_HASH_BIT) = h mod 2 ^ 31.
Proof.
  change (not32 HashMap.DELETED_HASH_BIT) with (Z.ones 31).
  apply Z.land_ones. lia.
Qed.

Lemma testbit31_range h : 0 <= h < 2 ^ 32 -> Z.testbit h 31 = (2 ^ 31 <=? h).
Proof.
  intros Hh. destruct (Z.leb_spec (2 ^ 31) h) as [Hle|Hlt].
  - rewrite Z.testbit_true by lia.
    replace h with (1 * 2 ^ 31 + (h - 2 ^ 31)) by lia.
    rewrite Z.div_add_l by lia. rewrite (Z.div_small (h - 2 ^ 31)) by lia.
    reflexivity.
  - apply Z.bits_above_log2; [lia|].
    destruct (Z.eq_dec h 0) as [->|Hne]; [reflexivity|].
    apply Z.log2_lt_pow2; lia.
Qed.

Lemma hm_live_hash_not_deleted h : HashMap.live_hash h -> HashMap.deleted h = false.
Proof.
  unfold HashMap.live_hash. intros Hh. rewrite hm_deleted_testbit, testbit31_range by lia.
  apply Z.leb_gt. lia.
Qed.

Lemma hm_live_hash_clear h :
  HashMap.live_hash h -> Z.land h (not32 HashMap.DELETED_HASH_BIT) = h.
Proof.
  unfold HashMap.live_hash. intros Hh. rewrite hm_clear_deleted. apply Z.mod_small. lia.
Qed.

(** ** Normalisation of caller hashes *)

Lemma hm_hash_zero : HashMap._hash 0 = 1.
Proof. reflexivity. Qed.

Lemma hm_hash_deleted h :
  0 <= h < 2 ^ 32 -> h <> 0 -> Z.testbit h 31 = true ->
  HashMap._hash h = h - 2 ^ 31.
Proof.
  intros Hh Hne Hbit. unfold HashMap._hash.
  destruct (Z.eqb_spec h HashMap.EMPTY_HASH) as [E|_]; [contradiction|].
  rewrite hm_deleted_testbit, Hbit, hm_clear_deleted.
  rewrite testbit31_range in Hbit by lia. apply Z.leb_le in Hbit.
  replace h with ((h - 2 ^ 31) + 1 * 2 ^ 31) at 1 by lia.
  rewrite Z.mod_add by lia. apply Z.mod_small. lia.
Qed.

Lemma hm_hash_plain h :
  h <> 0 -> Z.testbit h 31 = false -> HashMap._hash h = h.
Proof.
  intros Hne Hbit. unfold HashMap._hash.
  destruct (Z.eqb_spec h HashMap.EMPTY_HASH) as [E|_]; [contradiction|].
  now rewrite hm_deleted_testbit, Hbit.
Qed.

Lemma hm_hash_live h :
  0 <= h < 2 ^ 32 -> h <> 2 ^ 31 -> HashMap.live_hash (HashMap._hash h).
Proof.
  intros Hh Hne. unfold HashMap.live_hash.
  destruct (Z.eq_dec h 0) as [->|Hnz]; [rewrite hm_hash_zero; lia|].
  destruct (Z.testbit h 31) eqn:Hbit.
  - rewrite hm_hash_deleted by assumption.
    rewrite testbit31_range in Hbit by lia. apply Z.leb_le in Hbit. lia.
  - rewrite hm_hash_plain by assumption.
    rewrite testbit31_range in Hbit by lia. apply Z.leb_gt in Hbit. lia.
Qed.

Lemma mod_wrap_add c x :
  0 < c -> 0 <= x < 2 * c -> x mod c = if x <? c then x else x - c.
Proof.
  intros Hc Hx. destruct (Z.ltb_spec x c).
  - apply Z.mod_small. lia.
  - replace x with ((x - c) + 1 * c) at 1 by lia.
    rewrite Z.mod_add by lia. apply Z.mod_small. lia.
Qed.

Lemma mod_wrap_sub c x :
  0 < c -> - c <= x < c -> x mod c = if 0 <=? x then x else x + c.
Proof.
  intros Hc Hx. destruct (Z.leb_spec 0 x).
  - apply Z.mod_small. lia.
  - replace x with ((x + c) + (-1) * c) at 1 by lia.
    rewrite Z.mod_add by lia. apply Z.mod_small. lia.
Qed.

(** ** Array reads and writes *)

Lemma rd_wr_eq {A} `{Inhabited A} (a : list A) i x :
  0 <= i < Z.of_nat (length a) -> rd (wr a i x) i = x.
Proof.
  intros Hi. unfold rd, wr. apply list_lookup_total_insert_eq. lia.
Qed.

Lemma rd_wr_ne {A} `{Inhabited A} (a : list A) i j x :
  0 <= i -> 0 <= j -> i <> j -> rd (wr a i x) j = rd a j.
Proof.
  intros Hi Hj Hne. unfold rd, wr. apply list_lookup_total_insert_ne. lia.
Qed.

Lemma length_wr {A} (a : list A) i x : length (wr a i x) = length a.
Proof. apply length_insert. Qed.

(** ** The robin-hood hash map *)

Section HashMapProofs.
Context {K V : Type} `{EqDecision K} `{Inhabited K} `{Inhabited V}.
Import HashMap.
Implicit Types t : @hashmap K V.

Lemma gpd_capacity t1 t2 p h :
  m_capacity t1 = m_capacity t2 ->
  _get_probe_distance t1 p h = _get_probe_distance t2 p h.
Proof. unfold _get_probe_distance. now intros ->. Qed.

Lemma ideal_pos_live t h : live_hash h -> ideal_pos t h = h mod m_capacity t.
Proof. intros Hh. unfold ideal_pos. now rewrite hm_live_hash_clear. Qed.

Lemma ideal_pos_range t h :
  0 < m_capacity t -> 0 <= ideal_pos t h < m_capacity t.
Proof. intros Hc. unfold ideal_pos. now apply Z.mod_pos_bound. Qed.

(** [_get_probe_distance] in terms of the ideal position: the difference
    is taken modulo [2 ^ 32], not modulo the capacity. *)
Lemma gpd_ideal t p h :
  0 < m_capacity t <= 2 ^ 32 -> 0 <= p < m_capacity t ->
  _get_probe_distance t p h =
    if ideal_pos t h <=? p then p - ideal_pos t h
    else 2 ^ 32 + p - ideal_pos t h.
Proof.
  intros Hc Hp. pose proof (ideal_pos_range t h ltac:(lia)) as Hi.
  unfold _get_probe_distance. fold (ideal_pos t h).
  rewrite (u32_small (ideal_pos t h)) by lia.
  unfold u32. destruct (Z.leb_spec (ideal_pos t h) p).
  - apply Z.mod_small. lia.
  - replace (p - ideal_pos t h) with ((2 ^ 32 + p - ideal_pos t h) + (-1) * 2 ^ 32) by lia.
    rewrite Z.mod_add by lia. apply Z.mod_small. lia.
Qed.

Lemma probe_distance_cases t p :
  0 < m_capacity t -> 0 <= p < m_capacity t ->
  probe_distance t p =
    if ideal_pos t (rd (hashes t) p) <=? p then p - ideal_pos t (rd (hashes t) p)
    else p - ideal_pos t (rd (hashes t) p) + m_capacity t.
Proof.
  intros Hc Hp. pose proof (ideal_pos_range t (rd (hashes t) p) Hc) as Hi.
  unfold probe_distance. rewrite mod_wrap_sub by lia.
  destruct (Z.leb_spec 0 (p - ideal_pos t (rd (hashes t) p)));
    destruct (Z.leb_spec (ideal_pos t (rd (hashes t) p)) p); lia.
Qed.

Lemma next_pos_mod t p :
  0 < m_capacity t < 2 ^ 32 -> 0 <= p < m_capacity t ->
  next_pos t p = (p + 1) mod m_capacity t.
Proof.
  intros Hc Hp. unfold next_pos. rewrite (u32_small (p + 1)) by lia.
  apply u32_small. pose proof (Z.mod_pos_bound (p + 1) (m_capacity t)). lia.
Qed.

Lemma next_pos_range t p :
  0 < m_capacity t -> 0 <= next_pos t p < m_capacity t.
Proof.
  intros Hc. unfold next_pos, u32.
  pose proof (Z.mod_pos_bound ((p + 1) mod 2 ^ 32) (m_capacity t) Hc) as Hb.
  pose proof (Z.mod_pos_bound ((p + 1) mod 2 ^ 32 mod m_capacity t) (2 ^ 32) ltac:(lia)).
  pose proof (Z.mod_le ((p + 1) mod 2 ^ 32 mod m_capacity t) (2 ^ 32) ltac:(lia) ltac:(lia)).
  lia.
Qed.

Lemma ideal_pos_capacity t1 t2 h :
  m_capacity t1 = m_capacity t2 -> ideal_pos t1 h = ideal_pos t2 h.
Proof. unfold ideal_pos. now intros ->. Qed.

Lemma probe_distance_capacity t1 t2 p :
  m_capacity t1 = m_capacity t2 -> rd (hashes t1) p = rd (hashes t2) p ->
  probe_distance t1 p = probe_distance t2 p.
Proof. unfold probe_distance, ideal_pos. now intros -> ->. Qed.

(** When the probe sequence from [i] has reached [pos] after [d] steps,
    the distance of [pos] from [i] modulo capacity is [d]. *)
Lemma steps_from_ideal c i d :
  0 < c -> 0 <= i < c -> 0 <= d < c -> ((i + d) mod c - i) mod c = d.
Proof.
  intros Hc Hi Hd. rewrite (mod_wrap_add c (i + d)) by lia.
  destruct (Z.ltb_spec (i + d) c); rewrite mod_wrap_sub by lia.
  - destruct (Z.leb_spec 0 (i + d - i)); lia.
  - destruct (Z.leb_spec 0 (i + d - c - i)); lia.
Qed.

Lemma ideal_plus_distance c i p :
  0 < c -> 0 <= i < c -> 0 <= p < c -> (i + (p - i) mod c) mod c = p.
Proof.
  intros Hc Hi Hp. rewrite (mod_wrap_sub c (p - i)) by lia.
  destruct (Z.leb_spec 0 (p - i)); rewrite mod_wrap_add by lia.
  - destruct (Z.ltb_spec (i + (p - i)) c); lia.
  - destruct (Z.ltb_spec (i + (p - i + c)) c); lia.
Qed.

(** *** The raw [insert] keeps the geometry of the table *)

Lemma insert_loop_capacity fuel : forall t hash k v pos d t',
  insert_loop fuel t hash k v pos d = Some t' ->
  m_capacity t' = m_capacity t /\ length (hashes t') = length (hashes t).
Proof.
  induction fuel as [|fuel IH]; intros t hash k v pos d t' Hrun; [discriminate|].
  cbn [insert_loop] in Hrun.
  destruct (rd (hashes t) pos =? EMPTY_HASH).
  - injection Hrun as <-. cbn. now rewrite length_wr.
  - destruct (_get_probe_distance t pos (rd (hashes t) pos) <? d).
    + destruct (deleted (rd (hashes t) pos)).
      * injection Hrun as <-. cbn. now rewrite length_wr.
      * apply IH in Hrun. cbn in Hrun. now rewrite length_wr in Hrun.
    + now apply IH in Hrun.
Qed.

(** *** A table whose slots are all live: [insert] never returns

    No slot is empty and none is a tombstone, so neither of the two
    [return] statements of the loop is ever reached; the travelling entry
    is swapped around the table for ever. *)
Lemma insert_loop_full_diverges fuel : forall t hash k v pos d,
  0 < m_capacity t -> Z.of_nat (length (hashes t)) = m_capacity t ->
  (forall p, 0 <= p < m_capacity t -> live_hash (rd (hashes t) p)) ->
  live_hash hash -> 0 <= pos < m_capacity t ->
  insert_loop fuel t hash k v pos d = None.
Proof.
  induction fuel as [|fuel IH]; intros t hash k v pos d Hc Hlen Hfull Hh Hpos;
    [reflexivity|].
  cbn [insert_loop]. pose proof (Hfull pos Hpos) as Hres.
  destruct (Z.eqb_spec (rd (hashes t) pos) EMPTY_HASH) as [He|_].
  { unfold live_hash, EMPTY_HASH in *. lia. }
  destruct (_get_probe_distance t pos (rd (hashes t) pos) <? d).
  - rewrite hm_live_hash_not_deleted by assumption.
    apply IH; cbn [store m_capacity hashes]; try assumption.
    + now rewrite length_wr.
    + intros p Hp. destruct (Z.eq_dec p pos) as [->|Hne].
      * now rewrite rd_wr_eq by lia.
      * rewrite rd_wr_ne by lia. now apply Hfull.
    + now apply next_pos_range.
  - apply IH; try assumption. now apply next_pos_range.
Qed.

(** *** Paths survive the stores of [insert] *)

Lemma good_path_update t t' s hnew i n :
  0 < m_capacity t -> m_capacity t' = m_capacity t ->
  hashes t' = wr (hashes t) s hnew ->
  Z.of_nat (length (hashes t)) = m_capacity t ->
  0 <= s < m_capacity t -> hnew <> EMPTY_HASH ->
  (rd (hashes t) s <> EMPTY_HASH ->
   _get_probe_distance t s (rd (hashes t) s) <= _get_probe_distance t s hnew) ->
  good_path t i n -> good_path t' i n.
Proof.
  intros Hc Hcap Hhs Hlen Hs Hnew Hmono Hpath d Hd.
  destruct (Hpath d Hd) as [Hocc Hdist]. cbn zeta in *.
  rewrite Hcap, Hhs.
  pose proof (Z.mod_pos_bound (i + d) (m_capacity t) Hc) as Hq.
  destruct (Z.eq_dec ((i + d) mod m_capacity t) s) as [Heq|Hne].
  - rewrite Heq in *. rewrite rd_wr_eq by lia. split; [assumption|].
    rewrite (gpd_capacity t' t) by assumption. specialize (Hmono Hocc). lia.
  - rewrite rd_wr_ne by lia. split; [assumption|].
    now rewrite (gpd_capacity t' t).
Qed.

Lemma good_path_extend t i n :
  0 <= n ->
  good_path t i n ->
  rd (hashes t) ((i + n) mod m_capacity t) <> EMPTY_HASH ->
  n <= _get_probe_distance t ((i + n) mod m_capacity t)
         (rd (hashes t) ((i + n) mod m_capacity t)) ->
  good_path t i (n + 1).
Proof.
  intros Hn Hpath Hocc Hdist d Hd. destruct (Z.eq_dec d n) as [->|Hne].
  - now split.
  - apply Hpath. lia.
Qed.

Lemma good_path_shorten t i n m :
  m <= n -> good_path t i n -> good_path t i m.
Proof. intros Hle Hpath d Hd. apply Hpath. lia. Qed.

(** A path as long as the table covers every slot. *)
Lemma good_path_covers t i p :
  0 < m_capacity t -> 0 <= i < m_capacity t -> 0 <= p < m_capacity t ->
  good_path t i (m_capacity t) -> rd (hashes t) p <> EMPTY_HASH.
Proof.
  intros Hc Hi Hp Hpath.
  pose proof (Z.mod_pos_bound (p - i) (m_capacity t) Hc) as Hd.
  destruct (Hpath ((p - i) mod m_capacity t) Hd) as [Hocc _]. cbn zeta in Hocc.
  now rewrite ideal_plus_distance in Hocc by lia.
Qed.

(** The travelling entry of [insert], [d] steps away from its ideal
    position, is at least [d] away by [_get_probe_distance]. *)
Lemma gpd_traveller t hash d :
  0 < m_capacity t <= 2 ^ 31 -> live_hash hash -> 0 <= d < m_capacity t ->
  d <= _get_probe_distance t ((hash mod m_capacity t + d) mod m_capacity t) hash.
Proof.
  intros Hc Hh Hd.
  pose proof (Z.mod_pos_bound hash (m_capacity t) ltac:(lia)) as Hi.
  pose proof (Z.mod_pos_bound (hash mod m_capacity t + d) (m_capacity t) ltac:(lia)) as Hp.
  rewrite gpd_ideal by lia. rewrite ideal_pos_live by assumption.
  revert Hp. rewrite (mod_wrap_add (m_capacity t) (hash mod m_capacity t + d)) by lia.
  intros Hp.
  destruct (Z.ltb_spec (hash mod m_capacity t + d) (m_capacity t));
    destruct (Z.leb_spec (hash mod m_capacity t) (hash mod m_capacity t + d));
    destruct (Z.leb_spec (hash mod m_capacity t) (hash mod m_capacity t + d - m_capacity t));
    lia.
Qed.

(** A resident that [insert] evicts sits at or after its ideal position:
    its [_get_probe_distance] is its distance modulo capacity. *)
Lemma gpd_evicted t pos r d :
  0 < m_capacity t <= 2 ^ 31 -> 0 <= pos < m_capacity t ->
  0 <= d < m_capacity t -> _get_probe_distance t pos r < d ->
  ideal_pos t r <= pos /\ _get_probe_distance t pos r = pos - ideal_pos t r.
Proof.
  intros Hc Hpos Hd. pose proof (ideal_pos_range t r ltac:(lia)) as Hi.
  rewrite gpd_ideal by lia.
  destruct (Z.leb_spec (ideal_pos t r) pos); lia.
Qed.

(** Storing the travelling entry where the loop of [insert] stores it, in
    an empty slot or over a resident that is closer to its ideal position. *)
Lemma store_keeps_robin_hood t t' hash pos d :
  robin_hood t -> live_hash hash -> 0 <= d < m_capacity t ->
  pos = (hash mod m_capacity t + d) mod m_capacity t ->
  good_path t (hash mod m_capacity t) d ->
  (rd (hashes t) pos <> EMPTY_HASH ->
   _get_probe_distance t pos (rd (hashes t) pos) < d) ->
  m_capacity t' = m_capacity t -> hashes t' = wr (hashes t) pos hash ->
  robin_hood t'.
Proof.
  intros [Hc Hlen Hval Hpaths] Hh Hd Hpos Hpath Hres Hcap Hhs.
  pose proof (Z.mod_pos_bound hash (m_capacity t) ltac:(lia)) as Hi.
  assert (0 <= pos < m_capacity t) as Hp
    by (subst pos; apply Z.mod_pos_bound; lia).
  assert (d <= _get_probe_distance t pos hash) as Hnew
    by (subst pos; now apply gpd_traveller).
  assert (hash <> EMPTY_HASH) as Hnz by (unfold live_hash, EMPTY_HASH in *; lia).
  assert (forall j n, good_path t j n -> good_path t' j n) as Hupd.
  { intros j n. apply (good_path_update t t' pos hash); try assumption; lia. }
  constructor.
  - now rewrite Hcap.
  - now rewrite Hhs, length_wr, Hcap.
  - intros p Hp'. rewrite Hcap in Hp'. rewrite Hhs.
    destruct (Z.eq_dec p pos) as [->|Hne].
    + rewrite rd_wr_eq by lia. now right.
    + rewrite rd_wr_ne by lia. now apply Hval.
  - intros p Hp' Hocc. rewrite Hcap in Hp'.
    destruct (Z.eq_dec p pos) as [->|Hne].
    + assert (rd (hashes t') pos = hash) as Hrd
        by (rewrite Hhs; apply rd_wr_eq; lia).
      assert (probe_distance t' pos = d) as ->.
      { unfold probe_distance. rewrite Hrd, (ideal_pos_capacity t' t) by assumption.
        rewrite ideal_pos_live, Hcap by assumption.
        rewrite Hpos at 1. apply steps_from_ideal; lia. }
      rewrite Hrd, (ideal_pos_capacity t' t), ideal_pos_live by assumption.
      now apply Hupd.
    + assert (rd (hashes t') p = rd (hashes t) p) as Hrd
        by (rewrite Hhs; apply rd_wr_ne; lia).
      rewrite (probe_distance_capacity t' t), (ideal_pos_capacity t' t), Hrd
        by assumption.
      apply Hupd, Hpaths; [assumption|]. now rewrite <- Hrd.
Qed.

(** *** The raw [insert] keeps the invariant *)

Lemma insert_loop_robin_hood fuel : forall t hash k v pos d t',
  robin_hood t -> live_hash hash -> 0 <= d < m_capacity t ->
  pos = (hash mod m_capacity t + d) mod m_capacity t ->
  good_path t (hash mod m_capacity t) d ->
  insert_loop fuel t hash k v pos d = Some t' -> robin_hood t'.
Proof.
  induction fuel as [|fuel IH]; intros t hash k v pos d t' Hrh Hh Hd Hpos Hpath Hrun;
    [discriminate|].
  pose proof Hrun as Hrun0. cbn [insert_loop] in Hrun.
  pose proof (rh_capacity t Hrh) as Hc.
  pose proof (Z.mod_pos_bound hash (m_capacity t) ltac:(lia)) as Hi.
  assert (0 <= pos < m_capacity t) as Hp
    by (subst pos; apply Z.mod_pos_bound; lia).
  (* a table without an empty slot cannot have let [insert] return *)
  assert (forall i, 0 <= i < m_capacity t -> good_path t i (m_capacity t) -> False)
    as Hfull.
  { intros i Hi' Hcover.
    rewrite insert_loop_full_diverges in Hrun0; try discriminate; try assumption;
      try lia.
    - apply (rh_length t Hrh).
    - intros p Hp'. destruct (rh_hashes t Hrh p Hp') as [He|Hl]; [|assumption].
      now apply (good_path_covers t i p) in Hcover. }
  destruct (Z.eqb_spec (rd (hashes t) pos) EMPTY_HASH) as [He|Hne].
  { injection Hrun as <-.
    apply (store_keeps_robin_hood t _ hash pos d); try assumption; try reflexivity.
    intros Hocc. contradiction. }
  destruct (rh_hashes t Hrh pos Hp) as [He|Hres]; [contradiction|].
  destruct (Z.ltb_spec (_get_probe_distance t pos (rd (hashes t) pos)) d) as [Hlt|Hge].
  - rewrite hm_live_hash_not_deleted in Hrun by assumption.
    destruct (gpd_evicted t pos (rd (hashes t) pos) d) as [Hle He]; try assumption.
    pose proof (ideal_pos_range t (rd (hashes t) pos) ltac:(lia)) as Hir.
    assert (probe_distance t pos = pos - ideal_pos t (rd (hashes t) pos)) as Hpd.
    { rewrite probe_distance_cases by lia.
      destruct (Z.leb_spec (ideal_pos t (rd (hashes t) pos)) pos); lia. }
    pose proof (rh_paths t Hrh pos Hp Hne) as Hold. rewrite Hpd in Hold.
    assert ((ideal_pos t (rd (hashes t) pos)
             + (pos - ideal_pos t (rd (hashes t) pos))) mod m_capacity t = pos)
      as Hback by (rewrite Z.mod_small; lia).
    destruct (Z.eq_dec (pos - ideal_pos t (rd (hashes t) pos) + 1) (m_capacity t))
      as [Hwhole|Hpart].
    { exfalso. apply (Hfull (ideal_pos t (rd (hashes t) pos)) Hir).
      assert (good_path t (ideal_pos t (rd (hashes t) pos))
                (pos - ideal_pos t (rd (hashes t) pos) + 1)) as Hall
        by (apply good_path_extend; [lia|assumption| |];
            rewrite Hback; [assumption|lia]).
      now rewrite Hwhole in Hall. }
    set (t1 := store t pos hash k v) in *.
    assert (robin_hood t1) as Hrh1.
    { apply (store_keeps_robin_hood t t1 hash pos d); try assumption; try reflexivity.
      intros _. assumption. }
    apply (IH t1 _ _ _ _ _ t' Hrh1 Hres) in Hrun; try assumption.
    + rewrite He, u32_small by lia. cbn [t1 store m_capacity]. lia.
    + rewrite He, u32_small by lia. cbn [t1 store m_capacity].
      rewrite next_pos_mod by lia.
      rewrite <- (ideal_pos_live t (rd (hashes t) pos) Hres). f_equal. lia.
    + rewrite He, u32_small by lia. cbn [t1 store m_capacity].
      rewrite <- (ideal_pos_live t (rd (hashes t) pos) Hres).
      assert (good_path t1 (ideal_pos t (rd (hashes t) pos))
                (pos - ideal_pos t (rd (hashes t) pos))) as Hold1.
      { apply (good_path_update t t1 pos hash); try assumption; try reflexivity;
          try lia.
        - apply (rh_length t Hrh).
        - unfold live_hash, EMPTY_HASH in *. lia.
        - intros _. subst pos.
          pose proof (gpd_traveller t hash d Hc Hh Hd). lia. }
      assert (rd (hashes t1) pos = hash) as Hrd1.
      { cbn [t1 store hashes]. apply rd_wr_eq. pose proof (rh_length t Hrh). lia. }
      apply good_path_extend; [lia|assumption| |];
        cbn [t1 store m_capacity]; rewrite Hback, Hrd1.
      * unfold live_hash, EMPTY_HASH in *. lia.
      * rewrite (gpd_capacity _ t) by reflexivity. subst pos.
        pose proof (gpd_traveller t hash d Hc Hh Hd). lia.
  - destruct (Z.eq_dec (d + 1) (m_capacity t)) as [Hwhole|Hpart].
    { exfalso. apply (Hfull (hash mod m_capacity t) Hi).
      assert (good_path t (hash mod m_capacity t) (d + 1)) as Hall
        by (apply good_path_extend; [lia|assumption| |];
            rewrite <- Hpos; [assumption|lia]).
      now rewrite Hwhole in Hall. }
    apply (IH t _ _ _ _ _ t' Hrh Hh) in Hrun; try assumption.
    + rewrite u32_small by lia. lia.
    + rewrite u32_small, next_pos_mod by lia. rewrite Hpos.
      rewrite Z.add_mod_idemp_l by lia. f_equal. lia.
    + rewrite u32_small by lia.
      apply good_path_extend; [lia|assumption| |]; rewrite <- Hpos; [assumption|lia].
Qed.

Lemma insert_robin_hood fuel t hash k v t' :
  robin_hood t -> live_hash hash ->
  insert fuel t hash k v = Some t' -> robin_hood t'.
Proof.
  intros Hrh Hh Hrun. unfold insert in Hrun.
  pose proof (rh_capacity t Hrh) as Hc.
  pose proof (Z.mod_pos_bound hash (m_capacity t) ltac:(lia)) as Hi.
  rewrite u32_small in Hrun by lia.
  apply (insert_loop_robin_hood fuel t hash k v (hash mod m_capacity t) 0 t');
    try assumption; try lia.
  - rewrite Z.add_0_r, Z.mod_mod; lia.
  - intros d Hd. lia.
Qed.

Lemma set_robin_hood fuel t hash k v t' :
  robin_hood t -> normalisable hash ->
  set fuel t hash k v = Some t' -> robin_hood t'.
Proof.
  intros Hrh [Hh Hne] Hrun. unfold set in Hrun.
  destruct (_lookup_pos fuel t (_hash hash) k) as [[[] pos]|]; try discriminate.
  - injection Hrun as <-. destruct Hrh as [Hc Hlen Hval Hpaths].
    constructor; assumption.
  - apply (insert_robin_hood fuel t (_hash hash) k v); try assumption.
    now apply hm_hash_live.
Qed.

Lemma rd_replicate {A} `{Inhabited A} n (x : A) p :
  0 <= p < Z.of_nat n -> rd (replicate n x) p = x.
Proof. intros Hp. unfold rd. apply lookup_total_replicate_2. lia. Qed.

Lemma create_robin_hood sk sv buffer_size ks vs :
  0 < m_capacity (create (K:=K) (V:=V) sk sv buffer_size ks vs) <= 2 ^ 31 ->
  robin_hood (create sk sv buffer_size ks vs).
Proof.
  intros Hc. cbn [create m_capacity] in Hc. constructor; cbn [create m_capacity hashes].
  - assumption.
  - rewrite length_replicate. lia.
  - intros p Hp. left. cbn [create m_capacity hashes] in *. apply rd_replicate. lia.
  - intros p Hp Hocc. exfalso. cbn [create m_capacity hashes] in *.
    apply Hocc. apply rd_replicate. lia.
Qed.

Lemma set_capacity fuel t hash k v t' :
  set fuel t hash k v = Some t' -> m_capacity t' = m_capacity t.
Proof.
  unfold set, insert. intros Hrun.
  destruct (_lookup_pos fuel t (_hash hash) k) as [[[] pos]|]; try discriminate.
  - now injection Hrun as <-.
  - now apply insert_loop_capacity in Hrun.
Qed.

Lemma reachable_robin_hood sk sv t :
  reachable sk sv normalisable t -> 0 < m_capacity t <= 2 ^ 31 -> robin_hood t.
Proof.
  induction 1 as [bs ks vs|fuel t hash k v t' _ IH Hok Hrun|fuel t hash k v t' _ IH Hok Hrun];
    intros Hc.
  - now apply create_robin_hood.
  - rewrite (set_capacity _ _ _ _ _ _ Hrun) in Hc.
    apply (set_robin_hood fuel t hash k v); auto.
  - pose proof Hrun as Hcap. unfold insert in Hcap.
    apply insert_loop_capacity in Hcap. rewrite (proj1 Hcap) in Hc.
    apply (insert_robin_hood fuel t (_hash hash) k v); auto.
    destruct Hok. now apply hm_hash_live.
Qed.

(** In a table with the invariant, an entry stored at or after its ideal
    position is at most [s] further from it than an entry [s] probe steps
    earlier. *)
Lemma robin_hood_ordered t i s :
  robin_hood t -> 0 <= i < m_capacity t -> 0 <= s < m_capacity t ->
  let j := (i + s) mod m_capacity t in
  rd (hashes t) j <> EMPTY_HASH ->
  ideal_pos t (rd (hashes t) j) <= j ->
  probe_distance t j <= probe_distance t i + s.
Proof.
  intros Hrh Hi Hs j Hocc Hunwrapped.
  pose proof (rh_capacity t Hrh) as Hc.
  assert (0 <= j < m_capacity t) as Hj by (apply Z.mod_pos_bound; lia).
  pose proof (ideal_pos_range t (rd (hashes t) j) ltac:(lia)) as Hij.
  pose proof (ideal_pos_range t (rd (hashes t) i) ltac:(lia)) as Hii.
  pose proof (rh_paths t Hrh j Hj Hocc) as Hpath.
  assert (probe_distance t j = j - ideal_pos t (rd (hashes t) j)) as Hpdj.
  { rewrite probe_distance_cases by lia.
    destruct (Z.leb_spec (ideal_pos t (rd (hashes t) j)) j); lia. }
  assert (0 <= probe_distance t i) as Hpdi
    by (unfold probe_distance; apply Z.mod_pos_bound; lia).
  destruct (Z.le_gt_cases (probe_distance t j) s) as [Hfar|Hnear]; [lia|].
  (* slot [i] lies on the path from the ideal position of [j] to [j] *)
  assert (j = i + s) as Hji.
  { unfold j in *. revert Hj Hunwrapped Hpdj Hnear Hij.
    rewrite (mod_wrap_add (m_capacity t) (i + s)) by lia.
    destruct (Z.ltb_spec (i + s) (m_capacity t)); lia. }
  destruct (Z.eq_dec s 0) as [->|Hs0].
  { rewrite Hji, Z.add_0_r. lia. }
  destruct (Hpath (probe_distance t j - s) ltac:(lia)) as [_ Hd]. cbn zeta in Hd.
  replace ((ideal_pos t (rd (hashes t) j) + (probe_distance t j - s))
           mod m_capacity t) with i in Hd
    by (rewrite Z.mod_small; lia).
  rewrite gpd_ideal in Hd by lia.
  rewrite (probe_distance_cases t i) by lia.
  destruct (Z.leb_spec (ideal_pos t (rd (hashes t) i)) i); lia.
Qed.

(** *** [_lookup_pos]: termination

    The loop of [cf_hashmap.hpp] has no bound of its own.  It still
    returns: the entry in the last slot of the array is never further than
    [capacity - 1] from its ideal position, so the second visit of that
    slot, at the latest, leaves through the early exit. *)

Lemma lookup_loop_fuel_mono fuel : forall fuel' t hash key pos d r,
  (fuel <= fuel')%nat ->
  _lookup_pos_loop fuel t hash key pos d = Some r ->
  _lookup_pos_loop fuel' t hash key pos d = Some r.
Proof.
  induction fuel as [|fuel IH]; intros fuel' t hash key pos d r Hle Hrun;
    [discriminate|].
  destruct fuel' as [|fuel']; [lia|]. cbn [_lookup_pos_loop] in *.
  destruct (rd (hashes t) pos =? EMPTY_HASH); [assumption|].
  destruct (d >? _get_probe_distance t pos (rd (hashes t) pos)); [assumption|].
  destruct ((rd (hashes t) pos =? hash) && bool_decide (rd (keys t) pos = key));
    [assumption|].
  apply IH; [lia|assumption].
Qed.

Lemma lookup_loop_second_round n : forall t hash key pos d,
  0 < m_capacity t <= 2 ^ 31 -> 0 <= pos ->
  pos + Z.of_nat n = m_capacity t - 1 ->
  pos < d -> d + Z.of_nat n < 2 ^ 32 ->
  exists r, _lookup_pos_loop (S n) t hash key pos d = Some r.
Proof.
  induction n as [|n IH]; intros t hash key pos d Hc Hpos Hn Hd Hw;
    cbn [_lookup_pos_loop].
  - destruct (rd (hashes t) pos =? EMPTY_HASH); [eauto|].
    rewrite gpd_ideal by lia.
    pose proof (ideal_pos_range t (rd (hashes t) pos) ltac:(lia)) as Hi.
    destruct (Z.leb_spec (ideal_pos t (rd (hashes t) pos)) pos); [|lia].
    destruct (Z.gtb_spec d (pos - ideal_pos t (rd (hashes t) pos))); [eauto|lia].
  - destruct (rd (hashes t) pos =? EMPTY_HASH); [eauto|].
    destruct (d >? _get_probe_distance t pos (rd (hashes t) pos)); [eauto|].
    destruct ((rd (hashes t) pos =? hash) && bool_decide (rd (keys t) pos = key));
      [eauto|].
    rewrite next_pos_mod, Z.mod_small, u32_small by lia.
    apply IH; lia.
Qed.

Lemma lookup_loop_first_round n : forall t hash key pos d,
  0 < m_capacity t <= 2 ^ 31 -> 0 <= pos ->
  pos + Z.of_nat n = m_capacity t - 1 ->
  0 <= d -> d + Z.of_nat n + m_capacity t < 2 ^ 32 ->
  exists r, _lookup_pos_loop (S n + Z.to_nat (m_capacity t)) t hash key pos d = Some r.
Proof.
  induction n as [|n IH]; intros t hash key pos d Hc Hpos Hn Hd Hw;
    cbn [_lookup_pos_loop Nat.add].
  - destruct (rd (hashes t) pos =? EMPTY_HASH); [eauto|].
    destruct (d >? _get_probe_distance t pos (rd (hashes t) pos)); [eauto|].
    destruct ((rd (hashes t) pos =? hash) && bool_decide (rd (keys t) pos = key));
      [eauto|].
    rewrite next_pos_mod, u32_small by lia.
    replace (pos + 1) with (m_capacity t) by lia. rewrite Z.mod_same by lia.
    replace (Z.to_nat (m_capacity t)) with (S (Z.to_nat (m_capacity t - 1))) by lia.
    apply lookup_loop_second_round; lia.
  - destruct (rd (hashes t) pos =? EMPTY_HASH); [eauto|].
    destruct (d >? _get_probe_distance t pos (rd (hashes t) pos)); [eauto|].
    destruct ((rd (hashes t) pos =? hash) && bool_decide (rd (keys t) pos = key));
      [eauto|].
    rewrite next_pos_mod, Z.mod_small, u32_small by lia.
    apply IH; lia.
Qed.

(** [2 * capacity] probes are enough for [_lookup_pos] on any table. *)
Lemma lookup_pos_terminates fuel t hash key :
  0 < m_capacity t <= 2 ^ 31 -> (Z.to_nat (2 * m_capacity t) <= fuel)%nat ->
  exists found pos, _lookup_pos fuel t hash key = Some (found, pos).
Proof.
  intros Hc Hfuel. unfold _lookup_pos.
  pose proof (Z.mod_pos_bound hash (m_capacity t) ltac:(lia)) as Hi.
  rewrite u32_small by lia.
  destruct (lookup_loop_first_round
              (Z.to_nat (m_capacity t - 1 - hash mod m_capacity t))
              t hash key (hash mod m_capacity t) 0) as [[found pos] Hr]; try lia.
  exists found, pos. revert Hr. apply lookup_loop_fuel_mono. lia.
Qed.

(** Where [_lookup_pos] reports an entry, the entry is there. *)
Lemma lookup_loop_found fuel : forall t hash key pos d p,
  0 < m_capacity t -> 0 <= pos < m_capacity t ->
  _lookup_pos_loop fuel t hash key pos d = Some (true, p) ->
  0 <= p < m_capacity t /\ rd (hashes t) p = hash /\ rd (keys t) p = key /\
  hash <> EMPTY_HASH.
Proof.
  induction fuel as [|fuel IH]; intros t hash key pos d p Hc Hpos Hrun;
    [discriminate|].
  cbn [_lookup_pos_loop] in Hrun.
  destruct (Z.eqb_spec (rd (hashes t) pos) EMPTY_HASH) as [|Hne]; [discriminate|].
  destruct (d >? _get_probe_distance t pos (rd (hashes t) pos)); [discriminate|].
  destruct (Z.eqb_spec (rd (hashes t) pos) hash) as [Heq|]; cbn [andb] in Hrun.
  - destruct (bool_decide_reflect (rd (keys t) pos = key)) as [Hk|].
    + injection Hrun as <-. rewrite <- Heq. auto.
    + apply IH in Hrun; [assumption|lia|]. now apply next_pos_range.
  - apply IH in Hrun; [assumption|lia|]. now apply next_pos_range.
Qed.

Lemma lookup_pos_found fuel t hash key p :
  0 < m_capacity t ->
  _lookup_pos fuel t hash key = Some (true, p) ->
  0 <= p < m_capacity t /\ rd (hashes t) p = hash /\ rd (keys t) p = key /\
  hash <> EMPTY_HASH.
Proof.
  intros Hc. unfold _lookup_pos. apply lookup_loop_found; [assumption|].
  unfold u32. pose proof (Z.mod_pos_bound hash (m_capacity t) Hc).
  pose proof (Z.mod_pos_bound (hash mod m_capacity t) (2 ^ 32) ltac:(lia)).
  pose proof (Z.mod_le (hash mod m_capacity t) (2 ^ 32) ltac:(lia) ltac:(lia)).
  lia.
Qed.

(** *** [remove] *)

Lemma lor_deleted_bits h b :
  Z.testbit (Z.lor h DELETED_HASH_BIT) b = Z.testbit h b || (b =? 31).
Proof.
  rewrite Z.lor_spec. change DELETED_HASH_BIT with (2 ^ 31).
  rewrite Z.pow2_bits_eqb by lia. now rewrite (Z.eqb_sym 31 b).
Qed.

(** *** [iter_next] *)

Lemma iter_next_loop_exhausted n : forall t i it key value,
  (forall q, i <= q < i + Z.of_nat n -> is_live t q = false) ->
  iter_next_loop n t i it key value = (false, it, key, value).
Proof.
  induction n as [|n IH]; intros t i it key value Hdead; [reflexivity|].
  cbn [iter_next_loop]. pose proof (Hdead i ltac:(lia)) as Hi.
  unfold is_live in Hi.
  destruct (rd (hashes t) i =? EMPTY_HASH).
  - apply IH. intros q Hq. apply Hdead. lia.
  - destruct (deleted (rd (hashes t) i)); [|discriminate].
    apply IH. intros q Hq. apply Hdead. lia.
Qed.

Lemma iter_next_loop_found n : forall t i it key value p,
  i <= p < i + Z.of_nat n -> is_live t p = true ->
  (forall q, i <= q < p -> is_live t q = false) ->
  iter_next_loop n t i it key value =
    (true, {| offset := p + 1 |}, rd (keys t) p, rd (values t) p).
Proof.
  induction n as [|n IH]; intros t i it key value p Hp Hlive Hdead; [lia|].
  cbn [iter_next_loop]. destruct (Z.eq_dec i p) as [->|Hne].
  - unfold is_live in Hlive.
    destruct (rd (hashes t) p =? EMPTY_HASH); [discriminate|].
    destruct (deleted (rd (hashes t) p)); [discriminate|]. reflexivity.
  - pose proof (Hdead i ltac:(lia)) as Hi. unfold is_live in Hi.
    destruct (rd (hashes t) i =? EMPTY_HASH).
    + apply IH; [lia|assumption|]. intros q Hq. apply Hdead. lia.
    + destruct (deleted (rd (hashes t) i)); [|discriminate].
      apply IH; [lia|assumption|]. intros q Hq. apply Hdead. lia.
Qed.

(** The found case of C7: the first live slot at or after the
    cursor is returned and the cursor moves behind it. *)
Lemma iter_next_found t it key value p :
  offset it <= p < m_capacity t -> is_live t p = true ->
  (forall q, offset it <= q < p -> is_live t q = false) ->
  iter_next t it key value =
    (true, {| offset := p + 1 |}, rd (keys t) p, rd (values t) p).
Proof.
  intros Hp Hlive Hdead. unfold iter_next.
  apply iter_next_loop_found; [lia|assumption|assumption].
Qed.

(** What the code does at the end of the table: it reports exhaustion and
    leaves the cursor where it was. *)
Lemma iter_next_exhausted t it key value :
  (forall q, offset it <= q < m_capacity t -> is_live t q = false) ->
  iter_next t it key value = (false, it, key, value).
Proof.
  intros Hdead. unfold iter_next. apply iter_next_loop_exhausted.
  intros q Hq. apply Hdead. lia.
Qed.

(** *** Normalisation and the public operations *)

Lemma hm_hash_clearbit h :
  0 <= h < 2 ^ 32 -> h <> 0 -> Z.testbit h 31 = true ->
  _hash h = Z.clearbit h 31.
Proof.
  intros Hh Hne Hbit. unfold _hash.
  destruct (Z.eqb_spec h EMPTY_HASH) as [E|_]; [contradiction|].
  rewrite hm_deleted_testbit, Hbit.
  change (not32 DELETED_HASH_BIT) with (Z.ones 31).
  apply Z.bits_inj'. intros n Hn.
  rewrite Z.land_spec, Z.clearbit_eqb, Z.testbit_ones_nonneg by lia.
  destruct (Z.ltb_spec n 31) as [Hlt|Hge].
  - destruct (Z.eqb_spec 31 n); [lia|]. reflexivity.
  - destruct (Z.eqb_spec 31 n) as [<-|Hn31]; [now rewrite !andb_false_r|].
    rewrite !andb_false_r, andb_true_r. symmetry.
    apply Z.bits_above_log2; [lia|]. apply Z.log2_lt_pow2; [lia|].
    apply Z.lt_le_trans with (2 ^ 32); [lia|]. apply Z.pow_le_mono_r; lia.
Qed.

(** C8. [_hash] maps 0 to 1, clears the DELETED bit of any other hash that
    has it set, and returns the remaining hashes unchanged; hence [set],
    [lookup], [get] and [remove] called with hash 0 are the same
    computations as when called with hash 1, on every table. *)
Theorem normalize_merges_zero_and_one :
  _hash 0 = 1 /\
  (forall h, 0 <= h < 2 ^ 32 -> h <> 0 -> Z.testbit h 31 = true ->
     _hash h = Z.clearbit h 31) /\
  (forall h, h <> 0 -> Z.testbit h 31 = false -> _hash h = h) /\
  (forall fuel t (key : K) (value : V),
     set fuel t 0 key value = set fuel t 1 key value /\
     lookup fuel t 0 key value = lookup fuel t 1 key value /\
     get fuel t 0 key value = get fuel t 1 key value /\
     remove fuel t 0 key = remove fuel t 1 key).
Proof.
  split; [reflexivity|]. split; [exact hm_hash_clearbit|].
  split; [exact hm_hash_plain|]. intros fuel t key value.
  repeat split; reflexivity.
Qed.

(** *** Idempotence of [_hash], and [get] against [lookup] *)

Lemma hm_hash_idempotent h :
  0 <= h < 2 ^ 32 -> h <> DELETED_HASH_BIT -> _hash (_hash h) = _hash h.
Proof.
  intros Hh Hne. pose proof (hm_hash_live h Hh Hne) as Hl.
  apply hm_hash_plain.
  - unfold live_hash in Hl. lia.
  - rewrite <- hm_deleted_testbit. now apply hm_live_hash_not_deleted.
Qed.

Lemma lookup_loop_sentinel fuel : forall t key pos d p,
  _lookup_pos_loop fuel t EMPTY_HASH key pos d <> Some (true, p).
Proof.
  induction fuel as [|fuel IH]; intros t key pos d p; [discriminate|].
  cbn [_lookup_pos_loop].
  destruct (Z.eqb_spec (rd (hashes t) pos) EMPTY_HASH) as [|Hne]; [discriminate|].
  destruct (d >? _get_probe_distance t pos (rd (hashes t) pos)); [discriminate|].
  destruct (Z.eqb_spec (rd (hashes t) pos) EMPTY_HASH); [contradiction|].
  cbn [andb]. apply IH.
Qed.

(** The part of C10 that holds on every hash: what [get] returns is what
    [lookup] wrote, whenever [lookup] reports an entry. *)
Lemma get_returns_what_lookup_wrote fuel t hash key value0 value1 v :
  0 <= hash < 2 ^ 32 ->
  lookup fuel t hash key value0 = Some (true, v) ->
  get fuel t hash key value1 = Some v.
Proof.
  intros Hh Hrun. unfold get, lookup in *.
  destruct (Z.eq_dec hash DELETED_HASH_BIT) as [->|Hne].
  - exfalso. change (_hash DELETED_HASH_BIT) with EMPTY_HASH in Hrun.
    unfold _lookup_pos in Hrun.
    destruct (_lookup_pos_loop fuel t EMPTY_HASH key
                (u32 (EMPTY_HASH mod m_capacity t)) 0) as [[[] p]|] eqn:E;
      try discriminate.
    now apply lookup_loop_sentinel in E.
  - rewrite hm_hash_idempotent by assumption.
    destruct (_lookup_pos fuel t (_hash hash) key) as [[[] p]|]; try discriminate.
    now injection Hrun as <-.
Qed.

(** *** The ordering along probe sequences *)

Lemma set_all_reachable sk sv allowed fuel : forall ops t t',
  reachable sk sv allowed t ->
  Forall (fun op => allowed op.1.1) ops ->
  set_all fuel t ops = Some t' -> reachable sk sv allowed t'.
Proof.
  induction ops as [|[[hash key] value] ops IH]; intros t t' Hr Hok Hrun.
  - now injection Hrun as <-.
  - cbn [set_all] in Hrun. inversion Hok as [|op ops' Hop Hops]; subst.
    destruct (set fuel t hash key value) as [t1|] eqn:Hset; [|discriminate].
    apply (IH t1); [|assumption|assumption].
    now apply (reachable_set sk sv allowed fuel t hash key value).
Qed.

(** C2, amended.  In every table built from a fresh one by [set] and
    [insert], without [remove] and without the caller hash [0x80000000],
    if slot [j] is reached from slot [i] by [s] steps of forward probing
    through occupied slots, both are live, and the entry of [j] is stored
    at or after its ideal position, then the probe distance of [j] is at
    most the probe distance of [i] plus [s]. *)
Theorem probe_distance_grows_by_at_most_one_per_step sk sv t i s :
  reachable sk sv normalisable t -> 0 < m_capacity t <= 2 ^ 31 ->
  0 <= i < m_capacity t -> 0 <= s < m_capacity t ->
  let j := (i + s) mod m_capacity t in
  is_live t i = true -> is_live t j = true -> occupied_run t i s ->
  ideal_pos t (rd (hashes t) j) <= j ->
  probe_distance t j <= probe_distance t i + s.
Proof.
  intros Hr Hc Hi Hs j _ _ Hrun Hunwrapped.
  apply robin_hood_ordered; try assumption.
  - now apply (reachable_robin_hood sk sv).
  - apply Hrun. lia.
Qed.

(** *** Counting occupied slots *)

Lemma occupied_insert (hs : list Z) : forall (n : nat) x,
  (n < length hs)%nat ->
  occupied (<[n := x]> hs) =
    occupied hs - (if hs !!! n =? EMPTY_HASH then 0 else 1)
                + (if x =? EMPTY_HASH then 0 else 1).
Proof.
  induction hs as [|h hs IH]; intros n x Hn; cbn [length] in Hn; [lia|].
  destruct n as [|n]; cbn [occupied].
  - change ((h :: hs) !!! 0%nat) with h. change (<[0%nat := x]> (h :: hs)) with (x :: hs).
    cbn [occupied]. lia.
  - change ((h :: hs) !!! S n) with (hs !!! n).
    change (<[S n := x]> (h :: hs)) with (h :: <[n := x]> hs).
    cbn [occupied]. rewrite IH by lia. lia.
Qed.

Lemma occupied_wr (hs : list Z) p x :
  0 <= p < Z.of_nat (length hs) ->
  occupied (wr hs p x) =
    occupied hs - (if rd hs p =? EMPTY_HASH then 0 else 1)
                + (if x =? EMPTY_HASH then 0 else 1).
Proof. intros Hp. unfold wr, rd. apply occupied_insert. lia. Qed.

Lemma occupied_bounds (hs : list Z) : 0 <= occupied hs <= Z.of_nat (length hs).
Proof.
  induction hs as [|h hs IH]; cbn [occupied length]; [lia|].
  destruct (h =? EMPTY_HASH); lia.
Qed.

Lemma occupied_has_empty (hs : list Z) :
  occupied hs < Z.of_nat (length hs) ->
  exists p, 0 <= p < Z.of_nat (length hs) /\ rd hs p = EMPTY_HASH.
Proof.
  induction hs as [|h hs IH]; cbn [occupied length]; intros Hlt; [lia|].
  destruct (Z.eqb_spec h EMPTY_HASH) as [->|Hne].
  - exists 0. split; [lia|reflexivity].
  - destruct IH as (p & Hp & He); [lia|].
    exists (p + 1). split; [lia|]. unfold rd in *.
    replace (Z.to_nat (p + 1)) with (S (Z.to_nat p)) by lia. exact He.
Qed.

Lemma occupied_replicate n : occupied (replicate n EMPTY_HASH) = 0.
Proof. induction n as [|n IH]; cbn [replicate occupied]; [reflexivity|]. now rewrite IH. Qed.

(** *** The raw [insert] returns when a slot is empty *)

Lemma insert_loop_terminates n : forall fuel t hash k v pos d,
  0 < m_capacity t < 2 ^ 32 ->
  Z.of_nat (length (hashes t)) = m_capacity t ->
  0 <= pos < m_capacity t ->
  rd (hashes t) ((pos + Z.of_nat n) mod m_capacity t) = EMPTY_HASH ->
  (n < fuel)%nat ->
  exists t', insert_loop fuel t hash k v pos d = Some t'.
Proof.
  induction n as [|n IH]; intros fuel t hash k v pos d Hc Hlen Hpos Hempty Hfuel;
    (destruct fuel as [|fuel]; [lia|]); cbn [insert_loop].
  - rewrite Z.add_0_r, Z.mod_small in Hempty by lia. rewrite Hempty. cbn. eauto.
  - destruct (Z.eqb_spec (rd (hashes t) pos) EMPTY_HASH) as [|Hne]; [eauto|].
    assert ((next_pos t pos + Z.of_nat n) mod m_capacity t
            = (pos + Z.of_nat (S n)) mod m_capacity t) as Hnext.
    { rewrite next_pos_mod by lia. rewrite Z.add_mod_idemp_l by lia.
      f_equal. lia. }
    destruct (_get_probe_distance t pos (rd (hashes t) pos) <? d).
    + destruct (deleted (rd (hashes t) pos)); [eauto|].
      apply IH; cbn [store m_capacity hashes]; try assumption; try lia.
      * now rewrite length_wr.
      * now apply next_pos_range.
      * rewrite Hnext. rewrite rd_wr_ne; [assumption|lia| |].
        -- pose proof (Z.mod_pos_bound (pos + Z.of_nat (S n)) (m_capacity t)). lia.
        -- intros Heq. rewrite <- Heq in Hempty. contradiction.
    + apply IH; try assumption; try lia.
      * now apply next_pos_range.
      * now rewrite Hnext.
Qed.

Lemma insert_terminates fuel t hash k v :
  0 < m_capacity t < 2 ^ 32 ->
  Z.of_nat (length (hashes t)) = m_capacity t ->
  occupied (hashes t) < m_capacity t ->
  (Z.to_nat (m_capacity t) <= fuel)%nat ->
  exists t', insert fuel t hash k v = Some t'.
Proof.
  intros Hc Hlen Hocc Hfuel. unfold insert.
  destruct (occupied_has_empty (hashes t)) as (e & He & Hempty); [lia|].
  pose proof (Z.mod_pos_bound hash (m_capacity t) ltac:(lia)) as Hi.
  rewrite u32_small by lia.
  apply (insert_loop_terminates (Z.to_nat ((e - hash mod m_capacity t) mod m_capacity t)));
    try assumption.
  - pose proof (Z.mod_pos_bound (e - hash mod m_capacity t) (m_capacity t) ltac:(lia)).
    rewrite Z2Nat.id by lia. rewrite ideal_plus_distance by lia. assumption.
  - pose proof (Z.mod_pos_bound (e - hash mod m_capacity t) (m_capacity t) ltac:(lia)).
    lia.
Qed.

(** *** The entries of the table across the raw [insert] *)

Section Written.
(** [t1] is [t] after the three stores at [pos]. *)
Variables (t t1 : @hashmap K V) (pos hash : Z) (k : K) (v : V).
Hypothesis Hwf : well_formed t.
Hypothesis Hpos : 0 <= pos < m_capacity t.
Hypothesis Hhash : hash <> EMPTY_HASH.
Hypothesis Hcap : m_capacity t1 = m_capacity t.
Hypothesis Hhs : hashes t1 = wr (hashes t) pos hash.
Hypothesis Hks : keys t1 = wr (keys t) pos k.
Hypothesis Hvs : values t1 = wr (values t) pos v.

Lemma written_holds_here h' k' v' :
  holds t1 pos h' k' v' <-> h' = hash /\ k' = k /\ v' = v.
Proof.
  destruct Hwf as [Hlh Hlk Hlv _]. unfold holds.
  rewrite Hcap, Hhs, Hks, Hvs, !rd_wr_eq by lia.
  split.
  - intros (_ & _ & <- & <- & <-). auto.
  - intros (-> & -> & ->). auto.
Qed.

Lemma written_holds_elsewhere p h' k' v' :
  p <> pos -> holds t1 p h' k' v' <-> holds t p h' k' v'.
Proof.
  intros Hne. unfold holds. rewrite Hcap, Hhs, Hks, Hvs.
  split; intros (Hp & Hnz & Hh & Hk & Hv); repeat split; try assumption;
    try lia; rewrite ?rd_wr_ne in * by lia; assumption.
Qed.

Lemma written_well_formed :
  m_num_elements t1 = occupied (hashes t1) -> well_formed t1.
Proof.
  intros Hnum. destruct Hwf as [Hlh Hlk Hlv _].
  constructor; rewrite ?Hhs, ?Hks, ?Hvs, ?length_wr, ?Hcap; try assumption.
  now rewrite <- Hhs.
Qed.

Lemma written_no_tombstones :
  live_hash hash -> no_tombstones t -> no_tombstones t1.
Proof.
  intros Hl Hnt p Hp. rewrite Hcap in Hp. rewrite Hhs.
  destruct Hwf as [Hlh _ _ _]. destruct (Z.eq_dec p pos) as [->|Hne].
  - rewrite rd_wr_eq by lia. now right.
  - rewrite rd_wr_ne by lia. now apply Hnt.
Qed.

Lemma written_unique_keys :
  unique_keys t -> absent t hash k -> unique_keys t1.
Proof.
  intros Huniq Habs p q Hp Hq Hocc Hh Hk. rewrite Hcap in Hp, Hq.
  destruct Hwf as [Hlh Hlk Hlv _]. rewrite Hhs, Hks in *.
  destruct (Z.eq_dec p pos) as [->|Hp']; destruct (Z.eq_dec q pos) as [->|Hq'];
    try reflexivity.
  - exfalso. rewrite rd_wr_eq, rd_wr_ne in Hh by lia.
    rewrite rd_wr_eq, rd_wr_ne in Hk by lia.
    apply (Habs q (rd (values t) q)). unfold holds. auto.
  - exfalso. rewrite rd_wr_eq, rd_wr_ne in Hh by lia.
    rewrite rd_wr_eq, rd_wr_ne in Hk by lia. rewrite rd_wr_ne in Hocc by lia.
    apply (Habs p (rd (values t) p)). unfold holds. auto.
  - rewrite !rd_wr_ne in * by lia. now apply Huniq.
Qed.

(** The evicted resident is not in the table after the swap. *)
Lemma written_evicted_absent :
  unique_keys t -> absent t hash k ->
  rd (hashes t) pos <> EMPTY_HASH ->
  absent t1 (rd (hashes t) pos) (rd (keys t) pos).
Proof.
  intros Huniq Habs Hocc p v' Hholds.
  destruct (Z.eq_dec p pos) as [->|Hne].
  - apply written_holds_here in Hholds. destruct Hholds as (Hh & Hk & _).
    apply (Habs pos (rd (values t) pos)). unfold holds. auto.
  - apply written_holds_elsewhere in Hholds; [|assumption].
    destruct Hholds as (Hp & _ & Hh & Hk & _).
    apply Hne. apply Huniq; try assumption; congruence.
Qed.

End Written.

Lemma insert_loop_contents fuel : forall t hash k v pos d t',
  well_formed t -> 0 < m_capacity t < 2 ^ 32 -> no_tombstones t ->
  live_hash hash -> 0 <= pos < m_capacity t ->
  insert_loop fuel t hash k v pos d = Some t' ->
  well_formed t' /\ no_tombstones t' /\
  occupied (hashes t') = occupied (hashes t) + 1 /\
  (forall h' k' v', contains t' h' k' v' <->
     contains t h' k' v' \/ (h' = hash /\ k' = k /\ v' = v)) /\
  (unique_keys t -> absent t hash k -> unique_keys t').
Proof.
  induction fuel as [|fuel IH]; intros t hash k v pos d t' Hwf Hc Hnt Hh Hpos Hrun;
    [discriminate|].
  cbn [insert_loop] in Hrun.
  assert (hash <> EMPTY_HASH) as Hnz by (unfold live_hash, EMPTY_HASH in *; lia).
  pose proof (wf_hashes t Hwf) as Hlen.
  pose proof (occupied_bounds (hashes t)) as Hbound.
  destruct (Z.eqb_spec (rd (hashes t) pos) EMPTY_HASH) as [He|Hne].
  - injection Hrun as <-. set (t1 := place t pos hash k v).
    assert (occupied (hashes t1) = occupied (hashes t) + 1) as Hocc.
    { cbn [t1 place hashes]. rewrite occupied_wr, He, Z.eqb_refl by lia.
      destruct (Z.eqb_spec hash EMPTY_HASH); [contradiction|lia]. }
    split; [|split; [|split; [assumption|split]]].
    + apply (written_well_formed t t1 pos hash k v); try assumption; try reflexivity.
      rewrite Hocc. cbn [t1 place m_num_elements].
      rewrite (wf_count t Hwf). apply u64_small. lia.
    + apply (written_no_tombstones t t1 pos hash); try assumption; reflexivity.
    + intros h' k' v'. split.
      * intros [p Hholds]. destruct (Z.eq_dec p pos) as [->|Hp].
        -- right. eapply (written_holds_here t t1 pos hash k v); try eassumption;
             reflexivity.
        -- left. exists p.
           eapply (written_holds_elsewhere t t1 pos hash k v); try eassumption;
             reflexivity.
      * intros [[p Hholds]|Heq].
        -- exists p.
           apply (written_holds_elsewhere t t1 pos hash k v); try assumption;
             try reflexivity.
           intros ->. destruct Hholds as (_ & Hnz' & Hh' & _). congruence.
        -- exists pos.
           apply (written_holds_here t t1 pos hash k v); try assumption; reflexivity.
    + intros Hu Ha.
      apply (written_unique_keys t t1 pos hash k); try assumption; reflexivity.
  - destruct (Hnt pos Hpos) as [He|Hres]; [contradiction|].
    destruct (_get_probe_distance t pos (rd (hashes t) pos) <? d).
    + rewrite hm_live_hash_not_deleted in Hrun by assumption.
      set (t1 := store t pos hash k v) in *.
      assert (occupied (hashes t1) = occupied (hashes t)) as Hocc.
      { cbn [t1 store hashes]. rewrite occupied_wr by lia.
        destruct (Z.eqb_spec (rd (hashes t) pos) EMPTY_HASH); [contradiction|].
        destruct (Z.eqb_spec hash EMPTY_HASH); [contradiction|lia]. }
      assert (well_formed t1) as Hwf1.
      { apply (written_well_formed t t1 pos hash k v); try assumption;
          try reflexivity.
        rewrite Hocc. apply (wf_count t Hwf). }
      assert (no_tombstones t1) as Hnt1
        by (apply (written_no_tombstones t t1 pos hash); try assumption; reflexivity).
      apply (IH t1) in Hrun; try assumption.
      2: { apply (next_pos_range t). lia. }
      destruct Hrun as (Hwf' & Hnt' & Hocc' & Hcont' & Huniq').
      split; [assumption|]. split; [assumption|]. split; [lia|]. split.
      * intros h' k' v'. rewrite Hcont'. split.
        -- intros [[p Hholds]|(-> & -> & ->)].
           ++ destruct (Z.eq_dec p pos) as [->|Hp].
              ** right.
                 eapply (written_holds_here t t1 pos hash k v); try eassumption;
                   reflexivity.
              ** left. exists p.
                 eapply (written_holds_elsewhere t t1 pos hash k v); try eassumption;
                   reflexivity.
           ++ left. exists pos. unfold holds. auto.
        -- intros [[p Hholds]|Heq].
           ++ destruct (Z.eq_dec p pos) as [->|Hp].
              ** right. destruct Hholds as (_ & _ & <- & <- & <-). auto.
              ** left. exists p.
                 apply (written_holds_elsewhere t t1 pos hash k v); try assumption;
                   reflexivity.
           ++ left. exists pos.
              apply (written_holds_here t t1 pos hash k v); try assumption;
                reflexivity.
      * intros Hu Ha. apply Huniq'.
        -- apply (written_unique_keys t t1 pos hash k); try assumption; reflexivity.
        -- apply (written_evicted_absent t t1 pos hash k v); try assumption;
             reflexivity.
    + apply (IH t) in Hrun; try assumption. apply (next_pos_range t). lia.
Qed.

(** *** [_lookup_pos] finds every entry of a table with the invariant *)

Lemma lookup_loop_complete n : forall t hash key p d,
  robin_hood t -> unique_keys t -> live_hash hash ->
  0 <= p < m_capacity t -> rd (hashes t) p = hash -> rd (keys t) p = key ->
  0 <= d -> d + Z.of_nat n = probe_distance t p ->
  _lookup_pos_loop (S n) t hash key
    ((hash mod m_capacity t + d) mod m_capacity t) d = Some (true, p).
Proof.
  induction n as [|n IH]; intros t hash key p d Hrh Hu Hh Hp Hhash Hkey Hd Hn;
    pose proof (rh_capacity t Hrh) as Hc;
    pose proof (Z.mod_pos_bound hash (m_capacity t) ltac:(lia)) as Hi;
    assert (probe_distance t p = (p - hash mod m_capacity t) mod m_capacity t) as HD
      by (unfold probe_distance; now rewrite Hhash, ideal_pos_live);
    pose proof (Z.mod_pos_bound (p - hash mod m_capacity t) (m_capacity t) ltac:(lia))
      as HDb;
    assert (rd (hashes t) p <> EMPTY_HASH) as Hocc
      by (rewrite Hhash; unfold live_hash, EMPTY_HASH in *; lia);
    cbn [_lookup_pos_loop].
  - assert (d = probe_distance t p) as Hd' by lia.
    pose proof (gpd_traveller t hash d Hc Hh ltac:(lia)) as Hg.
    assert ((hash mod m_capacity t + d) mod m_capacity t = p) as Hreach
      by (rewrite Hd', HD; apply ideal_plus_distance; lia).
    rewrite Hreach in *. rewrite Hhash in *.
    destruct (Z.eqb_spec hash EMPTY_HASH); [contradiction|].
    destruct (Z.gtb_spec d (_get_probe_distance t p hash)); [lia|].
    rewrite Z.eqb_refl, Hkey, bool_decide_eq_true_2 by reflexivity. reflexivity.
  - pose proof (rh_paths t Hrh p Hp Hocc) as Hpath.
    rewrite Hhash, ideal_pos_live in Hpath by assumption.
    destruct (Hpath d ltac:(lia)) as [Hqocc Hqd]. cbn zeta in Hqocc, Hqd.
    set (q := (hash mod m_capacity t + d) mod m_capacity t) in *.
    assert (0 <= q < m_capacity t) as Hq by (apply Z.mod_pos_bound; lia).
    assert (q <> p) as Hqp.
    { intros Heq.
      assert ((q - hash mod m_capacity t) mod m_capacity t = d) as Hs
        by (apply steps_from_ideal; lia).
      rewrite Heq in Hs. lia. }
    destruct (Z.eqb_spec (rd (hashes t) q) EMPTY_HASH); [contradiction|].
    destruct (Z.gtb_spec d (_get_probe_distance t q (rd (hashes t) q))); [lia|].
    assert ((rd (hashes t) q =? hash) && bool_decide (rd (keys t) q = key) = false)
      as ->.
    { apply andb_false_iff.
      destruct (Z.eqb_spec (rd (hashes t) q) hash) as [Hhq|]; [|now left].
      right. apply bool_decide_eq_false_2. intros Hkq. apply Hqp.
      symmetry. apply Hu; try assumption; congruence. }
    rewrite next_pos_mod, u32_small by lia. unfold q.
    rewrite Z.add_mod_idemp_l by lia.
    replace (hash mod m_capacity t + d + 1) with (hash mod m_capacity t + (d + 1))
      by lia.
    apply IH; try assumption; lia.
Qed.

Lemma lookup_pos_complete fuel t hash key p :
  robin_hood t -> unique_keys t -> live_hash hash ->
  0 <= p < m_capacity t -> rd (hashes t) p = hash -> rd (keys t) p = key ->
  (Z.to_nat (m_capacity t) <= fuel)%nat ->
  _lookup_pos fuel t hash key = Some (true, p).
Proof.
  intros Hrh Hu Hh Hp Hhash Hkey Hfuel. unfold _lookup_pos.
  pose proof (rh_capacity t Hrh) as Hc.
  pose proof (Z.mod_pos_bound hash (m_capacity t) ltac:(lia)) as Hi.
  assert (0 <= probe_distance t p < m_capacity t) as HD
    by (unfold probe_distance; apply Z.mod_pos_bound; lia).
  rewrite u32_small by lia.
  apply (lookup_loop_fuel_mono (S (Z.to_nat (probe_distance t p)))); [lia|].
  replace (hash mod m_capacity t)
    with ((hash mod m_capacity t + 0) mod m_capacity t) at 1
    by (rewrite Z.add_0_r, Z.mod_mod; lia).
  apply lookup_loop_complete; try assumption; lia.
Qed.

(** [lookup] returns the value of every entry the table holds. *)
Lemma lookup_of_contained fuel t hash key v value :
  robin_hood t -> unique_keys t -> live_hash (_hash hash) ->
  contains t (_hash hash) key v ->
  (Z.to_nat (m_capacity t) <= fuel)%nat ->
  lookup fuel t hash key value = Some (true, v).
Proof.
  intros Hrh Hu Hh (p & Hp & _ & Hhash & Hkey & Hv) Hfuel. unfold lookup.
  rewrite (lookup_pos_complete fuel t (_hash hash) key p) by assumption.
  now rewrite Hv.
Qed.

Lemma lookup_pos_of_absent fuel t hash key :
  0 < m_capacity t <= 2 ^ 31 -> absent t hash key ->
  (Z.to_nat (2 * m_capacity t) <= fuel)%nat ->
  exists p, _lookup_pos fuel t hash key = Some (false, p).
Proof.
  intros Hc Ha Hfuel.
  destruct (lookup_pos_terminates fuel t hash key Hc Hfuel) as ([] & p & Hrun);
    [|eauto].
  exfalso. destruct (lookup_pos_found fuel t hash key p ltac:(lia) Hrun)
    as (Hp & Hh & Hk & Hnz).
  apply (Ha p (rd (values t) p)). unfold holds. auto.
Qed.

(** *** [insert] and [set] of an entry that the table does not hold *)

Lemma insert_new_key fuel t hash k v :
  consistent t -> live_hash hash -> absent t hash k ->
  occupied (hashes t) < m_capacity t ->
  (Z.to_nat (m_capacity t) <= fuel)%nat ->
  exists t', insert fuel t hash k v = Some t' /\ consistent t' /\
    m_capacity t' = m_capacity t /\
    occupied (hashes t') = occupied (hashes t) + 1 /\
    (forall h' k' v', contains t' h' k' v' <->
       contains t h' k' v' \/ (h' = hash /\ k' = k /\ v' = v)).
Proof.
  intros [Hrh Hwf Hu] Hh Ha Hocc Hfuel.
  pose proof (rh_capacity t Hrh) as Hc.
  destruct (insert_terminates fuel t hash k v) as [t' Hrun]; try assumption;
    try lia.
  { apply (rh_length t Hrh). }
  exists t'. split; [assumption|].
  pose proof (insert_robin_hood fuel t hash k v t' Hrh Hh Hrun) as Hrh'.
  unfold insert in Hrun.
  pose proof (insert_loop_capacity _ _ _ _ _ _ _ _ Hrun) as [Hcap _].
  apply insert_loop_contents in Hrun; try assumption; try lia.
  - destruct Hrun as (Hwf' & _ & Hocc' & Hcont' & Hu').
    split; [constructor; [assumption|assumption|now apply Hu']|].
    split; [assumption|]. split; [assumption|]. exact Hcont'.
  - apply (rh_hashes t Hrh).
  - pose proof (Z.mod_pos_bound hash (m_capacity t) ltac:(lia)).
    rewrite u32_small; lia.
Qed.

Lemma set_new_key fuel t hash k v :
  consistent t -> normalisable hash -> absent t (_hash hash) k ->
  occupied (hashes t) < m_capacity t ->
  (Z.to_nat (2 * m_capacity t) <= fuel)%nat ->
  exists t', set fuel t hash k v = Some t' /\ consistent t' /\
    m_capacity t' = m_capacity t /\
    occupied (hashes t') = occupied (hashes t) + 1 /\
    (forall h' k' v', contains t' h' k' v' <->
       contains t h' k' v' \/ (h' = _hash hash /\ k' = k /\ v' = v)).
Proof.
  intros Hcs [Hh Hne] Ha Hocc Hfuel.
  pose proof (rh_capacity t (cs_robin_hood t Hcs)) as Hc.
  unfold set.
  destruct (lookup_pos_of_absent fuel t (_hash hash) k Hc Ha Hfuel) as [p ->].
  apply insert_new_key; try assumption; [|lia]. now apply hm_hash_live.
Qed.

(** *** A sequence of [set] calls on pairwise distinct stored keys *)

Lemma set_all_distinct fuel : forall ops t,
  consistent t ->
  Forall (fun op => normalisable op.1.1) ops ->
  NoDup (stored_key <$> ops) ->
  (forall op, op ∈ ops -> absent t (_hash op.1.1) op.1.2) ->
  occupied (hashes t) + Z.of_nat (length ops) <= m_capacity t ->
  (Z.to_nat (2 * m_capacity t) <= fuel)%nat ->
  exists t', set_all fuel t ops = Some t' /\ consistent t' /\
    m_capacity t' = m_capacity t /\
    occupied (hashes t') = occupied (hashes t) + Z.of_nat (length ops) /\
    (forall h k v, contains t' h k v <->
       contains t h k v \/ exists h0, (h0, k, v) ∈ ops /\ h = _hash h0).
Proof.
  induction ops as [|[[h0 k0] v0] ops IH]; intros t Hcs Hok Hnd Hnew Hroom Hfuel.
  - exists t. cbn [set_all length].
    split; [reflexivity|]. split; [assumption|]. split; [reflexivity|].
    split; [lia|]. intros h k v. split.
    + now left.
    + intros [Hc|(h0 & Hin & _)]; [assumption|]. now apply elem_of_nil in Hin.
  - cbn [set_all length] in *. rewrite fmap_cons in Hnd.
    apply NoDup_cons in Hnd as [Hfresh Hnd].
    inversion Hok as [|op ops' Hop Hops]; subst. cbn [fst] in Hop.
    destruct (set_new_key fuel t h0 k0 v0) as (t1 & -> & Hcs1 & Hcap1 & Hocc1 & Hcont1);
      try assumption; try lia.
    { apply (Hnew (h0, k0, v0)). now left. }
    destruct (IH t1) as (t' & Hrun & Hcs' & Hcap' & Hocc' & Hcont');
      try assumption; try lia.
    { intros [[h1 k1] v1] Hin p v Hholds. cbn [fst snd] in *.
      assert (contains t1 (_hash h1) k1 v) as Hc1 by (now exists p).
      apply Hcont1 in Hc1 as [[q Hq]|(Hh & Hk & _)].
      - apply (Hnew (h1, k1, v1) ltac:(now right) q v). exact Hq.
      - apply Hfresh. apply list_elem_of_fmap. exists (h1, k1, v1).
        split; [|assumption]. unfold stored_key. cbn. congruence. }
    exists t'. split; [assumption|]. split; [assumption|].
    split; [congruence|]. split; [lia|].
    intros h k v. rewrite Hcont', Hcont1. split.
    + intros [[Hc|(-> & -> & ->)]|(h1 & Hin & ->)].
      * now left.
      * right. exists h0. split; [now left|reflexivity].
      * right. exists h1. split; [now right|reflexivity].
    + intros [Hc|(h1 & Hin & ->)]; [now left; left|].
      apply elem_of_cons in Hin as [Heq|Hin].
      * injection Heq as -> -> ->. left. now right.
      * right. now exists h1.
Qed.

(** *** A fresh table *)

Lemma create_consistent sk sv buffer_size ks vs :
  0 < m_capacity (create (K:=K) (V:=V) sk sv buffer_size ks vs) <= 2 ^ 31 ->
  consistent (create sk sv buffer_size ks vs) /\
  occupied (hashes (create (K:=K) (V:=V) sk sv buffer_size ks vs)) = 0 /\
  forall h k, absent (create sk sv buffer_size ks vs) h k.
Proof.
  intros Hc. pose proof (create_robin_hood sk sv buffer_size ks vs Hc) as Hrh.
  cbn [create m_capacity] in Hc.
  assert (forall p, 0 <= p < buffer_size / (sk + sv + 4) ->
            rd (hashes (create (K:=K) (V:=V) sk sv buffer_size ks vs)) p = EMPTY_HASH)
    as Hempty by (intros p Hp; cbn [create hashes]; apply rd_replicate; lia).
  split; [constructor; [assumption| |]|split].
  - constructor; cbn [create hashes keys values m_capacity m_num_elements].
    + rewrite length_replicate. lia.
    + rewrite length_resize. lia.
    + rewrite length_resize. lia.
    + now rewrite occupied_replicate.
  - intros p q Hp Hq Hocc. exfalso. apply Hocc. now apply Hempty.
  - cbn [create hashes]. apply occupied_replicate.
  - intros h k p v (Hp & Hnz & Hh & _). rewrite Hempty in Hh by assumption.
    congruence.
Qed.

(** C1, amended.  On a fresh table of capacity at most [2 ^ 31], a
    sequence of [set(h, k, v)] calls whose stored pairs [(_hash h, k)] are
    pairwise distinct, none with the caller hash [0x80000000], at most
    [capacity] of them: every call returns, and afterwards [lookup(h, k)]
    reports found and returns the [v] written for that [(h, k)]. *)
Theorem set_then_lookup_round_trip sk sv buffer_size ks vs ops fuel :
  0 < m_capacity (create (K:=K) (V:=V) sk sv buffer_size ks vs) <= 2 ^ 31 ->
  Forall (fun op => normalisable op.1.1) ops ->
  NoDup (stored_key <$> ops) ->
  Z.of_nat (length ops) <= m_capacity (create (K:=K) (V:=V) sk sv buffer_size ks vs) ->
  (Z.to_nat (2 * m_capacity (create (K:=K) (V:=V) sk sv buffer_size ks vs)) <= fuel)%nat ->
  exists t, set_all fuel (create sk sv buffer_size ks vs) ops = Some t /\
    forall h k v value, (h, k, v) ∈ ops ->
      lookup fuel t h k value = Some (true, v).
Proof.
  intros Hc Hok Hnd Hlen Hfuel.
  destruct (create_consistent sk sv buffer_size ks vs Hc) as (Hcs & Hocc & Habs).
  destruct (set_all_distinct fuel ops (create sk sv buffer_size ks vs))
    as (t & Hrun & Hcs' & Hcap' & _ & Hcont'); try assumption; try lia.
  { intros op _. apply Habs. }
  exists t. split; [assumption|]. intros h k v value Hin.
  apply lookup_of_contained; try apply Hcs'.
  - rewrite Forall_forall in Hok. destruct (Hok (h, k, v) Hin) as [Hh Hne].
    now apply hm_hash_live.
  - apply Hcont'. right. now exists h.
  - rewrite Hcap'. lia.
Qed.

(** *** [set] keeps a table consistent *)

Lemma lookup_pos_false_absent fuel t hash key p :
  consistent t -> live_hash hash ->
  _lookup_pos fuel t hash key = Some (false, p) -> absent t hash key.
Proof.
  intros [Hrh Hwf Hu] Hh Hrun p' v' (Hp & _ & Hhash & Hkey & _).
  pose proof (lookup_pos_complete (fuel + Z.to_nat (m_capacity t)) t hash key p'
                Hrh Hu Hh Hp Hhash Hkey ltac:(lia)) as Hfound.
  unfold _lookup_pos in *.
  apply (lookup_loop_fuel_mono fuel (fuel + Z.to_nat (m_capacity t))) in Hrun; [|lia].
  congruence.
Qed.

Lemma set_consistent fuel t hash k v t' :
  consistent t -> normalisable hash ->
  set fuel t hash k v = Some t' -> consistent t'.
Proof.
  intros Hcs [Hh Hne] Hrun. unfold set in Hrun.
  pose proof (hm_hash_live hash Hh Hne) as Hl.
  destruct (_lookup_pos fuel t (_hash hash) k) as [[[] pos]|] eqn:Hlook;
    try discriminate.
  - injection Hrun as <-. destruct Hcs as [Hrh [Hlh Hlk Hlv Hn] Hu].
    constructor.
    + destruct Hrh. now constructor.
    + constructor; cbn [set_value hashes keys values m_num_elements m_capacity];
        rewrite ?length_wr; assumption.
    + exact Hu.
  - pose proof (lookup_pos_false_absent fuel t (_hash hash) k pos Hcs Hl Hlook) as Ha.
    pose proof (insert_robin_hood fuel t (_hash hash) k v t'
                  (cs_robin_hood t Hcs) Hl Hrun) as Hrh'.
    pose proof (rh_capacity t (cs_robin_hood t Hcs)) as Hc.
    unfold insert in Hrun. apply insert_loop_contents in Hrun; try assumption;
      try lia.
    + destruct Hrun as (Hwf' & _ & _ & _ & Hu').
      constructor; [assumption|assumption|]. apply Hu'; [apply Hcs|assumption].
    + apply Hcs.
    + apply (rh_hashes t (cs_robin_hood t Hcs)).
    + pose proof (Z.mod_pos_bound (_hash hash) (m_capacity t) ltac:(lia)).
      rewrite u32_small; lia.
Qed.

Lemma set_all_consistent fuel : forall ops t t',
  consistent t -> Forall (fun op => normalisable op.1.1) ops ->
  set_all fuel t ops = Some t' -> consistent t'.
Proof.
  induction ops as [|[[h k] v] ops IH]; intros t t' Hcs Hok Hrun.
  - now injection Hrun as <-.
  - cbn [set_all] in Hrun. inversion Hok as [|op ops' Hop Hops]; subst.
    destruct (set fuel t h k v) as [t1|] eqn:Hset; [|discriminate].
    apply (IH t1); [|assumption|assumption].
    now apply (set_consistent fuel t h k v).
Qed.

(** In a consistent table [_lookup_pos] finds every entry that a slot
    holds, so that [remove] marks exactly the slot that holds the key. *)
Lemma remove_of_held_entry fuel t hash key p v :
  consistent t -> live_hash (_hash hash) -> holds t p (_hash hash) key v ->
  (Z.to_nat (m_capacity t) <= fuel)%nat ->
  remove fuel t hash key = Some (mark_deleted t p).
Proof.
  intros [Hrh _ Hu] Hl (Hp & _ & Hh & Hk & _) Hfuel. unfold remove.
  now rewrite (lookup_pos_complete fuel t (_hash hash) key p).
Qed.

(** *** [copy] of a consistent table *)

Lemma occupied_drop (hs : list Z) i :
  0 <= i < Z.of_nat (length hs) ->
  occupied (drop (Z.to_nat i) hs) =
    (if rd hs i =? EMPTY_HASH then 0 else 1) + occupied (drop (Z.to_nat (i + 1)) hs).
Proof.
  intros Hi. replace (Z.to_nat (i + 1)) with (S (Z.to_nat i)) by lia.
  rewrite (drop_S hs (rd hs i) (Z.to_nat i)); [reflexivity|].
  unfold rd. apply list_lookup_lookup_total_lt. lia.
Qed.

Lemma copy_loop_consistent fuel (src : @hashmap K V) n : forall i new,
  consistent src -> 0 <= i -> i + Z.of_nat n = m_capacity src ->
  consistent new ->
  (forall p, i <= p < m_capacity src -> rd (hashes src) p <> EMPTY_HASH ->
     absent new (rd (hashes src) p) (rd (keys src) p)) ->
  occupied (hashes new) + occupied (drop (Z.to_nat i) (hashes src))
    <= m_capacity new ->
  (Z.to_nat (m_capacity new) <= fuel)%nat ->
  exists new', copy_loop fuel src (seqZ i (Z.of_nat n)) new = Some new' /\
    consistent new' /\ m_capacity new' = m_capacity new /\
    occupied (hashes new')
      = occupied (hashes new) + occupied (drop (Z.to_nat i) (hashes src)) /\
    (forall h k v, contains new' h k v <->
       contains new h k v \/ exists p, i <= p /\ holds src p h k v).
Proof.
  induction n as [|n IH]; intros i new Hsrc Hi Hn Hnew Habs Hroom Hfuel.
  - exists new. cbn [seqZ copy_loop].
    rewrite drop_ge by (pose proof (wf_hashes src (cs_well_formed src Hsrc)); lia).
    cbn [occupied]. split; [reflexivity|]. split; [assumption|].
    split; [reflexivity|]. split; [lia|]. intros h k v. split; [now left|].
    intros [Hc|(p & Hp & Hholds)]; [assumption|].
    destruct Hholds as (Hp' & _). lia.
  - pose proof (wf_hashes src (cs_well_formed src Hsrc)) as Hlen.
    rewrite seqZ_cons by lia.
    replace (Z.pred (Z.of_nat (S n))) with (Z.of_nat n) by lia.
    replace (Z.succ i) with (i + 1) by lia. cbn [copy_loop].
    rewrite occupied_drop in Hroom |- * by lia.
    destruct (Z.eqb_spec (rd (hashes src) i) EMPTY_HASH) as [He|Hne].
    + destruct (IH (i + 1) new) as (new' & Hrun & Hcs' & Hcap' & Hocc' & Hcont');
        try assumption; try lia.
      { intros p Hp. apply Habs. lia. }
      exists new'. split; [assumption|]. split; [assumption|].
      split; [assumption|]. split; [lia|].
      intros h k v. rewrite Hcont'. split.
      * intros [Hc|(p & Hp & Hholds)]; [now left|].
        right. exists p. split; [lia|assumption].
      * intros [Hc|(p & Hp & Hholds)]; [now left|].
        right. exists p. split; [|assumption].
        destruct (Z.eq_dec p i) as [->|]; [|lia].
        destruct Hholds as (_ & Hnz & Hh & _). congruence.
    + destruct (rh_hashes src (cs_robin_hood src Hsrc) i ltac:(lia)) as [|Hlive];
        [contradiction|].
      rewrite hm_live_hash_not_deleted by assumption.
      destruct (insert_new_key fuel new (rd (hashes src) i) (rd (keys src) i)
                  (rd (values src) i))
        as (new1 & -> & Hcs1 & Hcap1 & Hocc1 & Hcont1); try assumption; try lia.
      { apply Habs; [lia|assumption]. }
      { pose proof (occupied_bounds (drop (Z.to_nat (i + 1)) (hashes src))). lia. }
      destruct (IH (i + 1) new1) as (new' & Hrun & Hcs' & Hcap' & Hocc' & Hcont');
        try assumption; try lia.
      { intros p Hp Hocc q v Hholds.
        assert (contains new1 (rd (hashes src) p) (rd (keys src) p) v) as Hc
          by (now exists q).
        apply Hcont1 in Hc as [[q' Hq']|(Hh & Hk & _)].
        - apply (Habs p ltac:(lia) Hocc q' v). exact Hq'.
        - assert (p = i); [|lia].
          apply (cs_unique_keys src Hsrc); try assumption; lia. }
      exists new'. split; [assumption|]. split; [assumption|].
      split; [congruence|]. split; [lia|].
      intros h k v. rewrite Hcont', Hcont1. split.
      * intros [[Hc|(-> & -> & ->)]|(p & Hp & Hholds)].
        -- now left.
        -- right. exists i. split; [lia|]. unfold holds. repeat split; lia.
        -- right. exists p. split; [lia|assumption].
      * intros [Hc|(p & Hp & Hholds)]; [now left; left|].
        destruct (Z.eq_dec p i) as [->|].
        -- left. right. destruct Hholds as (_ & _ & <- & <- & <-). auto.
        -- right. exists p. split; [lia|assumption].
Qed.

(** The part of C5 that the code has: the copy of a consistent table
    (any table built by [set] from a fresh one is, as long as no caller
    hash is [0x80000000] and nothing was removed) into a buffer with room
    for its entries counts the same number of elements and answers every
    [lookup] as the source does. *)
Lemma copy_of_consistent_table sk sv fuel (src : @hashmap K V) buffer_size ks vs :
  consistent src ->
  0 < m_capacity (create (K:=K) (V:=V) sk sv buffer_size ks vs) <= 2 ^ 31 ->
  m_num_elements src <= m_capacity (create (K:=K) (V:=V) sk sv buffer_size ks vs) ->
  (Z.to_nat (2 * m_capacity (create (K:=K) (V:=V) sk sv buffer_size ks vs)) <= fuel)%nat ->
  (Z.to_nat (2 * m_capacity src) <= fuel)%nat ->
  exists t', copy sk sv fuel src buffer_size ks vs = Some t' /\ consistent t' /\
    m_num_elements t' = m_num_elements src /\
    forall hash k value, 0 <= hash < 2 ^ 32 ->
      lookup fuel t' hash k value = lookup fuel src hash k value.
Proof.
  intros Hsrc Hc Hroom Hfuel Hfuel'.
  destruct (create_consistent sk sv buffer_size ks vs Hc) as (Hnew & Hocc0 & Habs0).
  pose proof (rh_capacity src (cs_robin_hood src Hsrc)) as Hcs.
  pose proof (wf_count src (cs_well_formed src Hsrc)) as Hcount.
  unfold copy.
  destruct (copy_loop_consistent fuel src (Z.to_nat (m_capacity src)) 0
              (create sk sv buffer_size ks vs))
    as (t' & Hrun & Hcs' & Hcap' & Hocc' & Hcont'); try assumption; try lia.
  { intros p _ _. apply Habs0. }
  { change (Z.to_nat 0) with 0%nat. rewrite drop_0. lia. }
  rewrite Z2Nat.id in Hrun by lia.
  change (Z.to_nat 0) with 0%nat in Hocc'. rewrite drop_0 in Hocc'.
  exists t'. split; [assumption|]. split; [assumption|].
  split; [rewrite (wf_count t' (cs_well_formed t' Hcs')); lia|].
  intros hash k value Hh.
  pose proof (rh_capacity t' (cs_robin_hood t' Hcs')) as Hct'.
  destruct (lookup_pos_terminates fuel src (_hash hash) k Hcs Hfuel')
    as (found & p & Hlook).
  destruct (Z.eq_dec hash DELETED_HASH_BIT) as [->|Hne].
  - (* both tables are asked for the sentinel *)
    destruct (lookup_pos_terminates fuel t' (_hash DELETED_HASH_BIT) k Hct'
                ltac:(lia)) as (found' & p' & Hlook').
    unfold lookup. rewrite Hlook, Hlook'.
    change (_hash DELETED_HASH_BIT) with EMPTY_HASH in *.
    destruct found; [now apply lookup_loop_sentinel in Hlook|].
    destruct found'; [now apply lookup_loop_sentinel in Hlook'|]. reflexivity.
  - pose proof (hm_hash_live hash Hh Hne) as Hl.
    destruct found.
    + destruct (lookup_pos_found fuel src (_hash hash) k p ltac:(lia) Hlook)
        as (Hp & Hhp & Hkp & Hnz).
      rewrite (lookup_of_contained fuel t' hash k (rd (values src) p) value);
        try assumption; try apply Hcs'; try lia.
      * unfold lookup. now rewrite Hlook.
      * apply Hcont'. right. exists p. split; [lia|]. unfold holds. auto.
    + pose proof (lookup_pos_false_absent fuel src (_hash hash) k p Hsrc Hl Hlook)
        as Ha.
      destruct (lookup_pos_of_absent fuel t' (_hash hash) k Hct') as [p' Hlook'];
        try lia.
      { intros q v Hholds.
        assert (contains t' (_hash hash) k v) as Hc' by (now exists q).
        apply Hcont' in Hc' as [[q' Hq']|(q' & _ & Hq')].
        - now apply (Habs0 (_hash hash) k q' v).
        - now apply (Ha q' v). }
      unfold lookup. now rewrite Hlook, Hlook'.
Qed.

(** ** Further properties of the robin-hood map *)

(** X1. On every table of capacity between 1 and 2^31, [lookup] returns
    within twice the capacity probes; when it reports the key found, some
    slot holds the normalised hash, the key and the value handed back, and
    when it reports it missing the out-parameter is left as it was. *)
Theorem lookup_returns_and_is_sound fuel (t : @hashmap K V) hash key value :
  0 < m_capacity t <= 2 ^ 31 ->
  (Z.to_nat (2 * m_capacity t) <= fuel)%nat ->
  (exists p v, lookup fuel t hash key value = Some (true, v) /\
     holds t p (_hash hash) key v) \/
  lookup fuel t hash key value = Some (false, value).
Proof.
  intros Hc Hfuel.
  destruct (lookup_pos_terminates fuel t (_hash hash) key Hc Hfuel)
    as (found & p & Hlk).
  unfold lookup. rewrite Hlk. destruct found; [left|now right].
  destruct (lookup_pos_found _ _ _ _ _ (proj1 Hc) Hlk) as (Hp & Hh & Hk & Hne).
  exists p, (rd (values t) p). split; [reflexivity|].
  repeat split; try assumption; lia.
Qed.

(** X2. Away from [0x80000000], the normalised hash is a stored hash of a
    live entry: it is not the EMPTY sentinel, its DELETED bit is clear, it
    agrees with the caller's hash in the low 31 bits unless that hash is 0,
    and normalising it again changes nothing. *)
Theorem hash_is_live_and_stable h :
  normalisable h ->
  _hash h <> EMPTY_HASH /\ deleted (_hash h) = false /\
  _hash (_hash h) = _hash h /\
  (h <> 0 -> _hash h mod 2 ^ 31 = h mod 2 ^ 31).
Proof.
  intros [Hr Hne].
  assert (Hlive : live_hash (_hash h)) by (apply hm_hash_live; assumption).
  split; [unfold EMPTY_HASH, live_hash in *; lia|].
  split; [apply hm_live_hash_not_deleted; exact Hlive|].
  split; [apply hm_hash_idempotent; assumption|].
  intros Hnz.
  destruct (Z.testbit h 31) eqn:Hb.
  - rewrite hm_hash_deleted by assumption.
    replace (h - 2 ^ 31) with (h + (-1) * 2 ^ 31) by lia.
    apply Z.mod_add. lia.
  - rewrite hm_hash_plain by assumption. reflexivity.
Qed.

(** X3. On a consistent table, [get] returns the value that is stored
    under the caller's hash and key, whatever the local it declares held. *)
Theorem get_returns_the_stored_value fuel (t : @hashmap K V) hash key v value :
  consistent t -> normalisable hash ->
  contains t (_hash hash) key v ->
  (Z.to_nat (m_capacity t) <= fuel)%nat ->
  get fuel t hash key value = Some v.
Proof.
  intros Hcs [Hr Hne] Hin Hfuel.
  apply (get_returns_what_lookup_wrote fuel t hash key value value v Hr).
  apply lookup_of_contained; try assumption.
  - apply Hcs.
  - apply Hcs.
  - apply hm_hash_live; assumption.
Qed.

(** X4. [set] returns on every table that has an EMPTY slot, whatever
    else the slots hold, and leaves the capacity as it was: the search
    needs at most twice the capacity probes and the insertion at most the
    capacity. *)
Theorem set_returns_when_a_slot_is_empty fuel (t : @hashmap K V) hash key value :
  0 < m_capacity t <= 2 ^ 31 ->
  Z.of_nat (length (hashes t)) = m_capacity t ->
  occupied (hashes t) < m_capacity t ->
  (Z.to_nat (2 * m_capacity t) <= fuel)%nat ->
  exists t', set fuel t hash key value = Some t' /\
    m_capacity t' = m_capacity t.
Proof.
  intros Hc Hlen Hocc Hfuel.
  destruct (lookup_pos_terminates fuel t (_hash hash) key Hc Hfuel)
    as (found & p & Hlk).
  assert (Hset : exists t', set fuel t hash key value = Some t').
  { unfold set. rewrite Hlk. destruct found; [eauto|].
    apply insert_terminates; try assumption; lia. }
  destruct Hset as [t' Hset]. exists t'. split; [exact Hset|].
  exact (set_capacity _ _ _ _ _ _ Hset).
Qed.

(** *** What [remove] leaves alone *)

Lemma hm_hash_range h : 0 <= h < 2 ^ 32 -> 0 <= _hash h < 2 ^ 31.
Proof.
  intros Hr. destruct (Z.eq_dec h (2 ^ 31)) as [->|Hne].
  - vm_compute. split; [discriminate|reflexivity].
  - pose proof (hm_hash_live h Hr Hne) as Hl. unfold live_hash in Hl. lia.
Qed.

Lemma gpd_mark_deleted (t : @hashmap K V) p pos h :
  _get_probe_distance (mark_deleted t p) pos (Z.lor h DELETED_HASH_BIT) =
  _get_probe_distance t pos h.
Proof.
  unfold _get_probe_distance. cbn [m_capacity mark_deleted].
  rewrite Z.land_lor_distr_l.
  replace (Z.land DELETED_HASH_BIT (not32 DELETED_HASH_BIT)) with 0
    by reflexivity.
  now rewrite Z.lor_0_r.
Qed.

Lemma lookup_loop_mark_deleted fuel : forall (t : @hashmap K V) p hash key pos d,
  0 <= p < Z.of_nat (length (hashes t)) -> 0 <= pos ->
  rd (hashes t) p <> EMPTY_HASH ->
  0 <= hash < 2 ^ 31 ->
  ~ (rd (hashes t) p = hash /\ rd (keys t) p = key) ->
  _lookup_pos_loop fuel (mark_deleted t p) hash key pos d =
  _lookup_pos_loop fuel t hash key pos d.
Proof.
  induction fuel as [|fuel IH]; intros t p hash key pos d Hp Hpos Hocc Hh Hother;
    [reflexivity|].
  cbn [_lookup_pos_loop].
  assert (Hnext : 0 <= next_pos t pos)
    by (unfold next_pos, u32; apply Z.mod_pos_bound; lia).
  change (next_pos (mark_deleted t p) pos) with (next_pos t pos).
  change (keys (mark_deleted t p)) with (keys t).
  destruct (Z.eq_dec pos p) as [->|Hne].
  - cbn [hashes mark_deleted]. rewrite rd_wr_eq by lia.
    rewrite gpd_mark_deleted.
    assert (Hlor : Z.lor (rd (hashes t) p) DELETED_HASH_BIT <> EMPTY_HASH).
    { intros H1. apply Z.lor_eq_0_iff in H1. tauto. }
    apply Z.eqb_neq in Hlor. rewrite Hlor.
    rewrite (proj2 (Z.eqb_neq _ _) Hocc).
    destruct (_ >? _); [reflexivity|].
    assert (Hm1 : (Z.lor (rd (hashes t) p) DELETED_HASH_BIT =? hash) = false).
    { apply Z.eqb_neq. intros H1.
      assert (Hb : Z.testbit (Z.lor (rd (hashes t) p) DELETED_HASH_BIT) 31 = true)
        by (rewrite lor_deleted_bits; apply orb_true_r).
      rewrite H1, testbit31_range in Hb by lia.
      apply Z.leb_le in Hb. lia. }
    assert (Hm2 : (rd (hashes t) p =? hash) && bool_decide (rd (keys t) p = key)
                  = false).
    { destruct (Z.eqb_spec (rd (hashes t) p) hash) as [He|]; [|reflexivity].
      cbn [andb]. apply bool_decide_eq_false. tauto. }
    rewrite Hm1, Hm2. cbn [andb]. apply IH; assumption.
  - cbn [hashes mark_deleted]. rewrite rd_wr_ne by lia.
    change (_get_probe_distance (mark_deleted t p) pos (rd (hashes t) pos))
      with (_get_probe_distance t pos (rd (hashes t) pos)).
    destruct (_ =? EMPTY_HASH); [reflexivity|].
    destruct (_ >? _); [reflexivity|].
    destruct (_ && _); [reflexivity|].
    apply IH; assumption.
Qed.

(** X5. [remove] of one key changes no other key's [lookup]: on every
    table of capacity between 1 and 2^31, whatever its slots hold, the call
    returns, and a caller hash and key that are stored under another pair
    than the removed one are looked up afterwards with the same result as
    before. *)
Theorem remove_keeps_the_other_lookups fuel (t : @hashmap K V) hash key
    hash' key' value :
  0 < m_capacity t <= 2 ^ 31 ->
  Z.of_nat (length (hashes t)) = m_capacity t ->
  uint32 hash' ->
  (_hash hash', key') <> (_hash hash, key) ->
  (Z.to_nat (2 * m_capacity t) <= fuel)%nat ->
  exists t', remove fuel t hash key = Some t' /\
    lookup fuel t' hash' key' value = lookup fuel t hash' key' value.
Proof.
  intros Hc Hlen Hu Hother Hfuel.
  destruct (lookup_pos_terminates fuel t (_hash hash) key Hc Hfuel)
    as (found & p & Hlk).
  unfold remove. rewrite Hlk. destruct found; [|eauto].
  eexists. split; [reflexivity|].
  destruct (lookup_pos_found _ _ _ _ _ (proj1 Hc) Hlk) as (Hp & Hh & Hk & Hne).
  unfold lookup, _lookup_pos.
  change (m_capacity (mark_deleted t p)) with (m_capacity t).
  rewrite lookup_loop_mark_deleted.
  - reflexivity.
  - lia.
  - unfold u32. apply Z.mod_pos_bound. lia.
  - congruence.
  - apply hm_hash_range. exact Hu.
  - intros [H1 H2]. apply Hother. congruence.
Qed.

(** X6. After [remove], the key is gone: on a table in which no two
    occupied slots hold the same hash and key, [remove(hash, key)] returns
    and the [lookup] of the same hash and key reports it missing, leaving
    the out-parameter as it was. *)
Theorem remove_then_lookup_misses fuel (t : @hashmap K V) hash key value :
  0 < m_capacity t <= 2 ^ 31 ->
  Z.of_nat (length (hashes t)) = m_capacity t ->
  unique_keys t -> uint32 hash ->
  (Z.to_nat (2 * m_capacity t) <= fuel)%nat ->
  exists t', remove fuel t hash key = Some t' /\
    lookup fuel t' hash key value = Some (false, value).
Proof.
  intros Hc Hlen Huniq Hu Hfuel.
  destruct (lookup_pos_terminates fuel t (_hash hash) key Hc Hfuel)
    as (found & p & Hlk).
  unfold remove. rewrite Hlk. destruct found.
  2:{ exists t. split; [reflexivity|]. unfold lookup. now rewrite Hlk. }
  eexists. split; [reflexivity|].
  destruct (lookup_pos_found _ _ _ _ _ (proj1 Hc) Hlk) as (Hp & Hh & Hk & Hne).
  destruct (lookup_pos_terminates fuel (mark_deleted t p) (_hash hash) key Hc Hfuel)
    as (found & q & Hlk').
  unfold lookup. rewrite Hlk'. destruct found; [exfalso|reflexivity].
  destruct (lookup_pos_found fuel (mark_deleted t p) _ _ _ (proj1 Hc) Hlk')
    as (Hq & Hh' & Hk' & _).
  cbn [m_capacity hashes keys mark_deleted] in Hq, Hh', Hk'.
  pose proof (hm_hash_range hash Hu) as Hrange.
  destruct (Z.eq_dec q p) as [->|Hqp].
  - rewrite rd_wr_eq in Hh' by lia.
    assert (Hb : Z.testbit (Z.lor (rd (hashes t) p) DELETED_HASH_BIT) 31 = true)
      by (rewrite lor_deleted_bits; apply orb_true_r).
    rewrite Hh', testbit31_range in Hb by lia.
    apply Z.leb_le in Hb. lia.
  - rewrite rd_wr_ne in Hh' by lia.
    apply Hqp. symmetry. apply Huniq; try assumption; congruence.
Qed.

(** *** [remove] on a consistent table *)

Lemma occupied_positive (hs : list Z) p :
  0 <= p < Z.of_nat (length hs) -> rd hs p <> EMPTY_HASH -> 0 < occupied hs.
Proof.
  intros Hp Hne. pose proof (occupied_wr hs p EMPTY_HASH Hp) as Hw.
  pose proof (occupied_bounds (wr hs p EMPTY_HASH)) as Hb.
  destruct (Z.eqb_spec (rd hs p) EMPTY_HASH); [contradiction|].
  rewrite Z.eqb_refl in Hw. lia.
Qed.

(** X24. [remove] on a consistent table (built by [set] without [remove]
    and without the hash [0x80000000]): if a slot holds the normalised hash
    and the key, the call returns with the DELETED bit of that slot's hash
    set, every other bit of it, every other hash, the keys and the values
    as they were, and [m_num_elements] one less; if no slot holds them, it
    returns the table unchanged. *)
Theorem remove_on_a_consistent_table fuel (t : @hashmap K V) hash key :
  consistent t -> (Z.to_nat (2 * m_capacity t) <= fuel)%nat ->
  (forall p v, holds t p (_hash hash) key v ->
     exists t', remove fuel t hash key = Some t' /\
       Z.testbit (rd (hashes t') p) 31 = true /\
       (forall b, b <> 31 ->
          Z.testbit (rd (hashes t') p) b = Z.testbit (rd (hashes t) p) b) /\
       (forall q, 0 <= q < m_capacity t -> q <> p ->
          rd (hashes t') q = rd (hashes t) q) /\
       keys t' = keys t /\ values t' = values t /\
       m_num_elements t' = m_num_elements t - 1 /\
       m_capacity t' = m_capacity t) /\
  (absent t (_hash hash) key -> remove fuel t hash key = Some t).
Proof.
  intros Hcs Hfuel.
  pose proof (rh_capacity t (cs_robin_hood t Hcs)) as Hc.
  pose proof (cs_well_formed t Hcs) as Hwf.
  split.
  - intros p v Hheld. pose proof Hheld as (Hp & Hnz & Hh & Hk & Hv).
    assert (Hl : live_hash (_hash hash)).
    { destruct (rh_hashes t (cs_robin_hood t Hcs) p Hp) as [He|Hl];
        [congruence|now rewrite <- Hh]. }
    rewrite (remove_of_held_entry fuel t hash key p v Hcs Hl Hheld) by lia.
    eexists. split; [reflexivity|].
    cbn [mark_deleted hashes keys values m_num_elements m_capacity].
    rewrite rd_wr_eq by (rewrite (wf_hashes t Hwf); lia).
    split; [rewrite lor_deleted_bits; apply orb_true_r|].
    split.
    { intros b Hb. rewrite lor_deleted_bits.
      destruct (Z.eqb_spec b 31); [contradiction|]. apply orb_false_r. }
    split; [intros q Hq Hne; apply rd_wr_ne; lia|].
    split; [reflexivity|]. split; [reflexivity|]. split; [|reflexivity].
    pose proof (occupied_positive (hashes t) p
                  ltac:(rewrite (wf_hashes t Hwf); lia) ltac:(congruence)) as Hpos.
    pose proof (occupied_bounds (hashes t)) as Hb.
    rewrite (wf_hashes t Hwf) in Hb.
    apply u64_small. rewrite (wf_count t Hwf). lia.
  - intros Ha.
    destruct (lookup_pos_of_absent fuel t (_hash hash) key Hc Ha Hfuel) as [p Hlk].
    unfold remove. now rewrite Hlk.
Qed.

(** *** Iteration *)

Lemma first_live (t : @hashmap K V) n : forall o,
  (forall q, o <= q < o + Z.of_nat n -> is_live t q = false) \/
  (exists p, o <= p < o + Z.of_nat n /\ is_live t p = true /\
     forall q, o <= q < p -> is_live t q = false).
Proof.
  induction n as [|n IH]; intros o; [left; intros; lia|].
  destruct (is_live t o) eqn:Ho.
  - right. exists o. split; [lia|]. split; [exact Ho|]. intros; lia.
  - destruct (IH (o + 1)) as [Hall|(p & Hp & Hl & Hbefore)].
    + left. intros q Hq. destruct (Z.eq_dec q o) as [->|]; [exact Ho|].
      apply Hall. lia.
    + right. exists p. split; [lia|]. split; [exact Hl|].
      intros q Hq. destruct (Z.eq_dec q o) as [->|]; [exact Ho|].
      apply Hbefore. lia.
Qed.

Lemma live_slots_skip (t : @hashmap K V) n : forall o len,
  (forall q, o <= q < o + Z.of_nat n -> is_live t q = false) ->
  Z.of_nat n <= len ->
  filter (fun p => is_live t p = true) (seqZ o len) =
  filter (fun p => is_live t p = true) (seqZ (o + Z.of_nat n) (len - Z.of_nat n)).
Proof.
  induction n as [|n IH]; intros o len Hdead Hlen.
  - now rewrite Z.add_0_r, Z.sub_0_r.
  - rewrite seqZ_cons by lia.
    rewrite filter_cons_False.
    2:{ rewrite Hdead by lia. discriminate. }
    rewrite (IH (Z.succ o) (Z.pred len)).
    + f_equal. f_equal; lia.
    + intros q Hq. apply Hdead. lia.
    + lia.
Qed.

Lemma iter_all_from (t : @hashmap K V) n : forall o key value fuel,
  0 <= o -> m_capacity t - o = Z.of_nat n -> (n < fuel)%nat ->
  iter_all fuel t {| offset := o |} key value =
  Some ((fun p => (rd (keys t) p, rd (values t) p))
          <$> filter (fun p => is_live t p = true) (seqZ o (Z.of_nat n))).
Proof.
  induction n as [n IH] using lt_wf_ind. intros o key value fuel Ho Hn Hfuel.
  destruct fuel as [|fuel]; [lia|]. cbn [iter_all].
  destruct (first_live t n o) as [Hall|(p & Hp & Hl & Hbefore)].
  - rewrite iter_next_exhausted by (cbn [offset]; intros; apply Hall; lia).
    rewrite (live_slots_skip t n o (Z.of_nat n)) by (assumption || lia).
    now rewrite Z.sub_diag.
  - rewrite (iter_next_found t _ key value p)
      by (cbn [offset]; assumption || lia).
    rewrite (live_slots_skip t (Z.to_nat (p - o)) o (Z.of_nat n)).
    2:{ intros q Hq. apply Hbefore. lia. }
    2:{ lia. }
    replace (o + Z.of_nat (Z.to_nat (p - o))) with p by lia.
    rewrite seqZ_cons by lia.
    rewrite filter_cons_True by exact Hl.
    rewrite (IH (Z.to_nat (m_capacity t - (p + 1)))); try lia.
    rewrite fmap_cons.
    replace (Z.pred (Z.of_nat n - Z.of_nat (Z.to_nat (p - o))))
      with (Z.of_nat (Z.to_nat (m_capacity t - (p + 1)))) by lia.
    replace (Z.succ p) with (p + 1) by lia. reflexivity.
Qed.

(** X7. Iteration is complete and ordered: on every table, the loop
    [while (iter_next(iter, key, value))] started from [iter_start] ends
    after at most capacity + 1 calls and has been handed exactly the keys
    and values of the live slots, each once, in slot order; EMPTY and
    deleted slots are skipped. *)
Theorem iteration_yields_the_live_entries (t : @hashmap K V) key value :
  iter_all (S (Z.to_nat (m_capacity t))) t (iter_start t) key value =
  Some (live_entries t).
Proof.
  unfold live_entries, iter_start.
  destruct (Z_le_gt_dec (m_capacity t) 0) as [Hle|Hgt].
  - rewrite (seqZ_nil 0) by exact Hle. cbn [iter_all].
    rewrite iter_next_exhausted by (cbn [offset]; intros; lia).
    reflexivity.
  - rewrite (iter_all_from t (Z.to_nat (m_capacity t))); try lia.
    now rewrite Z2Nat.id by lia.
Qed.

(** *** One [set] on a consistent table *)

Lemma lookup_loop_set_value fuel : forall (t : @hashmap K V) p v hash key pos d,
  _lookup_pos_loop fuel (set_value t p v) hash key pos d =
  _lookup_pos_loop fuel t hash key pos d.
Proof.
  induction fuel as [|fuel IH]; intros t p v hash key pos d; [reflexivity|].
  cbn [_lookup_pos_loop].
  change (hashes (set_value t p v)) with (hashes t).
  change (keys (set_value t p v)) with (keys t).
  change (next_pos (set_value t p v) pos) with (next_pos t pos).
  change (_get_probe_distance (set_value t p v) pos (rd (hashes t) pos))
    with (_get_probe_distance t pos (rd (hashes t) pos)).
  now rewrite IH.
Qed.

(** Two consistent tables that hold the same entries under a pair answer
    its [lookup] alike. *)
Lemma lookups_agree fuel (t t' : @hashmap K V) hash key value :
  consistent t -> consistent t' -> uint32 hash ->
  (forall v, contains t' (_hash hash) key v <-> contains t (_hash hash) key v) ->
  (Z.to_nat (2 * m_capacity t) <= fuel)%nat ->
  (Z.to_nat (2 * m_capacity t') <= fuel)%nat ->
  lookup fuel t' hash key value = lookup fuel t hash key value.
Proof.
  intros Hcs Hcs' Hu Hsame Hfuel Hfuel'.
  pose proof (rh_capacity t (cs_robin_hood t Hcs)) as Hc.
  pose proof (rh_capacity t' (cs_robin_hood t' Hcs')) as Hc'.
  destruct (lookup_pos_terminates fuel t (_hash hash) key Hc Hfuel)
    as (found & p & Hlk).
  destruct (Z.eq_dec hash DELETED_HASH_BIT) as [->|Hne].
  - destruct (lookup_pos_terminates fuel t' (_hash DELETED_HASH_BIT) key Hc' Hfuel')
      as (found' & p' & Hlk').
    unfold lookup. rewrite Hlk, Hlk'.
    change (_hash DELETED_HASH_BIT) with EMPTY_HASH in *.
    destruct found; [now apply lookup_loop_sentinel in Hlk|].
    destruct found'; [now apply lookup_loop_sentinel in Hlk'|]. reflexivity.
  - pose proof (hm_hash_live hash Hu Hne) as Hl.
    destruct found.
    + destruct (lookup_pos_found fuel t (_hash hash) key p ltac:(lia) Hlk)
        as (Hp & Hhp & Hkp & Hnz).
      rewrite (lookup_of_contained fuel t' hash key (rd (values t) p) value);
        try assumption; try apply Hcs'; try lia.
      * unfold lookup. now rewrite Hlk.
      * apply Hsame. exists p. unfold holds. auto.
    + pose proof (lookup_pos_false_absent fuel t (_hash hash) key p Hcs Hl Hlk)
        as Ha.
      destruct (lookup_pos_of_absent fuel t' (_hash hash) key Hc') as [p' Hlk'];
        try lia.
      { intros q v Hholds. assert (contains t' (_hash hash) key v) as Hin
          by (now exists q).
        apply Hsame in Hin as [q' Hq']. now apply (Ha q' v). }
      unfold lookup. now rewrite Hlk, Hlk'.
Qed.

(** X8. One [set] on a consistent table, which either has a free slot or
    already holds the key: the call returns a consistent table of the same
    capacity, the [lookup] of the hash and key now finds the value that was
    set, every hash and key stored under another pair is looked up with
    the same result as before, and the element count grows by one if the
    key was absent and stays if it was present. *)
Theorem set_then_lookup_and_the_other_keys fuel (t : @hashmap K V) hash key value :
  consistent t -> normalisable hash ->
  m_num_elements t < m_capacity t \/ (exists v0, contains t (_hash hash) key v0) ->
  (Z.to_nat (2 * m_capacity t) <= fuel)%nat ->
  exists t', set fuel t hash key value = Some t' /\ consistent t' /\
    m_capacity t' = m_capacity t /\
    (forall out, lookup fuel t' hash key out = Some (true, value)) /\
    (forall hash' key' out, uint32 hash' ->
       (_hash hash', key') <> (_hash hash, key) ->
       lookup fuel t' hash' key' out = lookup fuel t hash' key' out) /\
    (absent t (_hash hash) key -> m_num_elements t' = m_num_elements t + 1) /\
    ((exists v0, contains t (_hash hash) key v0) ->
       m_num_elements t' = m_num_elements t).
Proof.
  intros Hcs [Hr Hne] Hroom Hfuel.
  pose proof (hm_hash_live hash Hr Hne) as Hl.
  pose proof (rh_capacity t (cs_robin_hood t Hcs)) as Hc.
  pose proof (cs_well_formed t Hcs) as Hwf.
  destruct (lookup_pos_terminates fuel t (_hash hash) key Hc Hfuel)
    as (found & p & Hlk).
  destruct found.
  - (* the key is there: its value is overwritten in place *)
    destruct (lookup_pos_found _ _ _ _ _ (proj1 Hc) Hlk) as (Hp & Hh & Hk & Hnz).
    assert (Hset : set fuel t hash key value = Some (set_value t p value))
      by (unfold set; now rewrite Hlk).
    exists (set_value t p value). split; [exact Hset|].
    split; [exact (set_consistent _ _ _ _ _ _ Hcs (conj Hr Hne) Hset)|].
    split; [reflexivity|].
    unfold _lookup_pos in Hlk. split; [|split; [|split]].
    + intros out. unfold lookup, _lookup_pos.
      change (m_capacity (set_value t p value)) with (m_capacity t).
      rewrite lookup_loop_set_value, Hlk. cbn [values set_value].
      rewrite rd_wr_eq by (rewrite (wf_values t Hwf); lia). reflexivity.
    + intros hash' key' out Hu Hother. unfold lookup, _lookup_pos.
      change (m_capacity (set_value t p value)) with (m_capacity t).
      rewrite lookup_loop_set_value.
      destruct (_lookup_pos_loop fuel t (_hash hash') key' _ 0)
        as [[[] q]|] eqn:Hlk'; try reflexivity.
      destruct (lookup_pos_found fuel t (_hash hash') key' q (proj1 Hc) Hlk')
        as (Hq & Hh' & Hk' & _).
      cbn [values set_value]. rewrite rd_wr_ne; [reflexivity|lia|lia|].
      intros ->. apply Hother. congruence.
    + intros Ha. exfalso. apply (Ha p (rd (values t) p)).
      unfold holds. auto.
    + reflexivity.
  - (* the key is new: it is inserted *)
    pose proof (lookup_pos_false_absent fuel t (_hash hash) key p Hcs Hl Hlk) as Ha.
    assert (Hfree : occupied (hashes t) < m_capacity t).
    { destruct Hroom as [Hlt|[v0 [q Hq]]].
      - rewrite <- (wf_count t Hwf). exact Hlt.
      - now destruct (Ha q v0). }
    destruct (insert_new_key fuel t (_hash hash) key value Hcs Hl Ha Hfree)
      as (t' & Hins & Hcs' & Hcap & Hocc & Hcont); [lia|].
    exists t'. split; [unfold set; now rewrite Hlk|].
    split; [exact Hcs'|]. split; [exact Hcap|].
    split; [|split; [|split]].
    + intros out. apply lookup_of_contained; try assumption; try apply Hcs'.
      * apply Hcont. now right.
      * lia.
    + intros hash' key' out Hu Hother.
      apply lookups_agree; try assumption; [|lia].
      intros v. rewrite Hcont. split; [|now left].
      intros [Hin|(H1 & H2 & _)]; [exact Hin|]. destruct Hother. congruence.
    + intros _. rewrite (wf_count t' (cs_well_formed t' Hcs')), (wf_count t Hwf).
      exact Hocc.
    + intros [v0 [q Hq]]. now destruct (Ha q v0).
Qed.

(** X9. A table built by [set] calls on a fresh buffer and then copied:
    when no caller hash was [0x80000000] and the new buffer has room for
    the elements, [copy] returns, the copy counts as many elements as the
    source and every [lookup] gives on the copy the result it gives on the
    source. *)
Theorem copy_of_a_built_table sk sv fuel buffer_size ks vs ops (t : @hashmap K V)
    buffer_size' ks' vs' :
  0 < m_capacity (create (K:=K) (V:=V) sk sv buffer_size ks vs) <= 2 ^ 31 ->
  Forall (fun op => normalisable op.1.1) ops ->
  set_all fuel (create sk sv buffer_size ks vs) ops = Some t ->
  0 < m_capacity (create (K:=K) (V:=V) sk sv buffer_size' ks' vs') <= 2 ^ 31 ->
  m_num_elements t <= m_capacity (create (K:=K) (V:=V) sk sv buffer_size' ks' vs') ->
  (Z.to_nat (2 * m_capacity (create (K:=K) (V:=V) sk sv buffer_size' ks' vs')) <= fuel)%nat ->
  (Z.to_nat (2 * m_capacity t) <= fuel)%nat ->
  exists t', copy sk sv fuel t buffer_size' ks' vs' = Some t' /\
    m_num_elements t' = m_num_elements t /\
    forall hash k out, uint32 hash ->
      lookup fuel t' hash k out = lookup fuel t hash k out.
Proof.
  intros Hc Hops Hbuilt Hc' Hroom Hfuel' Hfuel.
  assert (Hcs : consistent t).
  { apply (set_all_consistent fuel ops (create sk sv buffer_size ks vs));
      try assumption.
    apply create_consistent. exact Hc. }
  destruct (copy_of_consistent_table sk sv fuel t buffer_size' ks' vs'
              Hcs Hc' Hroom Hfuel' Hfuel) as (t' & Hcopy & _ & Hnum & Hsame).
  exists t'. split; [exact Hcopy|]. split; [exact Hnum|].
  intros hash k out Hu. apply Hsame. exact Hu.
Qed.

Lemma live_slots_count (t : @hashmap K V) n : forall o,
  no_tombstones t -> Z.of_nat (length (hashes t)) = m_capacity t ->
  0 <= o -> o + Z.of_nat n = m_capacity t ->
  Z.of_nat (length (filter (fun p => is_live t p = true) (seqZ o (Z.of_nat n)))) =
  occupied (drop (Z.to_nat o) (hashes t)).
Proof.
  induction n as [|n IH]; intros o Hnt Hlen Ho Hn.
  - rewrite drop_ge by lia. reflexivity.
  - rewrite seqZ_cons by lia. rewrite occupied_drop by lia.
    replace (Z.pred (Z.of_nat (S n))) with (Z.of_nat n) by lia.
    replace (Z.succ o) with (o + 1) by lia.
    specialize (IH (o + 1) Hnt Hlen ltac:(lia) ltac:(lia)).
    destruct (Hnt o ltac:(lia)) as [He|Hl].
    + rewrite filter_cons_False.
      2:{ unfold is_live. rewrite He. discriminate. }
      rewrite He. cbn [Z.eqb EMPTY_HASH]. lia.
    + rewrite filter_cons_True.
      2:{ unfold is_live. rewrite (hm_live_hash_not_deleted _ Hl).
          destruct (Z.eqb_spec (rd (hashes t) o) EMPTY_HASH) as [He|];
            [|reflexivity].
          unfold live_hash, EMPTY_HASH in *. lia. }
      destruct (Z.eqb_spec (rd (hashes t) o) EMPTY_HASH) as [He|].
      { unfold live_hash, EMPTY_HASH in *. lia. }
      cbn [length]. lia.
Qed.

(** X10. On a consistent table a full iteration is handed as many pairs
    as [num_elements] says: the loop [while (iter_next(iter, key, value))]
    started from [iter_start] ends with [num_elements] pairs collected. *)
Theorem iteration_hands_out_num_elements_pairs (t : @hashmap K V) key value :
  consistent t ->
  exists l,
    iter_all (S (Z.to_nat (m_capacity t))) t (iter_start t) key value = Some l /\
    Z.of_nat (length l) = m_num_elements t.
Proof.
  intros [Hrh Hwf _]. pose proof (rh_capacity t Hrh) as Hc.
  exists (live_entries t). split.
  - unfold live_entries, iter_start.
    rewrite (iter_all_from t (Z.to_nat (m_capacity t))); try lia.
    now rewrite Z2Nat.id by lia.
  - unfold live_entries. rewrite length_fmap.
    pose proof (live_slots_count t (Z.to_nat (m_capacity t)) 0
                  (rh_hashes t Hrh) (wf_hashes t Hwf)) as Hcount.
    rewrite Z2Nat.id in Hcount by lia.
    rewrite Hcount by lia.
    change (Z.to_nat 0) with 0%nat. rewrite drop_0.
    symmetry. apply Hwf.
Qed.

(** X11. A freshly created table holds nothing: its count is 0, every
    [lookup] misses on the first probe and leaves the out-parameter as it
    was, [remove] changes nothing and the first [iter_next] reports the
    end. *)
Theorem fresh_table_holds_nothing sk sv buffer_size ks vs hash key value :
  0 < m_capacity (create (K:=K) (V:=V) sk sv buffer_size ks vs) ->
  m_num_elements (create (K:=K) (V:=V) sk sv buffer_size ks vs) = 0 /\
  lookup 1 (create sk sv buffer_size ks vs) hash key value = Some (false, value) /\
  remove 1 (create sk sv buffer_size ks vs) hash key =
    Some (create sk sv buffer_size ks vs) /\
  iter_all 1 (create sk sv buffer_size ks vs)
    (iter_start (create sk sv buffer_size ks vs)) key value = Some [].
Proof.
  intros Hc. set (t := create sk sv buffer_size ks vs) in *.
  assert (Hempty : forall p, 0 <= p < m_capacity t -> rd (hashes t) p = EMPTY_HASH).
  { intros p Hp. unfold t. cbn [hashes create]. apply rd_replicate.
    unfold t in Hp. cbn [m_capacity create] in Hp. lia. }
  assert (Hpos : 0 <= u32 (_hash hash mod m_capacity t) < m_capacity t).
  { pose proof (Z.mod_pos_bound (_hash hash) (m_capacity t) Hc) as Hm.
    unfold u32. pose proof (Z.mod_pos_bound (_hash hash mod m_capacity t) (2 ^ 32)
                              ltac:(lia)).
    pose proof (Z.mod_le (_hash hash mod m_capacity t) (2 ^ 32)
                  ltac:(lia) ltac:(lia)). lia. }
  assert (Hlk : _lookup_pos 1 t (_hash hash) key =
                Some (false, u32 (_hash hash mod m_capacity t))).
  { unfold _lookup_pos. cbn [_lookup_pos_loop].
    now rewrite (Hempty _ Hpos). }
  split; [reflexivity|].
  split; [unfold lookup; now rewrite Hlk|].
  split; [unfold remove; now rewrite Hlk|].
  cbn [iter_all]. rewrite iter_next_exhausted; [reflexivity|].
  intros q Hq. cbn [iter_start offset] in Hq. unfold is_live.
  now rewrite (Hempty q Hq).
Qed.

End HashMapProofs.

(** ** The examples *)

Section ExampleProofs.
Import HashMap Examples.

Lemma colliding_built :
  set_all 4 (fresh 4) [(1, 10, 100); (5, 11, 101)] = Some colliding.
Proof. reflexivity. Qed.

Lemma colliding_reachable allowed :
  allowed 1 -> allowed 5 -> reachable 4 4 allowed colliding.
Proof.
  intros H1 H5.
  apply (set_all_reachable 4 4 allowed 4 [(1, 10, 100); (5, 11, 101)] (fresh 4)).
  - apply reachable_create.
  - repeat constructor; assumption.
  - exact colliding_built.
Qed.

(** C2, as the specification states it, fails: two entries with the same
    ideal position sit next to each other, and the second one is further
    from it than the first. *)
Lemma decreasing_richness_fails :
  reachable 4 4 uint32 colliding /\ ~ decreasing_richness colliding.
Proof.
  split.
  - apply colliding_reachable; unfold uint32; lia.
  - intros Hdec.
    assert (probe_distance colliding 2 <= probe_distance colliding 1) as Hle.
    { apply (Hdec 1 1); try reflexivity; cbn; try lia.
      intros x Hx. assert (x = 0 \/ x = 1) as [->| ->] by lia; cbn; discriminate. }
    vm_compute in Hle. now apply Hle.
Qed.

Lemma probe_distance_grows_by_at_most_one_per_step_witness :
  probe_distance colliding 2 <= probe_distance colliding 1 + 1.
Proof.
  apply (probe_distance_grows_by_at_most_one_per_step 4 4 colliding 1 1).
  - apply colliding_reachable; unfold normalisable; split; try lia; discriminate.
  - cbn [m_capacity colliding]. lia.
  - cbn [m_capacity colliding]. lia.
  - cbn [m_capacity colliding]. lia.
  - reflexivity.
  - reflexivity.
  - intros x Hx. assert (x = 0 \/ x = 1) as [->| ->] by lia; cbn; discriminate.
  - vm_compute. discriminate.
Defined.

Lemma full_two_built :
  set_all 4 (fresh 2) [(2, 10, 100); (2, 11, 101)] = Some full_two.
Proof. reflexivity. Qed.

Lemma full_one_built : set_all 4 (fresh 1) [(2, 10, 100)] = Some full_one.
Proof. reflexivity. Qed.

(** The caller hash that the amended C1 leaves out.
    [set(0x80000000, 7, 42)] on a fresh table: [_hash] turns the hash into
    the sentinel 0, [insert] writes it into slot 0 and counts the entry,
    the slot still reads as empty, and [lookup] of the same hash and key
    reports not-found, whatever the fuel. *)
Lemma set_with_deleted_bit_hash_is_not_found :
  set_all 4 (fresh 4) [(2 ^ 31, 7, 42)] = Some lost_entry /\
  forall fuel value,
    lookup (S fuel) lost_entry (2 ^ 31) 7 value = Some (false, value).
Proof. split; reflexivity. Qed.

(** C5, failing input.  The table after [set(0x80000000, 7, 42)] counts
    one element; [copy] skips the slot, whose hash is the sentinel, and the
    new table counts none. *)
Theorem copy_drops_the_entry_with_sentinel_hash :
  set_all 4 (fresh 4) [(2 ^ 31, 7, 42)] = Some lost_entry /\
  m_num_elements lost_entry = 1 /\
  forall fuel,
    exists t', copy 4 4 fuel lost_entry (12 * 8) [] [] = Some t' /\
               m_num_elements t' = 0.
Proof.
  split; [reflexivity|]. split; [reflexivity|].
  intros fuel. eexists. split; reflexivity.
Qed.

(** C10, failing input.  [_hash] is not idempotent at [0x80000000]: one
    application gives the sentinel 0, a second one gives 1. *)
Theorem hash_is_not_idempotent_at_deleted_bit :
  _hash (2 ^ 31) = 0 /\ _hash (_hash (2 ^ 31)) = 1 /\
  _hash (_hash (2 ^ 31)) <> _hash (2 ^ 31).
Proof. repeat split. discriminate. Qed.

(** C3, failing input.  On the full table of two slots, the look-up of an
    absent key probes three slots: two probes do not resolve it. *)
Theorem lookup_pos_probes_more_than_capacity :
  set_all 4 (fresh 2) [(2, 10, 100); (2, 11, 101)] = Some full_two /\
  m_capacity full_two = 2 /\
  _lookup_pos 2 full_two 4 12 = None /\
  _lookup_pos 3 full_two 4 12 = Some (false, 0).
Proof. repeat split. Qed.

(** C4, failing input.  [m_num_elements == m_capacity] on entry, and
    [insert] never returns: no fuel is enough. *)
Theorem insert_into_full_map_never_returns :
  set_all 4 (fresh 1) [(2, 10, 100)] = Some full_one /\
  m_num_elements full_one = m_capacity full_one /\
  forall fuel, insert fuel full_one 3 11 101 = None.
Proof.
  split; [reflexivity|]. split; [reflexivity|]. intros fuel.
  apply insert_loop_full_diverges; cbn [full_one m_capacity hashes].
  - lia.
  - reflexivity.
  - intros p Hp. assert (p = 0) as -> by lia. unfold live_hash.
    change (rd [2] 0) with 2. lia.
  - unfold live_hash. lia.
  - vm_compute. split; [discriminate|reflexivity].
Qed.

(** C7, failing input.  No live slot is left from the cursor on:
    [iter_next] reports exhaustion and the cursor keeps its offset, which
    is not the capacity. *)
Theorem iter_next_keeps_cursor_at_exhaustion :
  forall key value,
    iter_next (fresh 4) (iter_start (fresh 4)) key value
      = (false, {| offset := 0 |}, key, value) /\
    iter_next colliding {| offset := 3 |} key value
      = (false, {| offset := 3 |}, key, value) /\
    m_capacity (fresh 4) = 4 /\ m_capacity colliding = 4.
Proof. intros key value. repeat split. Qed.

(** C1, as the specification states it, fails: the caller pairs [(0, 7)]
    and [(1, 7)] are distinct, both are filed under the stored pair
    [(1, 7)], and [lookup(0, 7)] returns the value written for [(1, 7)],
    not the one written for [(0, 7)]. *)
Lemma distinct_caller_pairs_share_one_entry :
  NoDup [(0, 7); (1, 7)] /\
  exists t, set_all 8 (fresh 4) [(0, 7, 10); (1, 7, 20)] = Some t /\
    m_num_elements t = 1 /\
    forall value, lookup 8 t 0 7 value = Some (true, 20) /\
                  lookup 8 t 0 7 value <> Some (true, 10).
Proof.
  split.
  - apply NoDup_cons. split; [|apply NoDup_singleton].
    intros Hin. apply list_elem_of_singleton in Hin. discriminate.
  - eexists. split; [reflexivity|]. split; [reflexivity|].
    intros value. split; [reflexivity|discriminate].
Qed.

(** A second input on which C5 fails.  With every slot occupied or a
    tombstone, [set(6, 0, 60)] carries its entry once around the table and
    puts it behind an entry that is closer to its own ideal position:
    the entry is live in slot 2, [lookup(6, 0)] stops at slot 1 and
    reports not-found, and the copy finds it. *)
Lemma copy_finds_what_the_source_does_not :
  set_after_remove = Some stored_out_of_reach /\
  is_live stored_out_of_reach 2 = true /\
  rd (hashes stored_out_of_reach) 2 = _hash 6 /\
  rd (keys stored_out_of_reach) 2 = 0 /\
  (forall fuel value,
     lookup (S (S fuel)) stored_out_of_reach 6 0 value = Some (false, value)) /\
  exists t', copy 4 4 16 stored_out_of_reach (12 * 6) [] [] = Some t' /\
    forall value, lookup 16 t' 6 0 value = Some (true, 60).
Proof.
  repeat split. eexists. split; reflexivity.
Qed.

(** C6. A key that is live in a slot and that [remove] does not remove.
    After calls of [set] and [remove] on a table of three slots, the entry
    of hash 9 and key 9 is live in slot 2 and the table counts two elements
    in three slots; [remove(9, 9)] returns the table as it is: the DELETED
    bit of slot 2 is not set and [m_num_elements] is not decremented.  The
    entry [(7, 7)] had been filed by [insert] on its second pass around the
    table, in front of the live entry. *)
Theorem remove_of_a_live_key_does_nothing :
  set_and_remove_calls = Some live_key_out_of_reach /\
  is_live live_key_out_of_reach 2 = true /\
  rd (hashes live_key_out_of_reach) 2 = _hash 9 /\
  rd (keys live_key_out_of_reach) 2 = 9 /\
  m_num_elements live_key_out_of_reach < m_capacity live_key_out_of_reach /\
  forall fuel,
    remove (S (S fuel)) live_key_out_of_reach 9 9 = Some live_key_out_of_reach.
Proof.
  split; [reflexivity|]. split; [reflexivity|]. split; [reflexivity|].
  split; [reflexivity|]. split; [reflexivity|]. intros fuel. reflexivity.
Qed.

(** The set's [_insert] is bounded by [distance < m_capacity] and files
    nothing on a second pass: after the same calls the value 9 is found
    and removed. *)
Lemma hs_same_calls_leave_the_value_in_reach :
  exists t t', insert_and_remove_calls = Some t /\
    rd (HashSet.hashes t) 2 = 9 /\ rd (HashSet.values t) 2 = 9 /\
    HashSet.has 16 t 9 9 = Some true /\
    HashSet.remove 16 t 9 9 = Some t' /\
    Z.testbit (rd (HashSet.hashes t') 2) 31 = true /\
    HashSet.m_num_elements t' = HashSet.m_num_elements t - 1.
Proof.
  do 2 eexists. split; [reflexivity|]. repeat split; reflexivity.
Qed.

Lemma colliding_consistent : consistent colliding.
Proof.
  apply (set_all_consistent 4 [(1, 10, 100); (5, 11, 101)] (fresh 4)).
  - apply create_consistent. vm_compute. split; [reflexivity|discriminate].
  - repeat constructor; cbn; try lia; discriminate.
  - exact colliding_built.
Qed.

End ExampleProofs.

(** ** The robin-hood hash set *)

Section HashSetProofs.
Context {T : Type} `{EqDecision T} `{Inhabited T}.
Import HashSet.
Implicit Types t : @hashset T.

Lemma hs_lookup_loop_bounded n : forall t hash value pos d,
  0 <= d -> d + Z.of_nat n = m_capacity t -> m_capacity t < 2 ^ 32 ->
  exists r, _lookup_pos_loop n t hash value pos d = Some r.
Proof.
  induction n as [|n IH]; intros t hash value pos d Hd Hn Hc;
    cbn [_lookup_pos_loop].
  - destruct (Z.ltb_spec d (m_capacity t)); [lia|eauto].
  - destruct (Z.ltb_spec d (m_capacity t)); [|eauto].
    destruct (rd (hashes t) pos =? EMPTY_HASH); [eauto|].
    destruct (d >? _get_probe_distance t pos (rd (hashes t) pos)); [eauto|].
    destruct ((rd (hashes t) pos =? hash) && bool_decide (rd (values t) pos = value));
      [eauto|].
    rewrite u32_small by lia. apply IH; lia.
Qed.

(** The sibling of C3 in [cf_hashset.hpp]: the loop is bounded by
    [distance < m_capacity], and [capacity] probes always suffice. *)
Lemma hs_lookup_pos_probes_at_most_capacity t hash value :
  0 < m_capacity t < 2 ^ 32 ->
  exists found pos,
    _lookup_pos (Z.to_nat (m_capacity t)) t hash value = Some (found, pos).
Proof.
  intros Hc. unfold _lookup_pos.
  destruct (hs_lookup_loop_bounded (Z.to_nat (m_capacity t)) t hash value
              (u32 (hash mod m_capacity t)) 0) as [[found pos] Hr]; try lia.
  eauto.
Qed.

(** [iter_next] of the set leaves the cursor alone at exhaustion, as the
    one of the map does. *)
Lemma hs_iter_next_loop_exhausted n : forall t i it value,
  (forall q, i <= q < i + Z.of_nat n ->
     rd (hashes t) q = EMPTY_HASH \/ deleted (rd (hashes t) q) = true) ->
  iter_next_loop n t i it value = (false, it, value).
Proof.
  induction n as [|n IH]; intros t i it value Hdead; [reflexivity|].
  cbn [iter_next_loop].
  assert (iter_next_loop n t (i + 1) it value = (false, it, value)) as Hrest
    by (apply IH; intros q Hq; apply Hdead; lia).
  destruct (Hdead i ltac:(lia)) as [-> | Hdel].
  - now rewrite Z.eqb_refl.
  - destruct (rd (hashes t) i =? EMPTY_HASH); [assumption|]. now rewrite Hdel.
Qed.

Lemma hs_iter_next_exhausted t it value :
  (forall q, offset it <= q < m_capacity t ->
     rd (hashes t) q = EMPTY_HASH \/ deleted (rd (hashes t) q) = true) ->
  iter_next t it value = (false, it, value).
Proof.
  intros Hdead. unfold iter_next. apply hs_iter_next_loop_exhausted.
  intros q Hq. apply Hdead. lia.
Qed.

(** The sibling of C4 in [cf_hashset.hpp]: a full set is left alone. *)
Lemma hs_insert_into_full_set_is_noop fuel t hash value :
  m_num_elements t = m_capacity t -> _insert fuel t hash value = Some t.
Proof. intros Hfull. unfold _insert. now rewrite Hfull, Z.eqb_refl. Qed.

(** *** The set as a map with bounded loops *)

Lemma hs_lookup_true_sim fuel : forall t hash value pos d p,
  _lookup_pos_loop fuel t hash value pos d = Some (true, p) ->
  HashMap._lookup_pos_loop fuel (as_map t) hash value pos d = Some (true, p).
Proof.
  induction fuel as [|fuel IH]; intros t hash value pos d p Hrun;
    cbn [_lookup_pos_loop] in Hrun.
  - destruct (d <? m_capacity t); discriminate.
  - destruct (d <? m_capacity t); [|discriminate].
    cbn [HashMap._lookup_pos_loop].
    change (HashMap.hashes (as_map t)) with (hashes t).
    change (HashMap.keys (as_map t)) with (values t).
    change (HashMap._get_probe_distance (as_map t) pos (rd (hashes t) pos))
      with (_get_probe_distance t pos (rd (hashes t) pos)).
    change (HashMap.next_pos (as_map t) pos) with (next_pos t pos).
    change HashMap.EMPTY_HASH with EMPTY_HASH.
    destruct (rd (hashes t) pos =? EMPTY_HASH); [discriminate|].
    destruct (_ >? _); [discriminate|].
    destruct (_ && _); [exact Hrun|]. apply IH. exact Hrun.
Qed.

Lemma hs_lookup_sim fuel : forall t hash value pos d r,
  0 <= d -> d + Z.of_nat fuel <= m_capacity t -> m_capacity t < 2 ^ 32 ->
  HashMap._lookup_pos_loop fuel (as_map t) hash value pos d = Some r ->
  _lookup_pos_loop fuel t hash value pos d = Some r.
Proof.
  induction fuel as [|fuel IH]; intros t hash value pos d r Hd Hfuel Hc Hrun;
    [discriminate|].
  cbn [HashMap._lookup_pos_loop] in Hrun. cbn [_lookup_pos_loop].
  destruct (Z.ltb_spec d (m_capacity t)); [|lia].
  change (HashMap.hashes (as_map t)) with (hashes t) in Hrun.
  change (HashMap.keys (as_map t)) with (values t) in Hrun.
  change (HashMap._get_probe_distance (as_map t) pos (rd (hashes t) pos))
    with (_get_probe_distance t pos (rd (hashes t) pos)) in Hrun.
  change (HashMap.next_pos (as_map t) pos) with (next_pos t pos) in Hrun.
  change HashMap.EMPTY_HASH with EMPTY_HASH in Hrun.
  destruct (rd (hashes t) pos =? EMPTY_HASH); [exact Hrun|].
  destruct (_ >? _); [exact Hrun|].
  destruct (_ && _); [exact Hrun|].
  rewrite u32_small in * by lia. apply IH; try assumption; lia.
Qed.

Lemma hs_insert_sim fuel : forall t hash value pos d m',
  0 <= d -> d + Z.of_nat fuel <= m_capacity t -> m_capacity t < 2 ^ 32 ->
  HashMap.insert_loop fuel (as_map t) hash value value pos d = Some m' ->
  exists t', _insert_loop fuel t hash value pos d = Some t' /\ as_map t' = m'.
Proof.
  induction fuel as [|fuel IH]; intros t hash value pos d m' Hd Hfuel Hc Hrun;
    [discriminate|].
  cbn [HashMap.insert_loop] in Hrun. cbn [_insert_loop].
  destruct (Z.ltb_spec d (m_capacity t)); [|lia].
  change (HashMap.hashes (as_map t)) with (hashes t) in Hrun.
  change (HashMap.keys (as_map t)) with (values t) in Hrun.
  change (HashMap.values (as_map t)) with (values t) in Hrun.
  change (HashMap._get_probe_distance (as_map t) pos (rd (hashes t) pos))
    with (_get_probe_distance t pos (rd (hashes t) pos)) in Hrun.
  change (HashMap.next_pos (as_map t) pos) with (next_pos t pos) in Hrun.
  change HashMap.EMPTY_HASH with EMPTY_HASH in Hrun.
  change (HashMap.deleted (rd (hashes t) pos)) with (deleted (rd (hashes t) pos))
    in Hrun.
  change (HashMap.place (as_map t) pos hash value value)
    with (as_map (place t pos hash value)) in Hrun.
  change (HashMap.store (as_map t) pos hash value value)
    with (as_map (store t pos hash value)) in Hrun.
  destruct (rd (hashes t) pos =? EMPTY_HASH).
  { injection Hrun as <-. eauto. }
  assert (Hgpd : 0 <= _get_probe_distance t pos (rd (hashes t) pos))
    by (unfold _get_probe_distance, u32; apply Z.mod_pos_bound; lia).
  destruct (Z.ltb_spec (_get_probe_distance t pos (rd (hashes t) pos)) d).
  - destruct (deleted (rd (hashes t) pos)).
    { injection Hrun as <-. eauto. }
    rewrite u32_small in * by lia.
    apply IH; try assumption; cbn [m_capacity store]; lia.
  - rewrite u32_small in * by lia. apply IH; try assumption; lia.
Qed.

Lemma as_map_create s buffer_size (vs : list T) :
  as_map (create s buffer_size vs) = HashMap.create s 0 buffer_size vs vs.
Proof.
  unfold create, HashMap.create, as_map.
  cbn [m_num_elements m_capacity hashes values]. now rewrite Z.add_0_r.
Qed.

(** X17. [has] of the robin-hood set returns on every table of capacity
    below 2^32 after at most capacity probes, and when it answers true
    some slot holds the normalised hash and the value. *)
Theorem hs_has_returns_and_is_sound t hash value :
  0 < m_capacity t < 2 ^ 32 ->
  exists found, has (Z.to_nat (m_capacity t)) t hash value = Some found /\
    (found = true ->
     exists p, 0 <= p < m_capacity t /\ rd (hashes t) p = _hash hash /\
       rd (values t) p = value /\ _hash hash <> EMPTY_HASH).
Proof.
  intros Hc.
  destruct (hs_lookup_pos_probes_at_most_capacity t (_hash hash) value Hc)
    as (found & p & Hlk).
  exists found. unfold has. rewrite Hlk. split; [reflexivity|].
  intros ->. exists p. unfold _lookup_pos in Hlk.
  apply hs_lookup_true_sim in Hlk.
  exact (lookup_pos_found (Z.to_nat (m_capacity t)) (as_map t) (_hash hash)
           value p (proj1 Hc) Hlk).
Qed.

(** One [insert] into a set whose map reading is consistent. *)
Lemma hs_insert_step t hash value :
  HashMap.consistent (as_map t) -> HashMap.normalisable hash ->
  HashMap.occupied (hashes t) < m_capacity t ->
  exists t', insert (Z.to_nat (m_capacity t)) t hash value = Some t' /\
    HashMap.consistent (as_map t') /\ m_capacity t' = m_capacity t /\
    HashMap.occupied (hashes t') <= HashMap.occupied (hashes t) + 1 /\
    (forall h v x, HashMap.contains (as_map t') h v x <->
       HashMap.contains (as_map t) h v x \/
       (h = _hash hash /\ v = value /\ x = value)) /\
    (HashMap.absent (as_map t) (_hash hash) value ->
     HashMap.occupied (hashes t') = HashMap.occupied (hashes t) + 1).
Proof.
  intros Hcs [Hr Hne] Hfree.
  pose proof (HashMap.rh_capacity _ (HashMap.cs_robin_hood _ Hcs)) as Hc.
  change (HashMap.m_capacity (as_map t)) with (m_capacity t) in Hc.
  pose proof (hm_hash_live hash Hr Hne) as Hl.
  change (HashMap._hash hash) with (_hash hash) in Hl.
  destruct (hs_lookup_pos_probes_at_most_capacity t (_hash hash) value
              ltac:(lia)) as (found & p & Hlk).
  unfold insert. rewrite Hlk. destruct found.
  - (* the value is there: nothing happens *)
    exists t. split; [reflexivity|]. split; [exact Hcs|].
    split; [reflexivity|]. split; [lia|].
    unfold _lookup_pos in Hlk. apply hs_lookup_true_sim in Hlk.
    destruct (lookup_pos_found (Z.to_nat (m_capacity t)) (as_map t) (_hash hash)
                value p (proj1 Hc) Hlk) as (Hp & Hh & Hk & Hnz).
    assert (Hheld : HashMap.holds (as_map t) p (_hash hash) value value)
      by (unfold HashMap.holds; auto).
    split.
    + intros h v x. split; [now left|].
      intros [Hin|(-> & -> & ->)]; [exact Hin|]. now exists p.
    + intros Ha. now destruct (Ha p value).
  - (* the value is new: the insertion of the map, within the bound *)
    assert (Ha : HashMap.absent (as_map t) (_hash hash) value).
    { intros q x (Hq & _ & Hh & Hk & _).
      pose proof (lookup_pos_complete (Z.to_nat (m_capacity t)) (as_map t)
                    (_hash hash) value q (HashMap.cs_robin_hood _ Hcs)
                    (HashMap.cs_unique_keys _ Hcs) Hl Hq Hh Hk ltac:(reflexivity))
        as Hfound.
      unfold HashMap._lookup_pos in Hfound.
      apply hs_lookup_sim in Hfound; [|lia|cbn [m_capacity]; lia|lia].
      unfold _lookup_pos in Hlk.
      change (HashMap.m_capacity (as_map t)) with (m_capacity t) in Hfound.
      congruence. }
    destruct (insert_new_key (Z.to_nat (m_capacity t)) (as_map t) (_hash hash)
                value value Hcs Hl Ha Hfree ltac:(reflexivity))
      as (m' & Hins & Hcs' & Hcap & Hocc & Hcont).
    unfold HashMap.insert in Hins.
    apply hs_insert_sim in Hins; [|lia|lia|lia].
    destruct Hins as (t' & Hrun & <-).
    exists t'. split.
    { unfold _insert.
      pose proof (HashMap.wf_count _ (HashMap.cs_well_formed _ Hcs)) as Hn.
      change (HashMap.m_num_elements (as_map t)) with (m_num_elements t) in Hn.
      change (HashMap.hashes (as_map t)) with (hashes t) in Hn.
      destruct (Z.eqb_spec (m_num_elements t) (m_capacity t)); [lia|].
      exact Hrun. }
    split; [exact Hcs'|]. split; [exact Hcap|].
    change (HashMap.hashes (as_map t')) with (hashes t') in Hocc.
    change (HashMap.hashes (as_map t)) with (hashes t) in Hocc.
    split; [lia|]. split; [exact Hcont|]. intros _. exact Hocc.
Qed.

Lemma hs_insert_all_contents : forall ops t,
  HashMap.consistent (as_map t) ->
  Forall (fun op => HashMap.normalisable op.1) ops ->
  HashMap.occupied (hashes t) + Z.of_nat (length ops) <= m_capacity t ->
  exists t', insert_all (Z.to_nat (m_capacity t)) t ops = Some t' /\
    HashMap.consistent (as_map t') /\ m_capacity t' = m_capacity t /\
    HashMap.occupied (hashes t') <=
      HashMap.occupied (hashes t) + Z.of_nat (length ops) /\
    (forall h v x, HashMap.contains (as_map t') h v x <->
       HashMap.contains (as_map t) h v x \/
       (exists h0, (h0, v) ∈ ops /\ h = _hash h0 /\ x = v)).
Proof.
  induction ops as [|[h0 v0] ops IH]; intros t Hcs Hok Hroom.
  - exists t. split; [reflexivity|]. split; [exact Hcs|].
    split; [reflexivity|]. split; [cbn [length]; lia|].
    intros h v x. split; [now left|].
    intros [Hin|(h1 & Hin & _)]; [exact Hin|]. now apply elem_of_nil in Hin.
  - cbn [length] in Hroom. inversion Hok as [|op ops' Hop Hops]; subst.
    destruct (hs_insert_step t h0 v0 Hcs Hop ltac:(lia))
      as (t1 & Hins & Hcs1 & Hcap1 & Hocc1 & Hcont1 & _).
    destruct (IH t1 Hcs1 Hops ltac:(lia))
      as (t' & Hall & Hcs' & Hcap' & Hocc' & Hcont').
    exists t'. split.
    { cbn [insert_all]. rewrite Hins. rewrite <- Hcap1. exact Hall. }
    split; [exact Hcs'|]. split; [lia|]. split; [cbn [length]; lia|].
    intros h v x. rewrite Hcont', Hcont1. split.
    + intros [[Hin|(-> & -> & ->)]|(h1 & Hin & Hh & Hx)].
      * now left.
      * right. exists h0. split; [apply elem_of_cons; now left|auto].
      * right. exists h1. split; [apply elem_of_cons; now right|auto].
    + intros [Hin|(h1 & Hin & Hh & Hx)]; [now left; left|].
      apply elem_of_cons in Hin as [[= -> ->]|Hin].
      * left. right. auto.
      * right. exists h1. auto.
Qed.

(** X18. [has] tells what was inserted: after any sequence of [insert]
    calls on a freshly created set (capacity between 1 and 2^31, no caller
    hash [0x80000000], at most capacity calls) every call has returned
    within the bound of its loops, and [has(hash, value)] answers true if
    the value was inserted under a hash with the same normalised hash, and
    false if it was not. *)
Theorem hs_has_tells_what_was_inserted s buffer_size (vs : list T) ops :
  0 < m_capacity (create s buffer_size vs) <= 2 ^ 31 ->
  Forall (fun op => HashMap.normalisable op.1) ops ->
  Z.of_nat (length ops) <= m_capacity (create s buffer_size vs) ->
  exists t,
    insert_all (Z.to_nat (m_capacity (create s buffer_size vs)))
      (create s buffer_size vs) ops = Some t /\
    m_capacity t = m_capacity (create s buffer_size vs) /\
    forall h v, HashMap.uint32 h ->
      ((exists h0, (h0, v) ∈ ops /\ _hash h0 = _hash h) ->
       has (Z.to_nat (m_capacity t)) t h v = Some true) /\
      ((forall h0, (h0, v) ∈ ops -> _hash h0 <> _hash h) ->
       has (Z.to_nat (m_capacity t)) t h v = Some false).
Proof.
  intros Hc Hok Hroom. set (t0 := create s buffer_size vs) in *.
  assert (Hmap0 : as_map t0 = HashMap.create s 0 buffer_size vs vs)
    by apply as_map_create.
  destruct (create_consistent (K:=T) (V:=T) s 0 buffer_size vs vs)
    as (Hcs0 & Hocc0 & Habs0).
  { rewrite <- Hmap0. exact Hc. }
  rewrite <- Hmap0 in Hcs0, Hocc0, Habs0.
  change (HashMap.hashes (as_map t0)) with (hashes t0) in Hocc0.
  destruct (hs_insert_all_contents ops t0 Hcs0 Hok ltac:(lia))
    as (t & Hall & Hcs & Hcap & _ & Hcont).
  exists t. split; [exact Hall|]. split; [exact Hcap|].
  intros h v Hu.
  assert (Hct : 0 < m_capacity t < 2 ^ 32) by lia.
  destruct (hs_lookup_pos_probes_at_most_capacity t (_hash h) v Hct)
    as (found & p & Hlk).
  unfold has. rewrite Hlk. split.
  - intros (h0 & Hin & Hh).
    assert (Hl : HashMap.live_hash (_hash h)).
    { rewrite <- Hh. rewrite Forall_forall in Hok.
      destruct (Hok _ Hin) as [Hr Hne]. exact (hm_hash_live h0 Hr Hne). }
    assert (Hheld : HashMap.contains (as_map t) (_hash h) v v).
    { apply Hcont. right. exists h0. auto. }
    destruct Hheld as (q & Hq & _ & Hhq & Hkq & _).
    pose proof (lookup_pos_complete (Z.to_nat (m_capacity t)) (as_map t)
                  (_hash h) v q (HashMap.cs_robin_hood _ Hcs)
                  (HashMap.cs_unique_keys _ Hcs) Hl Hq Hhq Hkq ltac:(reflexivity))
      as Hfound.
    unfold HashMap._lookup_pos in Hfound.
    apply hs_lookup_sim in Hfound; [|lia|cbn [m_capacity]; lia|lia].
    unfold _lookup_pos in Hlk.
    change (HashMap.m_capacity (as_map t)) with (m_capacity t) in Hfound.
    congruence.
  - intros Hnot. destruct found; [exfalso|reflexivity].
    unfold _lookup_pos in Hlk. apply hs_lookup_true_sim in Hlk.
    destruct (lookup_pos_found (Z.to_nat (m_capacity t)) (as_map t) (_hash h)
                v p ltac:(cbn; lia) Hlk) as (Hp & Hh & Hk & Hnz).
    assert (Hheld : HashMap.contains (as_map t) (_hash h) v v).
    { exists p. unfold HashMap.holds. auto. }
    apply Hcont in Hheld as [[q Hq]|(h0 & Hin & Hh0 & _)].
    + now apply (Habs0 (_hash h) v q v).
    + apply (Hnot h0 Hin). congruence.
Qed.

(** A set built by [insert] calls on a fresh buffer reads as a consistent
    map. *)
Lemma hs_built_consistent s buffer_size (vs : list T) ops t :
  0 < m_capacity (create s buffer_size vs) <= 2 ^ 31 ->
  Forall (fun op => HashMap.normalisable op.1) ops ->
  Z.of_nat (length ops) <= m_capacity (create s buffer_size vs) ->
  insert_all (Z.to_nat (m_capacity (create s buffer_size vs)))
    (create s buffer_size vs) ops = Some t ->
  HashMap.consistent (as_map t).
Proof.
  intros Hc Hok Hroom Hrun.
  destruct (create_consistent (K:=T) (V:=T) s 0 buffer_size vs vs)
    as (Hcs0 & Hocc0 & _).
  { rewrite <- as_map_create. exact Hc. }
  rewrite <- as_map_create in Hcs0, Hocc0.
  change (HashMap.hashes (as_map (create s buffer_size vs)))
    with (hashes (create s buffer_size vs)) in Hocc0.
  destruct (hs_insert_all_contents ops (create s buffer_size vs) Hcs0 Hok
              ltac:(lia)) as (t' & Hall & Hcs & _).
  congruence.
Qed.

(** *** [remove] on the set *)

Lemma hs_lookup_loop_mark_deleted fuel : forall t p hash value pos d,
  0 <= p < Z.of_nat (length (hashes t)) -> 0 <= pos ->
  rd (hashes t) p <> EMPTY_HASH ->
  0 <= hash < 2 ^ 31 ->
  ~ (rd (hashes t) p = hash /\ rd (values t) p = value) ->
  _lookup_pos_loop fuel (mark_deleted t p) hash value pos d =
  _lookup_pos_loop fuel t hash value pos d.
Proof.
  induction fuel as [|fuel IH]; intros t p hash value pos d Hp Hpos Hocc Hh Hother;
    cbn [_lookup_pos_loop]; change (m_capacity (mark_deleted t p)) with (m_capacity t);
    [reflexivity|].
  destruct (d <? m_capacity t); [|reflexivity].
  assert (Hnext : 0 <= next_pos t pos)
    by (unfold next_pos, u32; apply Z.mod_pos_bound; lia).
  change (next_pos (mark_deleted t p) pos) with (next_pos t pos).
  change (values (mark_deleted t p)) with (values t).
  destruct (Z.eq_dec pos p) as [->|Hne].
  - cbn [hashes mark_deleted]. rewrite rd_wr_eq by lia.
    change (_get_probe_distance (mark_deleted t p) p
              (Z.lor (rd (hashes t) p) DELETED_HASH_BIT))
      with (HashMap._get_probe_distance (HashMap.mark_deleted (as_map t) p) p
              (Z.lor (rd (hashes t) p) HashMap.DELETED_HASH_BIT)).
    rewrite gpd_mark_deleted.
    change (HashMap._get_probe_distance (as_map t) p (rd (hashes t) p))
      with (_get_probe_distance t p (rd (hashes t) p)).
    assert (Hlor : Z.lor (rd (hashes t) p) DELETED_HASH_BIT <> EMPTY_HASH).
    { intros H1. apply Z.lor_eq_0_iff in H1. tauto. }
    apply Z.eqb_neq in Hlor. rewrite Hlor.
    rewrite (proj2 (Z.eqb_neq _ _) Hocc).
    destruct (_ >? _); [reflexivity|].
    assert (Hm1 : (Z.lor (rd (hashes t) p) DELETED_HASH_BIT =? hash) = false).
    { apply Z.eqb_neq. intros H1.
      assert (Hb : Z.testbit (Z.lor (rd (hashes t) p) DELETED_HASH_BIT) 31 = true)
        by (rewrite (lor_deleted_bits (rd (hashes t) p) 31); apply orb_true_r).
      rewrite H1, testbit31_range in Hb by lia.
      apply Z.leb_le in Hb. lia. }
    assert (Hm2 : (rd (hashes t) p =? hash) && bool_decide (rd (values t) p = value)
                  = false).
    { destruct (Z.eqb_spec (rd (hashes t) p) hash) as [He|]; [|reflexivity].
      cbn [andb]. apply bool_decide_eq_false. tauto. }
    rewrite Hm1, Hm2. cbn [andb]. apply IH; assumption.
  - cbn [hashes mark_deleted]. rewrite rd_wr_ne by lia.
    change (_get_probe_distance (mark_deleted t p) pos (rd (hashes t) pos))
      with (_get_probe_distance t pos (rd (hashes t) pos)).
    destruct (_ =? EMPTY_HASH); [reflexivity|].
    destruct (_ >? _); [reflexivity|].
    destruct (_ && _); [reflexivity|].
    apply IH; assumption.
Qed.

(** X21. [remove] on the robin-hood set takes out that value and no
    other: on a table (capacity between 1 and 2^31) in which no two
    occupied slots hold the same hash and value, [remove(hash, value)]
    returns, [has(hash, value)] answers false afterwards, and [has] of any
    value stored under another pair answers as it did before. *)
Theorem hs_remove_takes_out_only_that_value t hash value :
  0 < m_capacity t <= 2 ^ 31 ->
  Z.of_nat (length (hashes t)) = m_capacity t ->
  HashMap.unique_keys (as_map t) -> HashMap.uint32 hash ->
  exists t', remove (Z.to_nat (m_capacity t)) t hash value = Some t' /\
    has (Z.to_nat (m_capacity t)) t' hash value = Some false /\
    forall hash' value', HashMap.uint32 hash' ->
      (_hash hash', value') <> (_hash hash, value) ->
      has (Z.to_nat (m_capacity t)) t' hash' value' =
      has (Z.to_nat (m_capacity t)) t hash' value'.
Proof.
  intros Hc Hlen Huniq Hu.
  pose proof (hm_hash_range hash Hu) as Hrange.
  change (HashMap._hash hash) with (_hash hash) in Hrange.
  destruct (hs_lookup_pos_probes_at_most_capacity t (_hash hash) value
              ltac:(lia)) as (found & p & Hlk).
  unfold remove. rewrite Hlk. destruct found.
  2:{ exists t. split; [reflexivity|]. split; [|reflexivity].
      unfold has. now rewrite Hlk. }
  eexists. split; [reflexivity|].
  pose proof Hlk as Hheld. unfold _lookup_pos in Hheld.
  apply hs_lookup_true_sim in Hheld.
  destruct (lookup_pos_found (Z.to_nat (m_capacity t)) (as_map t) (_hash hash)
              value p (proj1 Hc) Hheld) as (Hp & Hh & Hk & Hnz).
  change (HashMap.m_capacity (as_map t)) with (m_capacity t) in Hp.
  change (HashMap.hashes (as_map t)) with (hashes t) in Hh.
  change (HashMap.keys (as_map t)) with (values t) in Hk.
  split.
  - destruct (hs_lookup_pos_probes_at_most_capacity (mark_deleted t p)
                (_hash hash) value ltac:(cbn [m_capacity mark_deleted]; lia))
      as (found & q & Hlk').
    change (m_capacity (mark_deleted t p)) with (m_capacity t) in Hlk'.
    unfold has. rewrite Hlk'. destruct found; [exfalso|reflexivity].
    unfold _lookup_pos in Hlk'. apply hs_lookup_true_sim in Hlk'.
    destruct (lookup_pos_found (Z.to_nat (m_capacity t))
                (as_map (mark_deleted t p)) (_hash hash) value q (proj1 Hc) Hlk')
      as (Hq & Hh' & Hk' & _).
    change (HashMap.m_capacity (as_map (mark_deleted t p)))
      with (m_capacity t) in Hq.
    change (HashMap.hashes (as_map (mark_deleted t p)))
      with (wr (hashes t) p (Z.lor (rd (hashes t) p) DELETED_HASH_BIT)) in Hh'.
    change (HashMap.keys (as_map (mark_deleted t p))) with (values t) in Hk'.
    destruct (Z.eq_dec q p) as [->|Hqp].
    + rewrite rd_wr_eq in Hh' by lia.
      assert (Hb : Z.testbit (Z.lor (rd (hashes t) p) DELETED_HASH_BIT) 31 = true)
        by (rewrite (lor_deleted_bits (rd (hashes t) p) 31); apply orb_true_r).
      rewrite Hh', testbit31_range in Hb by lia.
      apply Z.leb_le in Hb. lia.
    + rewrite rd_wr_ne in Hh' by lia.
      apply Hqp. symmetry. apply Huniq; try assumption.
      * change (rd (hashes t) p <> HashMap.EMPTY_HASH). rewrite Hh. exact Hnz.
      * change (rd (hashes t) p = rd (hashes t) q). congruence.
      * change (rd (values t) p = rd (values t) q). congruence.
  - intros hash' value' Hu' Hother. unfold has, _lookup_pos.
    change (m_capacity (mark_deleted t p)) with (m_capacity t).
    rewrite hs_lookup_loop_mark_deleted; [reflexivity|lia| | | |].
    + unfold u32. apply Z.mod_pos_bound. lia.
    + rewrite Hh. exact Hnz.
    + apply (hm_hash_range hash' Hu').
    + intros [H1 H2]. apply Hother. congruence.
Qed.

(** *** [copy] of the set *)

(** On a set whose map reading is consistent, [has] decides whether a
    slot holds the value. *)
Lemma hs_has_of_consistent t h v :
  HashMap.consistent (as_map t) -> HashMap.uint32 h ->
  (HashMap.contains (as_map t) (_hash h) v v ->
   has (Z.to_nat (m_capacity t)) t h v = Some true) /\
  (HashMap.absent (as_map t) (_hash h) v ->
   has (Z.to_nat (m_capacity t)) t h v = Some false).
Proof.
  intros Hcs Hu.
  pose proof (HashMap.rh_capacity _ (HashMap.cs_robin_hood _ Hcs)) as Hc.
  change (HashMap.m_capacity (as_map t)) with (m_capacity t) in Hc.
  destruct (hs_lookup_pos_probes_at_most_capacity t (_hash h) v ltac:(lia))
    as (found & p & Hlk).
  unfold has. rewrite Hlk. unfold _lookup_pos in Hlk. split.
  - intros (q & Hq & Hnz & Hhq & Hkq & _).
    assert (Hl : HashMap.live_hash (_hash h)).
    { pose proof (hm_hash_range h Hu) as Hr.
      change (HashMap._hash h) with (_hash h) in Hr.
      unfold HashMap.live_hash, HashMap.EMPTY_HASH in *. lia. }
    pose proof (lookup_pos_complete (Z.to_nat (m_capacity t)) (as_map t)
                  (_hash h) v q (HashMap.cs_robin_hood _ Hcs)
                  (HashMap.cs_unique_keys _ Hcs) Hl Hq Hhq Hkq ltac:(reflexivity))
      as Hfound.
    unfold HashMap._lookup_pos in Hfound.
    apply hs_lookup_sim in Hfound; [|lia|cbn [m_capacity]; lia|lia].
    change (HashMap.m_capacity (as_map t)) with (m_capacity t) in Hfound.
    congruence.
  - intros Ha. destruct found; [exfalso|reflexivity].
    apply hs_lookup_true_sim in Hlk.
    destruct (lookup_pos_found (Z.to_nat (m_capacity t)) (as_map t) (_hash h)
                v p (proj1 Hc) Hlk) as (Hp & Hh & Hk & Hnz).
    apply (Ha p v). unfold HashMap.holds. auto.
Qed.

Lemma hs_contains_or_absent t h v :
  HashMap.consistent (as_map t) -> HashMap.uint32 h ->
  HashMap.contains (as_map t) (_hash h) v v \/
  HashMap.absent (as_map t) (_hash h) v.
Proof.
  intros Hcs Hu.
  destruct (hs_has_of_consistent t h v Hcs Hu) as [Hyes _].
  pose proof (HashMap.rh_capacity _ (HashMap.cs_robin_hood _ Hcs)) as Hc.
  change (HashMap.m_capacity (as_map t)) with (m_capacity t) in Hc.
  destruct (hs_lookup_pos_probes_at_most_capacity t (_hash h) v ltac:(lia))
    as (found & p & Hlk).
  destruct found.
  - left. unfold _lookup_pos in Hlk. apply hs_lookup_true_sim in Hlk.
    destruct (lookup_pos_found (Z.to_nat (m_capacity t)) (as_map t) (_hash h)
                v p (proj1 Hc) Hlk) as (Hp & Hh & Hk & Hnz).
    exists p. unfold HashMap.holds. auto.
  - right. intros q x (Hq & Hnz & Hhq & Hkq & Hvq).
    assert (Hin : HashMap.contains (as_map t) (_hash h) v v).
    { exists q. unfold HashMap.holds. auto. }
    apply Hyes in Hin. unfold has in Hin. rewrite Hlk in Hin. discriminate.
Qed.

Lemma hs_has_agree t t' h v :
  HashMap.consistent (as_map t) -> HashMap.consistent (as_map t') ->
  HashMap.uint32 h ->
  (forall x, HashMap.contains (as_map t') (_hash h) v x <->
             HashMap.contains (as_map t) (_hash h) v x) ->
  has (Z.to_nat (m_capacity t')) t' h v = has (Z.to_nat (m_capacity t)) t h v.
Proof.
  intros Hcs Hcs' Hu Hsame.
  destruct (hs_has_of_consistent t h v Hcs Hu) as [Hyes Hno].
  destruct (hs_has_of_consistent t' h v Hcs' Hu) as [Hyes' Hno'].
  destruct (hs_contains_or_absent t h v Hcs Hu) as [Hin|Hout].
  - rewrite (Hyes Hin). apply Hyes'. apply Hsame. exact Hin.
  - rewrite (Hno Hout). apply Hno'. intros q x Hq.
    assert (HashMap.contains (as_map t') (_hash h) v x) as Hc' by (now exists q).
    apply Hsame in Hc' as [q' Hq']. now apply (Hout q' x).
Qed.

Lemma hs_copy_loop_contents (src : @hashset T) n : forall i (new : @hashset T),
  HashMap.consistent (as_map src) -> 0 <= i ->
  i + Z.of_nat n = m_capacity src ->
  HashMap.consistent (as_map new) ->
  (forall p, i <= p < m_capacity src -> rd (hashes src) p <> EMPTY_HASH ->
     HashMap.absent (as_map new) (rd (hashes src) p) (rd (values src) p)) ->
  HashMap.occupied (hashes new)
    + HashMap.occupied (drop (Z.to_nat i) (hashes src)) <= m_capacity new ->
  exists new',
    copy_loop (Z.to_nat (m_capacity new)) src (seqZ i (Z.of_nat n)) new
      = Some new' /\
    HashMap.consistent (as_map new') /\ m_capacity new' = m_capacity new /\
    HashMap.occupied (hashes new')
      = HashMap.occupied (hashes new)
        + HashMap.occupied (drop (Z.to_nat i) (hashes src)) /\
    (forall h v x, HashMap.contains (as_map new') h v x <->
       HashMap.contains (as_map new) h v x \/
       exists p, i <= p /\ HashMap.holds (as_map src) p h v x).
Proof.
  induction n as [|n IH]; intros i new Hsrc Hi Hn Hnew Habs Hroom.
  - pose proof (HashMap.wf_hashes _ (HashMap.cs_well_formed _ Hsrc)) as Hlen.
    change (HashMap.hashes (as_map src)) with (hashes src) in Hlen.
    change (HashMap.m_capacity (as_map src)) with (m_capacity src) in Hlen.
    exists new. cbn [seqZ copy_loop]. rewrite drop_ge by lia.
    cbn [HashMap.occupied]. split; [reflexivity|]. split; [assumption|].
    split; [reflexivity|]. split; [lia|]. intros h v x. split; [now left|].
    intros [Hc|(p & Hp & Hholds)]; [assumption|].
    destruct Hholds as (Hp' & _).
    change (HashMap.m_capacity (as_map src)) with (m_capacity src) in Hp'. lia.
  - pose proof (HashMap.wf_hashes _ (HashMap.cs_well_formed _ Hsrc)) as Hlen.
    change (HashMap.hashes (as_map src)) with (hashes src) in Hlen.
    change (HashMap.m_capacity (as_map src)) with (m_capacity src) in Hlen.
    rewrite seqZ_cons by lia.
    replace (Z.pred (Z.of_nat (S n))) with (Z.of_nat n) by lia.
    replace (Z.succ i) with (i + 1) by lia. cbn [copy_loop].
    rewrite occupied_drop in Hroom |- * by lia.
    change HashMap.EMPTY_HASH with EMPTY_HASH in Hroom |- *.
    destruct (Z.eqb_spec (rd (hashes src) i) EMPTY_HASH) as [He|Hne].
    + destruct (IH (i + 1) new) as (new' & Hrun & Hcs' & Hcap' & Hocc' & Hcont');
        try assumption; try lia.
      { intros p Hp. apply Habs. lia. }
      exists new'. split; [assumption|]. split; [assumption|].
      split; [assumption|]. split; [lia|].
      intros h v x. rewrite Hcont'. split.
      * intros [Hc|(p & Hp & Hholds)]; [now left|].
        right. exists p. split; [lia|assumption].
      * intros [Hc|(p & Hp & Hholds)]; [now left|].
        right. exists p. split; [|assumption].
        destruct (Z.eq_dec p i) as [->|]; [|lia].
        destruct Hholds as (_ & Hnz & Hh & _).
        change (HashMap.hashes (as_map src)) with (hashes src) in Hh.
        unfold HashMap.EMPTY_HASH, EMPTY_HASH in *. congruence.
    + destruct (HashMap.rh_hashes _ (HashMap.cs_robin_hood _ Hsrc) i ltac:(cbn; lia))
        as [Hz|Hlive]; [contradiction|].
      change (HashMap.hashes (as_map src)) with (hashes src) in Hlive.
      pose proof (hm_live_hash_not_deleted _ Hlive) as Hnd.
      change (HashMap.deleted (rd (hashes src) i))
        with (deleted (rd (hashes src) i)) in Hnd.
      rewrite Hnd.
      assert (Hplain : _hash (rd (hashes src) i) = rd (hashes src) i).
      { apply (hm_hash_plain (rd (hashes src) i)).
        - unfold HashMap.live_hash in Hlive. lia.
        - rewrite testbit31_range by (unfold HashMap.live_hash in Hlive; lia).
          apply Z.leb_gt. unfold HashMap.live_hash in Hlive. lia. }
      destruct (hs_insert_step new (rd (hashes src) i) (rd (values src) i))
        as (new1 & Hins & Hcs1 & Hcap1 & _ & Hcont1 & Hocc1); try assumption.
      { split; [unfold HashMap.live_hash in Hlive; lia|].
        unfold HashMap.live_hash in Hlive.
        change HashMap.DELETED_HASH_BIT with (2 ^ 31). lia. }
      { pose proof (occupied_bounds (drop (Z.to_nat (i + 1)) (hashes src))). lia. }
      rewrite Hins. rewrite Hplain in Hcont1, Hocc1.
      specialize (Hocc1 (Habs i ltac:(lia) Hne)).
      destruct (IH (i + 1) new1) as (new' & Hrun & Hcs' & Hcap' & Hocc' & Hcont');
        try assumption; try lia.
      { intros p Hp Hocc q x Hholds.
        assert (HashMap.contains (as_map new1) (rd (hashes src) p)
                  (rd (values src) p) x) as Hc by (now exists q).
        apply Hcont1 in Hc as [[q' Hq']|(Hh & Hk & _)].
        - apply (Habs p ltac:(lia) Hocc q' x). exact Hq'.
        - assert (p = i); [|lia].
          apply (HashMap.cs_unique_keys _ Hsrc); try assumption; cbn; lia. }
      exists new'. split.
      { rewrite <- Hcap1. exact Hrun. }
      split; [assumption|]. split; [congruence|]. split; [lia|].
      intros h v x. rewrite Hcont', Hcont1. split.
      * intros [[Hc|(-> & -> & ->)]|(p & Hp & Hholds)].
        -- now left.
        -- right. exists i. split; [lia|]. unfold HashMap.holds.
           repeat split; cbn; (assumption || lia || reflexivity).
        -- right. exists p. split; [lia|assumption].
      * intros [Hc|(p & Hp & Hholds)]; [now left; left|].
        destruct (Z.eq_dec p i) as [->|].
        -- left. right. destruct Hholds as (_ & _ & <- & <- & <-). auto.
        -- right. exists p. split; [lia|assumption].
Qed.

(** X22. A robin-hood set built by [insert] calls on a fresh buffer (no
    caller hash [0x80000000], at most capacity calls) and copied into a
    buffer with room for its elements: [copy] returns, the copy counts as
    many elements as the source, and [has] answers on the copy as it does
    on the source. *)
Theorem hs_copy_of_a_built_set s buffer_size (vs : list T) ops (src : @hashset T)
    buffer_size' (vs' : list T) :
  0 < m_capacity (create s buffer_size vs) <= 2 ^ 31 ->
  Forall (fun op => HashMap.normalisable op.1) ops ->
  Z.of_nat (length ops) <= m_capacity (create s buffer_size vs) ->
  insert_all (Z.to_nat (m_capacity (create s buffer_size vs)))
    (create s buffer_size vs) ops = Some src ->
  0 < m_capacity (create s buffer_size' vs') <= 2 ^ 31 ->
  m_num_elements src <= m_capacity (create s buffer_size' vs') ->
  exists t',
    copy s (Z.to_nat (m_capacity (create s buffer_size' vs'))) src
      buffer_size' vs' = Some t' /\
    m_num_elements t' = m_num_elements src /\
    forall h v, HashMap.uint32 h ->
      has (Z.to_nat (m_capacity t')) t' h v =
      has (Z.to_nat (m_capacity src)) src h v.
Proof.
  intros Hc Hok Hlen Hbuilt Hc' Hroom.
  pose proof (hs_built_consistent s buffer_size vs ops src Hc Hok Hlen Hbuilt)
    as Hsrc.
  destruct (create_consistent (K:=T) (V:=T) s 0 buffer_size' vs' vs')
    as (Hnew & Hocc0 & Habs0).
  { rewrite <- as_map_create. exact Hc'. }
  rewrite <- as_map_create in Hnew, Hocc0, Habs0.
  change (HashMap.hashes (as_map (create s buffer_size' vs')))
    with (hashes (create s buffer_size' vs')) in Hocc0.
  pose proof (HashMap.rh_capacity _ (HashMap.cs_robin_hood _ Hsrc)) as Hcs.
  change (HashMap.m_capacity (as_map src)) with (m_capacity src) in Hcs.
  pose proof (HashMap.wf_count _ (HashMap.cs_well_formed _ Hsrc)) as Hcount.
  change (HashMap.m_num_elements (as_map src)) with (m_num_elements src) in Hcount.
  change (HashMap.hashes (as_map src)) with (hashes src) in Hcount.
  destruct (hs_copy_loop_contents src (Z.to_nat (m_capacity src)) 0
              (create s buffer_size' vs'))
    as (t' & Hrun & Hcs' & Hcap' & Hocc' & Hcont'); try assumption; try lia.
  { intros p _ _. apply Habs0. }
  { change (Z.to_nat 0) with 0%nat. rewrite drop_0. lia. }
  rewrite Z2Nat.id in Hrun by lia.
  change (Z.to_nat 0) with 0%nat in Hocc'. rewrite drop_0 in Hocc'.
  exists t'. split; [exact Hrun|]. split.
  { pose proof (HashMap.wf_count _ (HashMap.cs_well_formed _ Hcs')) as Hcount'.
    change (HashMap.m_num_elements (as_map t')) with (m_num_elements t') in Hcount'.
    change (HashMap.hashes (as_map t')) with (hashes t') in Hcount'. lia. }
  intros h v Hu. apply hs_has_agree; try assumption.
  intros x. rewrite Hcont'. split.
  - intros [[q Hq]|(p & _ & Hp)]; [now destruct (Habs0 (_hash h) v q x)|].
    now exists p.
  - intros [p Hp]. right. exists p. split; [|exact Hp].
    destruct Hp as (Hp & _). lia.
Qed.

(** *** [iter_next] of the set *)

Lemma hs_iter_next_loop_cases n : forall t i it value,
  (exists p, i <= p < i + Z.of_nat n /\
     rd (hashes t) p <> EMPTY_HASH /\ deleted (rd (hashes t) p) = false /\
     (forall q, i <= q < p ->
        rd (hashes t) q = EMPTY_HASH \/ deleted (rd (hashes t) q) = true) /\
     iter_next_loop n t i it value
       = (true, {| offset := p + 1 |}, rd (values t) p)) \/
  ((forall q, i <= q < i + Z.of_nat n ->
      rd (hashes t) q = EMPTY_HASH \/ deleted (rd (hashes t) q) = true) /\
   iter_next_loop n t i it value = (false, it, value)).
Proof.
  induction n as [|n IH]; intros t i it value.
  - right. split; [intros; lia|reflexivity].
  - cbn [iter_next_loop].
    destruct (Z.eqb_spec (rd (hashes t) i) EMPTY_HASH) as [He|Hne].
    + destruct (IH t (i + 1) it value)
        as [(p & Hp & Hocc & Hlive & Hbefore & Hrun)|[Hall Hrun]].
      * left. exists p. split; [lia|]. split; [exact Hocc|].
        split; [exact Hlive|]. split; [|exact Hrun].
        intros q Hq. destruct (Z.eq_dec q i) as [->|]; [now left|].
        apply Hbefore. lia.
      * right. split; [|exact Hrun].
        intros q Hq. destruct (Z.eq_dec q i) as [->|]; [now left|].
        apply Hall. lia.
    + destruct (deleted (rd (hashes t) i)) eqn:Hd.
      * destruct (IH t (i + 1) it value)
          as [(p & Hp & Hocc & Hlive & Hbefore & Hrun)|[Hall Hrun]].
        -- left. exists p. split; [lia|]. split; [exact Hocc|].
           split; [exact Hlive|]. split; [|exact Hrun].
           intros q Hq. destruct (Z.eq_dec q i) as [->|]; [now right|].
           apply Hbefore. lia.
        -- right. split; [|exact Hrun].
           intros q Hq. destruct (Z.eq_dec q i) as [->|]; [now right|].
           apply Hall. lia.
      * left. exists i. split; [lia|]. split; [exact Hne|].
        split; [exact Hd|]. split; [intros; lia|reflexivity].
Qed.

(** X23. [iter_next] of the robin-hood set, for any table and any
    cursor: it hands out the value of the first live slot (not EMPTY,
    DELETED bit clear) at or after the cursor and moves the cursor just
    behind it; when there is none it reports the end and leaves the value
    and the cursor as they were. *)
Theorem hs_iter_next_finds_the_next_live_slot t it value :
  (exists p, offset it <= p < m_capacity t /\
     rd (hashes t) p <> EMPTY_HASH /\ deleted (rd (hashes t) p) = false /\
     (forall q, offset it <= q < p ->
        rd (hashes t) q = EMPTY_HASH \/ deleted (rd (hashes t) q) = true) /\
     iter_next t it value = (true, {| offset := p + 1 |}, rd (values t) p)) \/
  ((forall q, offset it <= q < m_capacity t ->
      rd (hashes t) q = EMPTY_HASH \/ deleted (rd (hashes t) q) = true) /\
   iter_next t it value = (false, it, value)).
Proof.
  unfold iter_next.
  destruct (hs_iter_next_loop_cases (Z.to_nat (m_capacity t - offset it)) t
              (offset it) it value)
    as [(p & Hp & Hocc & Hlive & Hbefore & Hrun)|[Hall Hrun]].
  - left. exists p. split; [lia|]. auto.
  - right. split; [|exact Hrun]. intros q Hq. apply Hall. lia.
Qed.

(** The bound of the set's loops has a price where the map has none: in a
    set of one slot, after [insert(1, 7)] and [remove(1, 7)] the slot is a
    tombstone at distance 0, the loop of [_insert] ends on its bound
    before the tombstone may be taken, and [insert(1, 9)] returns without
    having stored the value. *)
Lemma hs_insert_over_a_tombstone_is_dropped :
  exists s1 s2 s3,
    insert 4 (create (T:=Z) 4 8 []) 1 7 = Some s1 /\
    remove 4 s1 1 7 = Some s2 /\
    insert 4 s2 1 9 = Some s3 /\ s3 = s2 /\
    has 4 s3 1 9 = Some false /\
    m_num_elements s2 = 0 /\ m_capacity s2 = 1.
Proof.
  do 3 eexists. repeat split; vm_compute; reflexivity.
Qed.

End HashSetProofs.

(** ** The local-probing hash map *)

Section LocalProbingProofs.
Context {K V : Type} `{Inhabited K} `{Inhabited V}.
Import LocalProbing.
Implicit Types t : @hashmap K V.

Lemma lp_iter_next_loop_exhausted n : forall t i key value,
  (forall q, i <= q < i + Z.of_nat n -> is_filled t q = false) ->
  iter_next_loop n t i key value
    = (false, {| offset := capacity t |}, key, value).
Proof.
  induction n as [|n IH]; intros t i key value Hfree; [reflexivity|].
  cbn [iter_next_loop]. rewrite (Hfree i) by lia.
  apply IH. intros q Hq. apply Hfree. lia.
Qed.

(** The sibling of C7: the older iterator moves the cursor to the capacity
    when it reports exhaustion. *)
Lemma lp_iter_next_exhausted t it key value :
  (forall q, offset it <= q < capacity t -> is_filled t q = false) ->
  iter_next t it key value = (false, {| offset := capacity t |}, key, value).
Proof.
  intros Hfree. unfold iter_next. apply lp_iter_next_loop_exhausted.
  intros q Hq. apply Hfree. lia.
Qed.

End LocalProbingProofs.

(** ** The local-probing map: [set], [lookup], [remove] *)

Section LocalProbingMapProofs.
Context {K V : Type} `{Inhabited K} `{Inhabited V} `{EqDecision K}.
Import LocalProbing.
Implicit Types t : @hashmap K V.

Lemma flag_test a n : 0 <= n -> negb (Z.land a (Z.shiftl 1 n) =? 0) = Z.testbit a n.
Proof.
  intros Hn. rewrite Z.shiftl_1_l, land_pow2 by lia.
  destruct (Z.testbit a n); [|reflexivity].
  apply negb_true_iff, Z.eqb_neq. pose proof (Z.pow_pos_nonneg 2 n). lia.
Qed.

Lemma fill_byte_bits b n m :
  0 <= n -> 0 <= m < 8 ->
  Z.testbit (u8 (Z.land (u8 (Z.lor b (Z.shiftl 1 n))) (Z.lnot (Z.shiftl 1 (n + 1))))) m
  = (Z.testbit b m || (m =? n)) && negb (m =? n + 1).
Proof.
  intros Hn Hm. unfold u8.
  rewrite Z.mod_pow2_bits_low, Z.land_spec, Z.mod_pow2_bits_low by lia.
  rewrite Z.lor_spec, Z.lnot_spec by lia.
  rewrite !Z.shiftl_1_l, !Z.pow2_bits_eqb by lia.
  now rewrite (Z.eqb_sym n m), (Z.eqb_sym (n + 1) m).
Qed.

Lemma delete_byte_bits b n m :
  0 <= n -> 0 <= m < 8 ->
  Z.testbit (u8 (Z.lor (u8 (Z.land b (Z.lnot (Z.shiftl 1 n)))) (Z.shiftl 1 (n + 1)))) m
  = (Z.testbit b m && negb (m =? n)) || (m =? n + 1).
Proof.
  intros Hn Hm. unfold u8.
  rewrite Z.mod_pow2_bits_low, Z.lor_spec, Z.mod_pow2_bits_low by lia.
  rewrite Z.land_spec, Z.lnot_spec by lia.
  rewrite !Z.shiftl_1_l, !Z.pow2_bits_eqb by lia.
  now rewrite (Z.eqb_sym n m), (Z.eqb_sym (n + 1) m).
Qed.

Lemma is_filled_bit t q :
  is_filled t q = Z.testbit (rd (flags t) (q / 4)) (2 * (q mod 4)).
Proof.
  unfold is_filled. apply flag_test.
  pose proof (Z.mod_pos_bound q 4 ltac:(lia)). lia.
Qed.

Lemma was_deleted_bit t q :
  was_deleted t q = Z.testbit (rd (flags t) (q / 4)) (2 * (q mod 4) + 1).
Proof.
  unfold was_deleted. apply flag_test.
  pose proof (Z.mod_pos_bound q 4 ltac:(lia)). lia.
Qed.

(** The flag bit [2 * (q % 4) + e] of slot [q] after the filled flag of
    slot [pos] was set and its deleted flag cleared. *)
Lemma fill_flag_bits fl pos q e :
  0 <= pos -> 0 <= q -> pos / 4 < Z.of_nat (length fl) -> 0 <= e <= 1 ->
  Z.testbit (rd (fill_flag fl pos) (q / 4)) (2 * (q mod 4) + e) =
  if Z.eq_dec q pos then (e =? 0)
  else Z.testbit (rd fl (q / 4)) (2 * (q mod 4) + e).
Proof.
  intros Hpos Hq Hlen He. unfold fill_flag.
  pose proof (Z.mod_pos_bound q 4 ltac:(lia)) as Hqm.
  pose proof (Z.mod_pos_bound pos 4 ltac:(lia)) as Hpm.
  pose proof (Z.div_pos pos 4 Hpos ltac:(lia)) as Hpd.
  pose proof (Z.div_pos q 4 Hq ltac:(lia)) as Hqd.
  pose proof (Z.div_mod q 4 ltac:(lia)) as Hqdm.
  pose proof (Z.div_mod pos 4 ltac:(lia)) as Hpdm.
  destruct (Z.eq_dec (q / 4) (pos / 4)) as [Hbyte|Hbyte].
  - rewrite Hbyte. rewrite rd_wr_eq by (rewrite length_wr; lia).
    rewrite rd_wr_eq by lia.
    replace (2 * (pos mod 4) + 1) with (2 * (pos mod 4) + 1) by reflexivity.
    rewrite fill_byte_bits by lia.
    destruct (Z.eq_dec q pos) as [->|Hne].
    + rewrite orb_comm.
      destruct (Z.eqb_spec e 0) as [->|]; [|replace e with 1 by lia].
      * rewrite Z.add_0_r, Z.eqb_refl. cbn [orb andb].
        apply negb_true_iff, Z.eqb_neq. lia.
      * rewrite Z.eqb_refl. cbn [negb]. apply andb_false_r.
    + assert (Hm : q mod 4 <> pos mod 4) by lia.
      destruct (Z.eqb_spec (2 * (q mod 4) + e) (2 * (pos mod 4))); [lia|].
      destruct (Z.eqb_spec (2 * (q mod 4) + e) (2 * (pos mod 4) + 1)); [lia|].
      now rewrite orb_false_r, andb_true_r.
  - rewrite !rd_wr_ne by lia.
    destruct (Z.eq_dec q pos) as [->|]; [contradiction|reflexivity].
Qed.

(** The same after the filled flag of slot [pos] was cleared and its
    deleted flag set. *)
Lemma delete_flag_bits fl pos q e :
  0 <= pos -> 0 <= q -> pos / 4 < Z.of_nat (length fl) -> 0 <= e <= 1 ->
  Z.testbit (rd (delete_flag fl pos) (q / 4)) (2 * (q mod 4) + e) =
  if Z.eq_dec q pos then (e =? 1)
  else Z.testbit (rd fl (q / 4)) (2 * (q mod 4) + e).
Proof.
  intros Hpos Hq Hlen He. unfold delete_flag.
  pose proof (Z.mod_pos_bound q 4 ltac:(lia)) as Hqm.
  pose proof (Z.mod_pos_bound pos 4 ltac:(lia)) as Hpm.
  pose proof (Z.div_pos pos 4 Hpos ltac:(lia)) as Hpd.
  pose proof (Z.div_pos q 4 Hq ltac:(lia)) as Hqd.
  pose proof (Z.div_mod q 4 ltac:(lia)) as Hqdm.
  pose proof (Z.div_mod pos 4 ltac:(lia)) as Hpdm.
  destruct (Z.eq_dec (q / 4) (pos / 4)) as [Hbyte|Hbyte].
  - rewrite Hbyte. rewrite rd_wr_eq by (rewrite length_wr; lia).
    rewrite rd_wr_eq by lia.
    rewrite delete_byte_bits by lia.
    destruct (Z.eq_dec q pos) as [->|Hne].
    + destruct (Z.eqb_spec e 1) as [->|]; [|replace e with 0 by lia].
      * rewrite Z.eqb_refl. apply orb_true_r.
      * rewrite Z.add_0_r, Z.eqb_refl. cbn [negb]. rewrite andb_false_r.
        cbn [orb]. apply Z.eqb_neq. lia.
    + assert (Hm : q mod 4 <> pos mod 4) by lia.
      destruct (Z.eqb_spec (2 * (q mod 4) + e) (2 * (pos mod 4))); [lia|].
      destruct (Z.eqb_spec (2 * (q mod 4) + e) (2 * (pos mod 4) + 1)); [lia|].
      now rewrite orb_false_r, andb_true_r.
  - rewrite !rd_wr_ne by lia.
    destruct (Z.eq_dec q pos) as [->|]; [contradiction|reflexivity].
Qed.

Lemma probe_range t hash i :
  0 < capacity t -> 0 <= u64 (hash + i) mod capacity t < capacity t.
Proof. intros Hc. apply Z.mod_pos_bound. exact Hc. Qed.

(** The [capacity] rounds of a loop visit pairwise different slots. *)
Lemma probe_distinct c hash i j :
  0 < c <= 2 ^ 63 -> 0 <= hash < 2 ^ 32 -> 0 <= i < c -> 0 <= j < c ->
  u64 (hash + i) mod c = u64 (hash + j) mod c -> i = j.
Proof.
  intros Hc Hh Hi Hj. rewrite !u64_small by lia. intros Heq.
  pose proof (Z.div_mod (hash + i) c ltac:(lia)) as Di.
  pose proof (Z.div_mod (hash + j) c ltac:(lia)) as Dj.
  rewrite Heq in Di.
  set (q1 := (hash + i) / c) in *. set (q2 := (hash + j) / c) in *.
  set (r := (hash + j) mod c) in *.
  assert (Hd : i - j = c * (q1 - q2)) by lia.
  assert (Hq : q1 - q2 = 0) by nia. lia.
Qed.

(** Every slot is visited by one of the [capacity] rounds. *)
Lemma probe_onto c hash pos :
  0 < c <= 2 ^ 63 -> 0 <= hash < 2 ^ 32 -> 0 <= pos < c ->
  exists i, 0 <= i < c /\ u64 (hash + i) mod c = pos.
Proof.
  intros Hc Hh Hp. exists ((pos - hash) mod c).
  pose proof (Z.mod_pos_bound (pos - hash) c ltac:(lia)) as Hb.
  split; [exact Hb|]. rewrite u64_small by lia.
  rewrite Zplus_mod_idemp_r. replace (hash + (pos - hash)) with pos by lia.
  apply Z.mod_small. lia.
Qed.

Lemma flag_byte_in_range t pos :
  laid_out t -> 0 <= pos < capacity t -> pos / 4 < Z.of_nat (length (flags t)).
Proof.
  intros (Hc & Hfl & _) Hp. rewrite Hfl.
  pose proof (Z.div_le_mono pos (capacity t) 4 ltac:(lia) ltac:(lia)). lia.
Qed.

Lemma is_filled_place t pos hash key value q :
  laid_out t -> 0 <= pos < capacity t -> 0 <= q ->
  is_filled (place t pos hash key value) q =
  if Z.eq_dec q pos then true else is_filled t q.
Proof.
  intros Hlay Hp Hq. rewrite !is_filled_bit. cbn [flags place].
  pose proof (fill_flag_bits (flags t) pos q 0 ltac:(lia) Hq
                (flag_byte_in_range t pos Hlay Hp) ltac:(lia)) as Hbits.
  rewrite Z.add_0_r in Hbits. rewrite Hbits.
  destruct (Z.eq_dec q pos); reflexivity.
Qed.

Lemma is_filled_unfill t pos q :
  laid_out t -> 0 <= pos < capacity t -> 0 <= q ->
  is_filled (unfill t pos) q = if Z.eq_dec q pos then false else is_filled t q.
Proof.
  intros Hlay Hp Hq. rewrite !is_filled_bit. cbn [flags unfill].
  pose proof (delete_flag_bits (flags t) pos q 0 ltac:(lia) Hq
                (flag_byte_in_range t pos Hlay Hp) ltac:(lia)) as Hbits.
  rewrite Z.add_0_r in Hbits. rewrite Hbits.
  destruct (Z.eq_dec q pos); reflexivity.
Qed.

Lemma was_deleted_unfill t pos q :
  laid_out t -> 0 <= pos < capacity t -> 0 <= q ->
  was_deleted (unfill t pos) q = if Z.eq_dec q pos then true else was_deleted t q.
Proof.
  intros Hlay Hp Hq. rewrite !was_deleted_bit. cbn [flags unfill].
  rewrite (delete_flag_bits (flags t) pos q 1 ltac:(lia) Hq
             (flag_byte_in_range t pos Hlay Hp) ltac:(lia)).
  destruct (Z.eq_dec q pos); reflexivity.
Qed.

(** What the loop of [set] does: it walks over filled slots of other
    entries, and stops at the first slot that holds the entry or is not
    filled. *)
Lemma set_loop_cases n : forall t hash key value i,
  (set_loop n t hash key value i = t /\
   forall j, i <= j < i + Z.of_nat n ->
     is_filled t (u64 (hash + j) mod capacity t) = true /\
     entry_matches t (u64 (hash + j) mod capacity t) hash key = false) \/
  exists i0, i <= i0 < i + Z.of_nat n /\
    (forall j, i <= j < i0 ->
       is_filled t (u64 (hash + j) mod capacity t) = true /\
       entry_matches t (u64 (hash + j) mod capacity t) hash key = false) /\
    ((is_filled t (u64 (hash + i0) mod capacity t) = true /\
      entry_matches t (u64 (hash + i0) mod capacity t) hash key = true /\
      set_loop n t hash key value i
        = set_value t (u64 (hash + i0) mod capacity t) value) \/
     (is_filled t (u64 (hash + i0) mod capacity t) = false /\
      set_loop n t hash key value i
        = place t (u64 (hash + i0) mod capacity t) hash key value)).
Proof.
  induction n as [|n IH]; intros t hash key value i.
  - left. split; [reflexivity|]. intros; lia.
  - cbn [set_loop].
    destruct (is_filled t (u64 (hash + i) mod capacity t)) eqn:Hf.
    + destruct (entry_matches t (u64 (hash + i) mod capacity t) hash key) eqn:Hm.
      * right. exists i. split; [lia|]. split; [intros; lia|]. left. auto.
      * destruct (IH t hash key value (i + 1))
          as [[Hsame Hall]|(i0 & Hi0 & Hbefore & Hat)].
        -- left. split; [exact Hsame|]. intros j Hj.
           destruct (Z.eq_dec j i) as [->|]; [auto|]. apply Hall. lia.
        -- right. exists i0. split; [lia|]. split; [|exact Hat].
           intros j Hj. destruct (Z.eq_dec j i) as [->|]; [auto|].
           apply Hbefore. lia.
    + right. exists i. split; [lia|]. split; [intros; lia|]. right. auto.
Qed.

Lemma lookup_loop_hit n : forall t hash key out i i0,
  i <= i0 < i + Z.of_nat n ->
  (forall j, i <= j < i0 ->
     is_filled t (u64 (hash + j) mod capacity t) = true /\
     entry_matches t (u64 (hash + j) mod capacity t) hash key = false) ->
  is_filled t (u64 (hash + i0) mod capacity t) = true ->
  entry_matches t (u64 (hash + i0) mod capacity t) hash key = true ->
  lookup_loop n t hash key out i
    = (true, rd (values t) (u64 (hash + i0) mod capacity t)).
Proof.
  induction n as [|n IH]; intros t hash key out i i0 Hi0 Hbefore Hf Hm; [lia|].
  cbn [lookup_loop]. destruct (Z.eq_dec i i0) as [->|Hne].
  - now rewrite Hf, Hm.
  - destruct (Hbefore i ltac:(lia)) as [-> ->].
    apply IH; try assumption; [lia|]. intros j Hj. apply Hbefore. lia.
Qed.

Lemma lookup_loop_miss n : forall t hash key out i,
  (forall j, i <= j < i + Z.of_nat n ->
     is_filled t (u64 (hash + j) mod capacity t) = true /\
     entry_matches t (u64 (hash + j) mod capacity t) hash key = false) ->
  lookup_loop n t hash key out i = (false, out).
Proof.
  induction n as [|n IH]; intros t hash key out i Hall; [reflexivity|].
  cbn [lookup_loop]. destruct (Hall i ltac:(lia)) as [-> ->].
  apply IH. intros j Hj. apply Hall. lia.
Qed.

(** X14. [set] then [lookup] on the local-probing map, in whatever state
    the table is (filled, deleted and unused slots in any arrangement):
    either the [lookup] of the hash and key that were set finds the value
    that was set, or every slot of the table is filled with another entry,
    in which case [set] has changed nothing and [lookup] reports the key
    missing. *)
Theorem lp_set_then_lookup t hash key value out :
  laid_out t -> 0 <= hash < 2 ^ 32 ->
  lookup (set t hash key value) hash key out = (true, value) \/
  (set t hash key value = t /\
   lookup t hash key out = (false, out) /\
   forall pos, 0 <= pos < capacity t ->
     is_filled t pos = true /\ entry_matches t pos hash key = false).
Proof.
  intros Hlay Hh. pose proof Hlay as (Hc & Hfl & Hhs & Hks & Hvs).
  unfold set.
  destruct (set_loop_cases (Z.to_nat (capacity t)) t hash key value 0)
    as [[Hsame Hall]|(i0 & Hi0 & Hbefore & Hat)].
  - right. split; [exact Hsame|]. split.
    + unfold lookup. apply lookup_loop_miss. exact Hall.
    + intros pos Hpos.
      destruct (probe_onto (capacity t) hash pos Hc Hh Hpos) as (i & Hi & <-).
      apply Hall. lia.
  - left. pose proof (probe_range t hash i0 (proj1 Hc)) as Hp0.
    destruct Hat as [(Hf & Hm & ->)|(Hf & ->)].
    + unfold lookup. cbn [capacity set_value].
      rewrite (lookup_loop_hit _ (set_value t _ value) hash key out 0 i0);
        try assumption.
      cbn [capacity values set_value]. now rewrite rd_wr_eq by lia.
    + unfold lookup. cbn [capacity place].
      set (p0 := u64 (hash + i0) mod capacity t) in *.
      rewrite (lookup_loop_hit _ (place t p0 hash key value) hash key out 0 i0).
      * cbn [capacity values place]. fold p0. now rewrite rd_wr_eq by lia.
      * lia.
      * cbn [capacity place]. intros j Hj.
        pose proof (probe_range t hash j (proj1 Hc)) as Hpj.
        assert (Hne : u64 (hash + j) mod capacity t <> p0).
        { intros Heq. apply probe_distinct in Heq; lia. }
        rewrite is_filled_place by (assumption || lia).
        destruct (Z.eq_dec _ p0) as [|_]; [contradiction|].
        unfold entry_matches. cbn [hashes keys place].
        rewrite !rd_wr_ne by lia. apply Hbefore. exact Hj.
      * cbn [capacity place]. fold p0.
        rewrite is_filled_place by (assumption || lia).
        destruct (Z.eq_dec p0 p0); [reflexivity|contradiction].
      * cbn [capacity place]. fold p0. unfold entry_matches.
        cbn [hashes keys place]. rewrite !rd_wr_eq by lia.
        rewrite Z.eqb_refl. cbn [andb]. apply bool_decide_eq_true. reflexivity.
Qed.

(** What the loop of [remove] does. *)
Lemma remove_loop_cases n : forall t hash key i,
  0 < capacity t ->
  remove_loop n t hash key i = t \/
  exists pos, 0 <= pos < capacity t /\ is_filled t pos = true /\
    entry_matches t pos hash key = true /\
    remove_loop n t hash key i = unfill t pos.
Proof.
  induction n as [|n IH]; intros t hash key i Hc; [now left|].
  cbn [remove_loop].
  destruct (is_filled t (u64 (hash + i) mod capacity t)) eqn:Hf.
  - destruct (entry_matches t (u64 (hash + i) mod capacity t) hash key) eqn:Hm.
    + right. exists (u64 (hash + i) mod capacity t).
      split; [apply probe_range; exact Hc|]. auto.
    + apply IH. exact Hc.
  - destruct (was_deleted t _); [apply IH; exact Hc|now left].
Qed.

Lemma lookup_loop_unfill n : forall t pos hash key out i,
  laid_out t -> 0 <= pos < capacity t ->
  is_filled t pos = true -> entry_matches t pos hash key = false ->
  lookup_loop n (unfill t pos) hash key out i = lookup_loop n t hash key out i.
Proof.
  induction n as [|n IH]; intros t pos hash key out i Hlay Hp Hf Hm;
    [reflexivity|].
  cbn [lookup_loop]. cbn [capacity unfill].
  pose proof (probe_range t hash i ltac:(destruct Hlay; lia)) as Hpi.
  rewrite is_filled_unfill, was_deleted_unfill by (assumption || lia).
  change (entry_matches (unfill t pos) ?q hash key)
    with (entry_matches t q hash key).
  change (values (unfill t pos)) with (values t).
  destruct (Z.eq_dec _ pos) as [->|Hne].
  - rewrite Hf, Hm. apply IH; assumption.
  - rewrite IH by assumption. reflexivity.
Qed.

(** X15. [remove] of one key on the local-probing map changes no other
    key's [lookup]: in whatever state the table is, a hash and key other
    than the removed pair are looked up afterwards with the same result
    as before. *)
Theorem lp_remove_keeps_the_other_lookups t hash key hash' key' out :
  laid_out t -> (hash', key') <> (hash, key) ->
  lookup (remove t hash key) hash' key' out = lookup t hash' key' out.
Proof.
  intros Hlay Hother. pose proof Hlay as (Hc & _).
  unfold remove.
  destruct (remove_loop_cases (Z.to_nat (capacity t)) t hash key 0 (proj1 Hc))
    as [->|(pos & Hp & Hf & Hm & ->)]; [reflexivity|].
  unfold lookup. cbn [capacity unfill].
  apply lookup_loop_unfill; try assumption.
  unfold entry_matches in *. apply andb_true_iff in Hm as [Hh Hk].
  apply Z.eqb_eq in Hh. apply bool_decide_eq_true in Hk.
  destruct (Z.eqb_spec (rd (hashes t) pos) hash') as [Hh'|]; [|reflexivity].
  cbn [andb]. apply bool_decide_eq_false. intros Hk'.
  apply Hother. congruence.
Qed.

Lemma lp_iter_next_loop_cases n : forall t i key value,
  (exists p, i <= p < i + Z.of_nat n /\ is_filled t p = true /\
     (forall q, i <= q < p -> is_filled t q = false) /\
     iter_next_loop n t i key value
       = (true, {| offset := p + 1 |}, rd (keys t) p, rd (values t) p)) \/
  ((forall q, i <= q < i + Z.of_nat n -> is_filled t q = false) /\
   iter_next_loop n t i key value
     = (false, {| offset := capacity t |}, key, value)).
Proof.
  induction n as [|n IH]; intros t i key value.
  - right. split; [intros; lia|reflexivity].
  - cbn [iter_next_loop]. destruct (is_filled t i) eqn:Hf.
    + left. exists i. split; [lia|]. split; [exact Hf|].
      split; [intros; lia|reflexivity].
    + destruct (IH t (i + 1) key value)
        as [(p & Hp & Hfp & Hbefore & Hrun)|[Hall Hrun]].
      * left. exists p. split; [lia|]. split; [exact Hfp|].
        split; [|exact Hrun]. intros q Hq.
        destruct (Z.eq_dec q i) as [->|]; [exact Hf|]. apply Hbefore. lia.
      * right. split; [|exact Hrun]. intros q Hq.
        destruct (Z.eq_dec q i) as [->|]; [exact Hf|]. apply Hall. lia.
Qed.

(** X16. [iter_next] of the local-probing map, for any table and any
    cursor: it hands out the key and value of the first filled slot at or
    after the cursor and moves the cursor just behind it; when no slot
    from the cursor on is filled it reports the end, leaves the
    out-parameters as they were and moves the cursor to the capacity. *)
Theorem lp_iter_next_finds_the_next_filled_slot t it key value :
  (exists p, offset it <= p < capacity t /\ is_filled t p = true /\
     (forall q, offset it <= q < p -> is_filled t q = false) /\
     iter_next t it key value
       = (true, {| offset := p + 1 |}, rd (keys t) p, rd (values t) p)) \/
  ((forall q, offset it <= q < capacity t -> is_filled t q = false) /\
   iter_next t it key value
     = (false, {| offset := capacity t |}, key, value)).
Proof.
  unfold iter_next.
  destruct (lp_iter_next_loop_cases (Z.to_nat (capacity t - offset it)) t
              (offset it) key value)
    as [(p & Hp & Hfp & Hbefore & Hrun)|[Hall Hrun]].
  - left. exists p. split; [lia|]. auto.
  - right. split; [|exact Hrun]. intros q Hq. apply Hall. lia.
Qed.

(** *** The element count *)

(** Two flag readings that differ at one slot only, counted over a range. *)
Lemma count_one_slot_changed (P P' : Z -> bool) p0 n : forall o,
  (forall q, o <= q < o + Z.of_nat n -> q <> p0 -> P' q = P q) ->
  Z.of_nat (length (filter (fun q => P' q = true) (seqZ o (Z.of_nat n)))) =
  Z.of_nat (length (filter (fun q => P q = true) (seqZ o (Z.of_nat n)))) +
  (if bool_decide (o <= p0 < o + Z.of_nat n)
   then Z.b2z (P' p0) - Z.b2z (P p0) else 0).
Proof.
  induction n as [|n IH]; intros o Hsame.
  - cbn [Z.of_nat seqZ]. rewrite bool_decide_eq_false_2 by lia. reflexivity.
  - rewrite seqZ_cons by lia.
    replace (Z.pred (Z.of_nat (S n))) with (Z.of_nat n) by lia.
    replace (Z.succ o) with (o + 1) by lia.
    specialize (IH (o + 1) ltac:(intros q Hq; apply Hsame; lia)).
    rewrite !filter_cons.
    destruct (Z.eq_dec o p0) as [->|Hne].
    + rewrite (bool_decide_eq_false_2 (p0 + 1 <= p0 < _)) in IH by lia.
      rewrite bool_decide_eq_true_2 by lia.
      destruct (P' p0), (P p0); cbn [Z.b2z];
        repeat (destruct (decide _) as [?|?]; try congruence);
        cbn [length]; lia.
    + rewrite (Hsame o) by lia.
      destruct (decide (P o = true)); cbn [length];
        destruct (bool_decide (o + 1 <= p0 < o + 1 + Z.of_nat n)) eqn:Hin.
      * apply bool_decide_eq_true in Hin.
        rewrite bool_decide_eq_true_2 by lia. lia.
      * apply bool_decide_eq_false in Hin.
        rewrite bool_decide_eq_false_2 by lia. lia.
      * apply bool_decide_eq_true in Hin.
        rewrite bool_decide_eq_true_2 by lia. lia.
      * apply bool_decide_eq_false in Hin.
        rewrite bool_decide_eq_false_2 by lia. lia.
Qed.

Lemma filled_slots_bounds t : 0 <= capacity t -> 0 <= filled_slots t <= capacity t.
Proof.
  intros Hc. unfold filled_slots.
  pose proof (length_filter (fun p => is_filled t p = true) (seqZ 0 (capacity t))).
  rewrite length_seqZ in *. lia.
Qed.

Lemma filled_slots_place t pos hash key value :
  laid_out t -> 0 <= pos < capacity t -> is_filled t pos = false ->
  filled_slots (place t pos hash key value) = filled_slots t + 1.
Proof.
  intros Hlay Hp Hf. pose proof Hlay as (Hc & _). unfold filled_slots.
  cbn [capacity place].
  pose proof (count_one_slot_changed (is_filled t)
                (is_filled (place t pos hash key value)) pos
                (Z.to_nat (capacity t)) 0) as Hcount.
  rewrite Z2Nat.id in Hcount by lia. rewrite Hcount.
  - rewrite bool_decide_eq_true_2 by lia.
    rewrite is_filled_place by (assumption || lia).
    destruct (Z.eq_dec pos pos); [|contradiction]. rewrite Hf. reflexivity.
  - intros q Hq Hne. rewrite is_filled_place by (assumption || lia).
    destruct (Z.eq_dec q pos); [contradiction|reflexivity].
Qed.

Lemma filled_slots_unfill t pos :
  laid_out t -> 0 <= pos < capacity t -> is_filled t pos = true ->
  filled_slots (unfill t pos) = filled_slots t - 1.
Proof.
  intros Hlay Hp Hf. pose proof Hlay as (Hc & _). unfold filled_slots.
  cbn [capacity unfill].
  pose proof (count_one_slot_changed (is_filled t) (is_filled (unfill t pos)) pos
                (Z.to_nat (capacity t)) 0) as Hcount.
  rewrite Z2Nat.id in Hcount by lia. rewrite Hcount.
  - rewrite bool_decide_eq_true_2 by lia.
    rewrite is_filled_unfill by (assumption || lia).
    destruct (Z.eq_dec pos pos); [|contradiction]. rewrite Hf. reflexivity.
  - intros q Hq Hne. rewrite is_filled_unfill by (assumption || lia).
    destruct (Z.eq_dec q pos); [contradiction|reflexivity].
Qed.

(** X20. [num_elements] of the local-probing map stays the number of
    filled slots: if it is before a [set] or a [remove], in whatever state
    the table is, it is after it. *)
Theorem lp_num_elements_counts_the_filled_slots t hash key value :
  laid_out t -> num_elements t = filled_slots t ->
  num_elements (set t hash key value) = filled_slots (set t hash key value) /\
  num_elements (remove t hash key) = filled_slots (remove t hash key).
Proof.
  intros Hlay Hnum. pose proof Hlay as (Hc & _).
  pose proof (filled_slots_bounds t ltac:(lia)) as Hb.
  split.
  - unfold set.
    destruct (set_loop_cases (Z.to_nat (capacity t)) t hash key value 0)
      as [[-> _]|(i0 & Hi0 & _ & [(_ & _ & ->)|(Hf & ->)])].
    + exact Hnum.
    + exact Hnum.
    + pose proof (probe_range t hash i0 (proj1 Hc)) as Hp.
      rewrite filled_slots_place by assumption.
      cbn [num_elements place]. rewrite u64_small; lia.
  - unfold remove.
    destruct (remove_loop_cases (Z.to_nat (capacity t)) t hash key 0 (proj1 Hc))
      as [->|(pos & Hp & Hf & _ & ->)]; [exact Hnum|].
    pose proof (filled_slots_unfill t pos Hlay Hp Hf) as Hcount.
    assert (Hunfill_cap : 0 <= capacity (unfill t pos)) by (cbn; lia).
    pose proof (filled_slots_bounds (unfill t pos) Hunfill_cap) as Hb'.
    rewrite Hcount. cbn [num_elements unfill]. rewrite u64_small; lia.
Qed.

End LocalProbingMapProofs.

(** ** The pool allocator *)

Section MemoryPoolProofs.
Import MemoryPool.

Lemma index_of_address addr sz k : 0 < sz -> (addr + k * sz - addr) / sz = k.
Proof.
  intros Hsz. replace (addr + k * sz - addr) with (k * sz) by lia.
  apply Z.div_mul. lia.
Qed.

Variables addr sz : Z.
Hypothesis addr_pos : 0 < addr.
Hypothesis sz_pos : 0 < sz.

Lemma address_not_null k : 0 <= k -> (addr + k * sz =? nullptr) = false.
Proof. intros Hk. apply Z.eqb_neq. unfold nullptr. nia. Qed.

(** [allocate] on a pool that is not full, followed by the caller's store
    through the pointer. *)
Lemma allocate_then_write n f nf nn buf buf1 buf2 v :
  n <> 5 -> 0 <= f ->
  load buf f = Some nf -> load buf nf = Some nn ->
  save buf f nn = Some buf1 -> save buf1 f v = Some buf2 ->
  allocate (pool5 addr sz n f buf)
    = Some (addr + f * sz, pool5 addr sz (u64 (n + 1)) nf buf1) /\
  write (pool5 addr sz (u64 (n + 1)) nf buf1) (addr + f * sz) v
    = Some (pool5 addr sz (u64 (n + 1)) nf buf2).
Proof.
  intros Hn Hf Hnf Hnn Hs1 Hs2. split.
  - unfold allocate, pool5. cbn [m_num_elements m_capacity m_buffer next_free
      base esize].
    destruct (Z.eqb_spec n 5); [contradiction|].
    now rewrite Hnf, Hnn, Hs1.
  - unfold write, pool5. cbn [m_num_elements m_capacity m_buffer next_free
      base esize].
    rewrite index_of_address by assumption. now rewrite Hs2.
Qed.

Lemma free_at n f k buf buf1 :
  0 <= k < 2 ^ 32 -> save buf k f = Some buf1 ->
  free (pool5 addr sz n f buf) (addr + k * sz)
    = Some (pool5 addr sz (u64 (n - 1)) k buf1).
Proof.
  intros Hk Hs. unfold free, pool5. cbn [m_num_elements m_capacity m_buffer
    next_free base esize].
  rewrite index_of_address, u32_small by assumption. now rewrite Hs.
Qed.

Lemma allocate_all_five v0 v1 v2 v3 v4 :
  allocate_all (pool5 addr sz 0 0 [1; 2; 3; 4; 0]) [v0; v1; v2; v3; v4]
    = Some [(addr + 0 * sz, pool5 addr sz 1 1 [v0; 2; 3; 4; 0]);
            (addr + 1 * sz, pool5 addr sz 2 2 [v0; v1; 3; 4; 0]);
            (addr + 2 * sz, pool5 addr sz 3 3 [v0; v1; v2; 4; 0]);
            (addr + 3 * sz, pool5 addr sz 4 4 [v0; v1; v2; v3; 0]);
            (addr + 4 * sz, pool5 addr sz 5 0 [v0; v1; v2; v3; v4])].
Proof.
  cbn [allocate_all].
  destruct (allocate_then_write 0 0 1 2 [1; 2; 3; 4; 0] [2; 2; 3; 4; 0]
              [v0; 2; 3; 4; 0] v0) as [-> E0]; try reflexivity; try lia.
  cbn [mbind option_bind]. rewrite address_not_null, E0 by lia.
  cbn [mbind option_bind]. change (u64 (0 + 1)) with 1.
  destruct (allocate_then_write 1 1 2 3 [v0; 2; 3; 4; 0] [v0; 3; 3; 4; 0]
              [v0; v1; 3; 4; 0] v1) as [-> E1]; try reflexivity; try lia.
  cbn [mbind option_bind]. rewrite address_not_null, E1 by lia.
  cbn [mbind option_bind]. change (u64 (1 + 1)) with 2.
  destruct (allocate_then_write 2 2 3 4 [v0; v1; 3; 4; 0] [v0; v1; 4; 4; 0]
              [v0; v1; v2; 4; 0] v2) as [-> E2]; try reflexivity; try lia.
  cbn [mbind option_bind]. rewrite address_not_null, E2 by lia.
  cbn [mbind option_bind]. change (u64 (2 + 1)) with 3.
  destruct (allocate_then_write 3 3 4 0 [v0; v1; v2; 4; 0] [v0; v1; v2; 0; 0]
              [v0; v1; v2; v3; 0] v3) as [-> E3]; try reflexivity; try lia.
  cbn [mbind option_bind]. rewrite address_not_null, E3 by lia.
  cbn [mbind option_bind]. change (u64 (3 + 1)) with 4.
  destruct (allocate_then_write 4 4 0 v0 [v0; v1; v2; v3; 0] [v0; v1; v2; v3; v0]
              [v0; v1; v2; v3; v4] v4) as [-> E4]; try reflexivity; try lia.
  cbn [mbind option_bind]. rewrite address_not_null, E4 by lia.
  cbn [mbind option_bind]. change (u64 (4 + 1)) with 5. reflexivity.
Qed.

(** C9.  A pool over a buffer of exactly five cells: five [allocate] calls
    (the caller storing a payload through each pointer) return five
    pairwise distinct non-null addresses, a sixth returns [nullptr] and
    leaves the pool as it is, and after [free] of any one of the five a
    further [allocate] returns a non-null address; [m_num_elements] never
    exceeds [m_capacity]. *)
Theorem pool_of_five_slots buffer_size buf v0 v1 v2 v3 v4 (i : nat) :
  buffer_size / sz = 5 -> length buf = 5%nat -> (i < 5)%nat ->
  exists p0 a0 p1 a1 p2 a2 p3 a3 p4 a4 p5 a p6 a' p7,
    create buffer_size addr sz buf = Some p0 /\
    allocate_all p0 [v0; v1; v2; v3; v4]
      = Some [(a0, p1); (a1, p2); (a2, p3); (a3, p4); (a4, p5)] /\
    NoDup [a0; a1; a2; a3; a4] /\
    Forall (fun x => x <> nullptr) [a0; a1; a2; a3; a4] /\
    allocate p5 = Some (nullptr, p5) /\
    [a0; a1; a2; a3; a4] !! i = Some a /\
    free p5 a = Some p6 /\
    allocate p6 = Some (a', p7) /\ a' <> nullptr /\
    Forall within_capacity [p0; p1; p2; p3; p4; p5; p6; p7].
Proof.
  intros Hcap Hlen Hi.
  destruct buf as [|b0 [|b1 [|b2 [|b3 [|b4 [|]]]]]]; try discriminate.
  exists (pool5 addr sz 0 0 [1; 2; 3; 4; 0]).
  exists (addr + 0 * sz), (pool5 addr sz 1 1 [v0; 2; 3; 4; 0]).
  exists (addr + 1 * sz), (pool5 addr sz 2 2 [v0; v1; 3; 4; 0]).
  exists (addr + 2 * sz), (pool5 addr sz 3 3 [v0; v1; v2; 4; 0]).
  exists (addr + 3 * sz), (pool5 addr sz 4 4 [v0; v1; v2; v3; 0]).
  exists (addr + 4 * sz), (pool5 addr sz 5 0 [v0; v1; v2; v3; v4]).
  exists (addr + Z.of_nat i * sz).
  exists (pool5 addr sz 4 (Z.of_nat i) (<[i := 0]> [v0; v1; v2; v3; v4])).
  exists (addr + Z.of_nat i * sz).
  exists (pool5 addr sz 5 0
            (<[i := default 0 (<[i := 0]> [v0; v1; v2; v3; v4] !! 0%nat)]>
               (<[i := 0]> [v0; v1; v2; v3; v4]))).
  split. { unfold create. rewrite Hcap. reflexivity. }
  split. { apply allocate_all_five. }
  split. { repeat constructor; rewrite ?elem_of_cons, ?elem_of_nil; nia. }
  split. { repeat constructor; unfold nullptr; nia. }
  split. { reflexivity. }
  assert (i = 0 \/ i = 1 \/ i = 2 \/ i = 3 \/ i = 4)%nat as Hcases by lia.
  split. { destruct Hcases as [->|[->|[->|[->| ->]]]]; reflexivity. }
  split. { rewrite (free_at 5 0 (Z.of_nat i) _ (<[i := 0]> [v0; v1; v2; v3; v4])).
           - reflexivity.
           - lia.
           - destruct Hcases as [->|[->|[->|[->| ->]]]]; reflexivity. }
  split. { destruct Hcases as [->|[->|[->|[->| ->]]]]; reflexivity. }
  split. { unfold nullptr. nia. }
  repeat constructor; unfold within_capacity, pool5; cbn; lia.
Qed.

(** *** Any pool, any capacity *)

Lemma load_save buf i x buf1 j :
  save buf i x = Some buf1 -> 0 <= j ->
  load buf1 j = if Z.eq_dec j i then Some x else load buf j.
Proof.
  unfold save, load. intros Hs Hj.
  destruct (Z.leb_spec 0 i) as [Hi|]; [|discriminate].
  destruct (Z.ltb_spec i (Z.of_nat (length buf))) as [Hlt|]; [|discriminate].
  injection Hs as <-.
  destruct (Z.leb_spec 0 j) as [_|]; [|lia]. unfold wr.
  destruct (Z.eq_dec j i) as [->|Hne].
  - apply list_lookup_insert_eq. lia.
  - apply list_lookup_insert_ne. lia.
Qed.

Lemma save_in_range buf i x :
  0 <= i < Z.of_nat (length buf) -> save buf i x = Some (wr buf i x).
Proof.
  intros Hi. unfold save.
  destruct (Z.leb_spec 0 i); [|lia].
  destruct (Z.ltb_spec i (Z.of_nat (length buf))); [reflexivity|lia].
Qed.

Lemma load_in_range buf i :
  0 <= i < Z.of_nat (length buf) -> exists x, load buf i = Some x.
Proof.
  intros Hi. unfold load. destruct (Z.leb_spec 0 i); [|lia].
  apply lookup_lt_is_Some_2. lia.
Qed.

(** X12. [free] followed by [allocate] hands the same cell back: for any
    pool in use whose free-list head lies in the buffer, and any cell of
    the buffer, the two calls return, the address that [allocate] returns
    is the one that was freed, and the element count and the free-list
    head are what they were before. *)
Theorem free_then_allocate_returns_the_cell p k :
  0 < esize p ->
  0 <= k < Z.of_nat (length (m_buffer p)) -> k < 2 ^ 32 ->
  0 <= next_free p < Z.of_nat (length (m_buffer p)) ->
  0 < m_num_elements p <= m_capacity p -> m_capacity p < 2 ^ 64 ->
  exists p1 p2,
    free p (base p + k * esize p) = Some p1 /\
    allocate p1 = Some (base p + k * esize p, p2) /\
    m_num_elements p1 = m_num_elements p - 1 /\
    m_num_elements p2 = m_num_elements p /\
    next_free p2 = next_free p /\ m_capacity p2 = m_capacity p.
Proof.
  intros Hsz Hk Hk32 Hnf Hnum Hcap.
  pose proof (save_in_range (m_buffer p) k (next_free p) Hk) as Hs1.
  set (buf1 := wr (m_buffer p) k (next_free p)) in *.
  assert (Hlen1 : length buf1 = length (m_buffer p)) by apply length_wr.
  assert (Hl1 : load buf1 k = Some (next_free p)).
  { rewrite (load_save _ _ _ _ k Hs1) by lia.
    destruct (Z.eq_dec k k); [reflexivity|contradiction]. }
  destruct (load_in_range buf1 (next_free p)) as [nn Hl2]; [lia|].
  pose proof (save_in_range buf1 k nn ltac:(lia)) as Hs2.
  eexists. eexists. split.
  { unfold free. rewrite index_of_address, u32_small by lia.
    rewrite Hs1. reflexivity. }
  split.
  { unfold allocate.
    cbn [m_num_elements m_capacity next_free m_buffer base esize].
    rewrite u64_small by lia.
    destruct (Z.eqb_spec (m_num_elements p - 1) (m_capacity p)); [lia|].
    rewrite Hl1, Hl2, Hs2. reflexivity. }
  cbn [m_num_elements m_capacity next_free].
  rewrite (u64_small (m_num_elements p - 1)) by lia.
  rewrite u64_small by lia.
  repeat split; lia.
Qed.

(** X19. [allocate] followed by [free] of the cell it returned restores
    the free list, whatever the caller stored through the pointer in
    between: for any pool that is not full and whose free list is inside
    the buffer, the cell handed out is the head of the free list, and
    after the [free] the count and the head are what they were, the
    [next] member of the cell is again the link it held, and no other
    cell was touched. *)
Theorem allocate_then_free_restores_the_free_list p nf payload :
  0 < esize p ->
  0 <= next_free p < Z.of_nat (length (m_buffer p)) -> next_free p < 2 ^ 32 ->
  load (m_buffer p) (next_free p) = Some nf ->
  0 <= nf < Z.of_nat (length (m_buffer p)) ->
  0 <= m_num_elements p < m_capacity p -> m_capacity p < 2 ^ 64 ->
  exists p1 p2 p3,
    allocate p = Some (base p + next_free p * esize p, p1) /\
    write p1 (base p + next_free p * esize p) payload = Some p2 /\
    free p2 (base p + next_free p * esize p) = Some p3 /\
    m_num_elements p3 = m_num_elements p /\
    m_capacity p3 = m_capacity p /\
    next_free p3 = next_free p /\
    load (m_buffer p3) (next_free p) = Some nf /\
    forall j, 0 <= j -> j <> next_free p ->
      load (m_buffer p3) j = load (m_buffer p) j.
Proof.
  intros Hsz Hk Hk32 Hnf Hnfr Hnum Hcap.
  destruct (load_in_range (m_buffer p) nf Hnfr) as [nn Hnn].
  pose proof (save_in_range (m_buffer p) (next_free p) nn Hk) as Hs1.
  pose proof (save_in_range (wr (m_buffer p) (next_free p) nn) (next_free p)
                payload ltac:(rewrite length_wr; lia)) as Hs2.
  pose proof (save_in_range
                (wr (wr (m_buffer p) (next_free p) nn) (next_free p) payload)
                (next_free p) nf ltac:(rewrite !length_wr; lia)) as Hs3.
  eexists. eexists. eexists. split.
  { unfold allocate.
    destruct (Z.eqb_spec (m_num_elements p) (m_capacity p)); [lia|].
    rewrite Hnf, Hnn, Hs1. reflexivity. }
  split.
  { unfold write. cbn [m_buffer base esize m_num_elements m_capacity next_free].
    rewrite index_of_address by assumption. rewrite Hs2. reflexivity. }
  split.
  { unfold free. cbn [m_buffer base esize m_num_elements m_capacity next_free].
    rewrite index_of_address, u32_small by lia. rewrite Hs3. reflexivity. }
  cbn [m_buffer m_num_elements m_capacity next_free].
  split.
  { rewrite (u64_small (m_num_elements p + 1)) by lia.
    replace (m_num_elements p + 1 - 1) with (m_num_elements p) by lia.
    apply u64_small. lia. }
  split; [reflexivity|]. split; [reflexivity|].
  split.
  - rewrite (load_save _ _ _ _ (next_free p) Hs3) by lia.
    destruct (Z.eq_dec (next_free p) (next_free p)); [reflexivity|contradiction].
  - intros j Hj Hne.
    rewrite (load_save _ _ _ _ j Hs3), (load_save _ _ _ _ j Hs2),
      (load_save _ _ _ _ j Hs1) by lia.
    destruct (Z.eq_dec j (next_free p)); [contradiction|reflexivity].
Qed.

Lemma create_loop_fills c m : forall i buf,
  Z.of_nat (length buf) = c -> c < 2 ^ 32 -> 0 <= i ->
  i + Z.of_nat m = c ->
  exists buf', create_loop c (seqZ i (Z.of_nat m)) buf = Some buf' /\
    length buf' = length buf /\
    (forall j, i <= j < c -> load buf' j = Some ((j + 1) mod c)) /\
    (forall j, 0 <= j < i -> load buf' j = load buf j).
Proof.
  induction m as [|m IH]; intros i buf Hlen Hc Hi Hm.
  - exists buf. split; [reflexivity|]. split; [reflexivity|].
    split; [intros; lia|reflexivity].
  - rewrite seqZ_cons by lia. cbn [create_loop].
    replace (Z.pred (Z.of_nat (S m))) with (Z.of_nat m) by lia.
    replace (Z.succ i) with (i + 1) by lia.
    pose proof (Z.mod_pos_bound (i + 1) c ltac:(lia)) as Hb.
    rewrite (u32_small (i + 1)), u32_small by lia.
    assert (Hs : save buf i ((i + 1) mod c) = Some (wr buf i ((i + 1) mod c)))
      by (apply save_in_range; lia).
    rewrite Hs.
    destruct (IH (i + 1) (wr buf i ((i + 1) mod c)))
      as (buf' & Hrun & Hlen' & Hnew & Hold); try lia.
    { rewrite length_wr. exact Hlen. }
    exists buf'. split; [exact Hrun|].
    split; [now rewrite Hlen', length_wr|].
    split.
    + intros j Hj. destruct (Z.eq_dec j i) as [->|Hne].
      * rewrite Hold by lia. rewrite (load_save _ _ _ _ i Hs) by lia.
        destruct (Z.eq_dec i i); [reflexivity|contradiction].
      * apply Hnew. lia.
    + intros j Hj. rewrite Hold by lia.
      rewrite (load_save _ _ _ _ j Hs) by lia.
      destruct (Z.eq_dec j i); [lia|reflexivity].
Qed.

(** *** A fresh pool of any capacity *)

(** [allocate] on a pool in which the first [k] cells are out, followed by
    the caller's store through the pointer. *)
Lemma allocate_next_cell n k p v :
  handed_out addr sz n k p -> 0 <= k < n -> n < 2 ^ 32 ->
  exists p1 p2, allocate p = Some (addr + k * sz, p1) /\
    write p1 (addr + k * sz) v = Some p2 /\
    handed_out addr sz n (k + 1) p2.
Proof.
  intros (Hnum & Hcap & Hnf & Hlen & Hbase & Hsize & Hcells) Hk Hn.
  rewrite Z.mod_small in Hnf by lia.
  pose proof (Z.mod_pos_bound (k + 1) n ltac:(lia)) as Hb.
  destruct (load_in_range (m_buffer p) ((k + 1) mod n)) as [nn Hl2]; [lia|].
  pose proof (save_in_range (m_buffer p) k nn ltac:(lia)) as Hs1.
  pose proof (save_in_range (wr (m_buffer p) k nn) k v
                ltac:(rewrite length_wr; lia)) as Hs2.
  eexists. eexists. split.
  { unfold allocate. rewrite Hnum, Hcap, Hnf, Hbase, Hsize.
    destruct (Z.eqb_spec k n); [lia|].
    rewrite (Hcells k) by lia. rewrite Hl2, Hs1. reflexivity. }
  split.
  { unfold write. cbn [m_buffer base esize m_num_elements m_capacity next_free].
    rewrite index_of_address by assumption.
    rewrite Hs2. reflexivity. }
  unfold handed_out.
  cbn [m_buffer base esize m_num_elements m_capacity next_free].
  rewrite u64_small by lia. rewrite !length_wr.
  repeat (split; [assumption || reflexivity|]).
  intros j Hj.
  rewrite (load_save _ _ _ _ j Hs2), (load_save _ _ _ _ j Hs1) by lia.
  destruct (Z.eq_dec j k); [lia|]. apply Hcells. lia.
Qed.

Lemma allocate_all_in_order n : forall payloads k p,
  handed_out addr sz n k p -> 0 <= k -> n < 2 ^ 32 ->
  k + Z.of_nat (length payloads) = n ->
  exists l, allocate_all p payloads = Some l /\
    l.*1 = (fun j => addr + j * sz) <$> seqZ k (Z.of_nat (length payloads)) /\
    forall pf, last (p :: l.*2) = Some pf -> handed_out addr sz n n pf.
Proof.
  induction payloads as [|v payloads IH]; intros k p Hp Hk Hn Hlen.
  - exists []. split; [reflexivity|]. split; [reflexivity|].
    cbn [length] in Hlen. intros pf [= <-].
    assert (Hkn : k = n) by lia. rewrite Hkn in Hp. exact Hp.
  - cbn [length] in Hlen.
    destruct (allocate_next_cell n k p v Hp ltac:(lia) Hn)
      as (p1 & p2 & Halloc & Hwrite & Hp2).
    destruct (IH (k + 1) p2 Hp2 ltac:(lia) Hn ltac:(lia)) as (l & Hrun & Haddr & Hlast).
    exists ((addr + k * sz, p2) :: l). split.
    { cbn [allocate_all]. rewrite Halloc. cbn [mbind option_bind].
      rewrite address_not_null, Hwrite by lia. cbn [mbind option_bind].
      rewrite Hrun. reflexivity. }
    split.
    { rewrite seqZ_cons by (cbn [length]; lia). rewrite !fmap_cons.
      cbn [fst]. rewrite Haddr. do 3 f_equal; cbn [length]; lia. }
    intros pf. rewrite fmap_cons, last_cons_cons. apply Hlast.
Qed.

(** X13. A fresh pool of any capacity [n] between 1 and 2^32 - 1 hands
    out every cell once: [create] returns, [n] calls of [allocate] (the
    caller storing a payload through each pointer) return the addresses of
    the cells in address order, which are pairwise distinct and not null,
    after which the pool is full and a further [allocate] returns
    [nullptr] and leaves it as it is. *)
Theorem fresh_pool_hands_out_every_cell_once buffer_size buf payloads :
  0 < buffer_size / sz < 2 ^ 32 ->
  Z.of_nat (length buf) = buffer_size / sz ->
  Z.of_nat (length payloads) = buffer_size / sz ->
  exists p0 l pf,
    create buffer_size addr sz buf = Some p0 /\
    allocate_all p0 payloads = Some l /\
    l.*1 = (fun k => addr + k * sz) <$> seqZ 0 (buffer_size / sz) /\
    NoDup l.*1 /\ Forall (fun a => a <> nullptr) l.*1 /\
    last l.*2 = Some pf /\
    m_num_elements pf = m_capacity pf /\
    allocate pf = Some (nullptr, pf).
Proof.
  intros Hn Hbuf Hpay. set (n := buffer_size / sz) in *.
  destruct (create_loop_fills n (Z.to_nat n) 0 buf) as (buf0 & Hrun & Hlen0 & Hnew & _);
    try lia.
  rewrite Z2Nat.id in Hrun by lia.
  set (p0 := {| m_num_elements := 0; m_capacity := n; next_free := 0;
                m_buffer := buf0; base := addr; esize := sz |}).
  assert (Hp0 : handed_out addr sz n 0 p0).
  { unfold handed_out, p0.
    cbn [m_buffer base esize m_num_elements m_capacity next_free].
    rewrite Z.mod_0_l by lia. rewrite Hlen0.
    repeat (split; [assumption || reflexivity|]). exact Hnew. }
  destruct (allocate_all_in_order n payloads 0 p0 Hp0) as (l & Hall & Haddr & Hlast);
    try lia.
  rewrite Hpay in Haddr.
  destruct l as [|[a p1] l].
  { rewrite seqZ_cons in Haddr by lia. discriminate. }
  destruct (last ((a, p1) :: l).*2) as [pf|] eqn:Hpf.
  2:{ apply last_None in Hpf. discriminate. }
  exists p0, ((a, p1) :: l), pf.
  split. { unfold create. fold n. now rewrite Hrun. }
  split; [exact Hall|]. split; [exact Haddr|].
  split.
  { rewrite Haddr. apply NoDup_fmap_2_strong; [|apply NoDup_seqZ].
    intros x y _ _ Hxy. nia. }
  split.
  { rewrite Haddr. apply Forall_fmap, Forall_forall. intros k Hin.
    apply elem_of_seqZ in Hin. cbn. unfold nullptr. nia. }
  split; [exact Hpf|].
  destruct (Hlast pf) as (Hnum & Hcap & _).
  { rewrite fmap_cons, last_cons_cons. rewrite fmap_cons in Hpf. exact Hpf. }
  split; [congruence|].
  unfold allocate. rewrite Hnum, Hcap, Z.eqb_refl. reflexivity.
Qed.

End MemoryPoolProofs.

(** ** Instances *)

Section Witnesses.
Import HashMap Examples.

Lemma normalize_merges_zero_and_one_witness :
  _hash 0 = 1 /\
  _hash (2 ^ 31 + 5) = Z.clearbit (2 ^ 31 + 5) 31 /\
  _hash 5 = 5 /\
  set 4 colliding 0 7 1 = set 4 colliding 1 7 1 /\
  remove 4 colliding 0 7 = remove 4 colliding 1 7.
Proof.
  destruct (normalize_merges_zero_and_one (K:=Z) (V:=Z))
    as (Hzero & Hdel & Hplain & Hops).
  split; [exact Hzero|].
  split; [apply Hdel; [lia|lia|reflexivity]|].
  split; [apply Hplain; [lia|reflexivity]|].
  destruct (Hops 4%nat colliding 7 1) as (Hset & _ & _ & Hrem).
  split; [exact Hset|exact Hrem].
Defined.

Lemma pool_of_five_slots_witness :
  exists p0 a0 p1 a1 p2 a2 p3 a3 p4 a4 p5 a p6 a' p7,
    MemoryPool.create 40 4096 8 [0; 0; 0; 0; 0] = Some p0 /\
    MemoryPool.allocate_all p0 [11; 12; 13; 14; 15]
      = Some [(a0, p1); (a1, p2); (a2, p3); (a3, p4); (a4, p5)] /\
    NoDup [a0; a1; a2; a3; a4] /\
    Forall (fun x => x <> MemoryPool.nullptr) [a0; a1; a2; a3; a4] /\
    MemoryPool.allocate p5 = Some (MemoryPool.nullptr, p5) /\
    [a0; a1; a2; a3; a4] !! 1%nat = Some a /\
    MemoryPool.free p5 a = Some p6 /\
    MemoryPool.allocate p6 = Some (a', p7) /\ a' <> MemoryPool.nullptr /\
    Forall MemoryPool.within_capacity [p0; p1; p2; p3; p4; p5; p6; p7].
Proof.
  apply (pool_of_five_slots 4096 8); [lia|lia|reflexivity|reflexivity|lia].
Defined.

Lemma set_then_lookup_round_trip_witness :
  exists t, set_all 8 (fresh 4) [(1, 10, 100); (5, 11, 101)] = Some t /\
    forall h k v value, (h, k, v) ∈ [(1, 10, 100); (5, 11, 101)] ->
      lookup 8 t h k value = Some (true, v).
Proof.
  apply (set_then_lookup_round_trip 4 4 (12 * 4) [] []
           [(1, 10, 100); (5, 11, 101)] 8).
  - vm_compute. split; [reflexivity|discriminate].
  - repeat constructor; cbn; try lia; discriminate.
  - apply NoDup_cons. split; [|apply NoDup_singleton].
    intros Hin. apply list_elem_of_singleton in Hin. discriminate.
  - vm_compute. discriminate.
  - vm_compute. lia.
Defined.

Lemma lookup_returns_and_is_sound_witness :
  (exists p v, lookup 8 colliding 5 11 0 = Some (true, v) /\
     holds colliding p (_hash 5) 11 v) \/
  lookup 8 colliding 5 11 0 = Some (false, 0).
Proof.
  apply (lookup_returns_and_is_sound 8 colliding 5 11 0).
  - cbn [m_capacity colliding]. lia.
  - vm_compute. lia.
Defined.

Lemma hash_is_live_and_stable_witness :
  _hash (2 ^ 31 + 5) <> EMPTY_HASH /\ deleted (_hash (2 ^ 31 + 5)) = false /\
  _hash (_hash (2 ^ 31 + 5)) = _hash (2 ^ 31 + 5) /\
  (2 ^ 31 + 5 <> 0 -> _hash (2 ^ 31 + 5) mod 2 ^ 31 = (2 ^ 31 + 5) mod 2 ^ 31).
Proof.
  apply (hash_is_live_and_stable (2 ^ 31 + 5)).
  split; [lia|]. vm_compute. discriminate.
Defined.

Lemma get_returns_the_stored_value_witness :
  get 8 colliding 5 11 0 = Some 101.
Proof.
  apply (get_returns_the_stored_value 8 colliding 5 11 101 0).
  - exact colliding_consistent.
  - split; [lia|]. vm_compute. discriminate.
  - exists 2. vm_compute. repeat split; try reflexivity; discriminate.
  - vm_compute. lia.
Defined.

Lemma set_returns_when_a_slot_is_empty_witness :
  exists t', set 8 colliding 9 12 102 = Some t' /\
    m_capacity t' = m_capacity colliding.
Proof.
  apply (set_returns_when_a_slot_is_empty 8 colliding 9 12 102).
  - cbn [m_capacity colliding]. lia.
  - reflexivity.
  - vm_compute. reflexivity.
  - vm_compute. lia.
Defined.

Lemma remove_keeps_the_other_lookups_witness :
  exists t', remove 8 colliding 5 11 = Some t' /\
    lookup 8 t' 1 10 0 = lookup 8 colliding 1 10 0.
Proof.
  apply (remove_keeps_the_other_lookups 8 colliding 5 11 1 10 0).
  - cbn [m_capacity colliding]. lia.
  - reflexivity.
  - unfold uint32. lia.
  - vm_compute. discriminate.
  - vm_compute. lia.
Defined.

Lemma remove_then_lookup_misses_witness :
  exists t', remove 8 colliding 5 11 = Some t' /\
    lookup 8 t' 5 11 0 = Some (false, 0).
Proof.
  apply (remove_then_lookup_misses 8 colliding 5 11 0).
  - cbn [m_capacity colliding]. lia.
  - reflexivity.
  - apply colliding_consistent.
  - unfold uint32. lia.
  - vm_compute. lia.
Defined.

Lemma set_then_lookup_and_the_other_keys_witness :
  exists t', set 8 colliding 9 12 102 = Some t' /\ consistent t' /\
    m_capacity t' = m_capacity colliding /\
    (forall out, lookup 8 t' 9 12 out = Some (true, 102)) /\
    (forall hash' key' out, uint32 hash' ->
       (_hash hash', key') <> (_hash 9, 12) ->
       lookup 8 t' hash' key' out = lookup 8 colliding hash' key' out) /\
    (absent colliding (_hash 9) 12 ->
       m_num_elements t' = m_num_elements colliding + 1) /\
    ((exists v0, contains colliding (_hash 9) 12 v0) ->
       m_num_elements t' = m_num_elements colliding).
Proof.
  apply (set_then_lookup_and_the_other_keys 8 colliding 9 12 102).
  - exact colliding_consistent.
  - split; [lia|]. vm_compute. discriminate.
  - left. vm_compute. reflexivity.
  - vm_compute. lia.
Defined.

Lemma copy_of_a_built_table_witness :
  exists t', copy 4 4 16 colliding (12 * 8) [] [] = Some t' /\
    m_num_elements t' = m_num_elements colliding /\
    forall hash k out, uint32 hash ->
      lookup 16 t' hash k out = lookup 16 colliding hash k out.
Proof.
  apply (copy_of_a_built_table 4 4 16 (12 * 4) [] []
           [(1, 10, 100); (5, 11, 101)] colliding (12 * 8) [] []).
  - vm_compute. split; [reflexivity|discriminate].
  - repeat constructor; cbn; try lia; discriminate.
  - reflexivity.
  - vm_compute. split; [reflexivity|discriminate].
  - vm_compute. discriminate.
  - vm_compute. lia.
  - vm_compute. lia.
Defined.

Lemma iteration_hands_out_num_elements_pairs_witness :
  exists l, iter_all 5 colliding (iter_start colliding) 0 0 = Some l /\
    Z.of_nat (length l) = m_num_elements colliding.
Proof.
  apply (iteration_hands_out_num_elements_pairs colliding 0 0).
  exact colliding_consistent.
Defined.

Lemma fresh_table_holds_nothing_witness :
  m_num_elements (fresh 4) = 0 /\
  lookup 1 (fresh 4) 5 11 0 = Some (false, 0) /\
  remove 1 (fresh 4) 5 11 = Some (fresh 4) /\
  iter_all 1 (fresh 4) (iter_start (fresh 4)) 0 0 = Some [].
Proof.
  apply (fresh_table_holds_nothing 4 4 (12 * 4) [] [] 5 11 0).
  vm_compute. reflexivity.
Defined.

Lemma free_then_allocate_returns_the_cell_witness :
  exists p1 p2,
    MemoryPool.free full_pool (4096 + 1 * 8) = Some p1 /\
    MemoryPool.allocate p1 = Some (4096 + 1 * 8, p2) /\
    MemoryPool.m_num_elements p1 = 5 - 1 /\
    MemoryPool.m_num_elements p2 = 5 /\
    MemoryPool.next_free p2 = 0 /\ MemoryPool.m_capacity p2 = 5.
Proof.
  apply (free_then_allocate_returns_the_cell full_pool 1).
  - vm_compute. reflexivity.
  - vm_compute. split; [discriminate|reflexivity].
  - lia.
  - vm_compute. split; [discriminate|reflexivity].
  - vm_compute. split; [reflexivity|discriminate].
  - vm_compute. reflexivity.
Defined.

Lemma fresh_pool_hands_out_every_cell_once_witness :
  exists p0 l pf,
    MemoryPool.create 24 4096 8 [0; 0; 0] = Some p0 /\
    MemoryPool.allocate_all p0 [11; 12; 13] = Some l /\
    l.*1 = (fun k => 4096 + k * 8) <$> seqZ 0 (24 / 8) /\
    NoDup l.*1 /\ Forall (fun a => a <> MemoryPool.nullptr) l.*1 /\
    last l.*2 = Some pf /\
    MemoryPool.m_num_elements pf = MemoryPool.m_capacity pf /\
    MemoryPool.allocate pf = Some (MemoryPool.nullptr, pf).
Proof.
  apply (fresh_pool_hands_out_every_cell_once 4096 8); try reflexivity.
  vm_compute. split; reflexivity.
Defined.

Lemma lp_set_then_lookup_witness :
  LocalProbing.lookup (LocalProbing.set unused_four 5 11 101) 5 11 0 = (true, 101) \/
  (LocalProbing.set unused_four 5 11 101 = unused_four /\
   LocalProbing.lookup unused_four 5 11 0 = (false, 0) /\
   forall pos, 0 <= pos < LocalProbing.capacity unused_four ->
     LocalProbing.is_filled unused_four pos = true /\
     LocalProbing.entry_matches unused_four pos 5 11 = false).
Proof.
  apply (lp_set_then_lookup unused_four 5 11 101 0).
  - vm_compute. repeat split; try reflexivity; discriminate.
  - lia.
Defined.

Lemma lp_remove_keeps_the_other_lookups_witness :
  LocalProbing.lookup (LocalProbing.remove (LocalProbing.set unused_four 5 11 101) 5 11) 1 10 0
  = LocalProbing.lookup (LocalProbing.set unused_four 5 11 101) 1 10 0.
Proof.
  apply (lp_remove_keeps_the_other_lookups
           (LocalProbing.set unused_four 5 11 101) 5 11 1 10 0).
  - vm_compute. repeat split; try reflexivity; discriminate.
  - discriminate.
Defined.

Lemma hs_has_returns_and_is_sound_witness :
  exists found, HashSet.has 4 one_value 5 11 = Some found /\
    (found = true ->
     exists p, 0 <= p < 4 /\ rd (HashSet.hashes one_value) p = HashSet._hash 5 /\
       rd (HashSet.values one_value) p = 11 /\
       HashSet._hash 5 <> HashSet.EMPTY_HASH).
Proof.
  apply (hs_has_returns_and_is_sound one_value 5 11).
  vm_compute. split; reflexivity.
Defined.

Lemma hs_has_tells_what_was_inserted_witness :
  exists t,
    HashSet.insert_all 4 (HashSet.create 4 32 []) [(5, 11); (9, 12)] = Some t /\
    HashSet.m_capacity t = 4 /\
    forall h v, uint32 h ->
      ((exists h0, (h0, v) ∈ [(5, 11); (9, 12)] /\
          HashSet._hash h0 = HashSet._hash h) ->
       HashSet.has (Z.to_nat (HashSet.m_capacity t)) t h v = Some true) /\
      ((forall h0, (h0, v) ∈ [(5, 11); (9, 12)] ->
          HashSet._hash h0 <> HashSet._hash h) ->
       HashSet.has (Z.to_nat (HashSet.m_capacity t)) t h v = Some false).
Proof.
  apply (hs_has_tells_what_was_inserted 4 32 [] [(5, 11); (9, 12)]).
  - vm_compute. split; [reflexivity|discriminate].
  - repeat constructor; cbn; try lia; discriminate.
  - vm_compute. discriminate.
Defined.

Lemma hs_remove_takes_out_only_that_value_witness :
  exists t', HashSet.remove 4 one_value 5 11 = Some t' /\
    HashSet.has 4 t' 5 11 = Some false /\
    forall hash' value', uint32 hash' ->
      (HashSet._hash hash', value') <> (HashSet._hash 5, 11) ->
      HashSet.has 4 t' hash' value' = HashSet.has 4 one_value hash' value'.
Proof.
  apply (hs_remove_takes_out_only_that_value one_value 5 11).
  - vm_compute. split; [reflexivity|discriminate].
  - reflexivity.
  - apply cs_unique_keys.
    apply (hs_built_consistent 4 32 [] [(5, 11)] one_value).
    + vm_compute. split; [reflexivity|discriminate].
    + repeat constructor; cbn; try lia; discriminate.
    + vm_compute. discriminate.
    + reflexivity.
  - unfold uint32. lia.
Defined.

Lemma allocate_then_free_restores_the_free_list_witness :
  exists p1 p2 p3,
    MemoryPool.allocate fresh_pool = Some (4096 + 0 * 8, p1) /\
    MemoryPool.write p1 (4096 + 0 * 8) 11 = Some p2 /\
    MemoryPool.free p2 (4096 + 0 * 8) = Some p3 /\
    MemoryPool.m_num_elements p3 = 0 /\
    MemoryPool.m_capacity p3 = 5 /\
    MemoryPool.next_free p3 = 0 /\
    MemoryPool.load (MemoryPool.m_buffer p3) 0 = Some 1 /\
    forall j, 0 <= j -> j <> 0 ->
      MemoryPool.load (MemoryPool.m_buffer p3) j =
      MemoryPool.load (MemoryPool.m_buffer fresh_pool) j.
Proof.
  apply (allocate_then_free_restores_the_free_list fresh_pool 1 11).
  - vm_compute. reflexivity.
  - vm_compute. split; [discriminate|reflexivity].
  - vm_compute. reflexivity.
  - reflexivity.
  - vm_compute. split; [discriminate|reflexivity].
  - vm_compute. split; [discriminate|reflexivity].
  - vm_compute. reflexivity.
Defined.

Lemma lp_num_elements_counts_the_filled_slots_witness :
  LocalProbing.num_elements (LocalProbing.set unused_four 5 11 101) =
    LocalProbing.filled_slots (LocalProbing.set unused_four 5 11 101) /\
  LocalProbing.num_elements (LocalProbing.remove unused_four 5 11) =
    LocalProbing.filled_slots (LocalProbing.remove unused_four 5 11).
Proof.
  apply (lp_num_elements_counts_the_filled_slots unused_four 5 11 101).
  - vm_compute. repeat split; try reflexivity; discriminate.
  - reflexivity.
Defined.

Lemma hs_copy_of_a_built_set_witness :
  exists t',
    HashSet.copy 4 8 one_value 64 [] = Some t' /\
    HashSet.m_num_elements t' = HashSet.m_num_elements one_value /\
    forall h v, uint32 h ->
      HashSet.has (Z.to_nat (HashSet.m_capacity t')) t' h v =
      HashSet.has (Z.to_nat (HashSet.m_capacity one_value)) one_value h v.
Proof.
  apply (hs_copy_of_a_built_set 4 32 [] [(5, 11)] one_value 64 []).
  - vm_compute. split; [reflexivity|discriminate].
  - repeat constructor; cbn; try lia; discriminate.
  - vm_compute. discriminate.
  - reflexivity.
  - vm_compute. split; [reflexivity|discriminate].
  - vm_compute. discriminate.
Defined.

Lemma remove_on_a_consistent_table_witness :
  exists t', remove 8 colliding 5 11 = Some t' /\
    Z.testbit (rd (hashes t') 2) 31 = true /\
    (forall b, b <> 31 ->
       Z.testbit (rd (hashes t') 2) b = Z.testbit (rd (hashes colliding) 2) b) /\
    (forall q, 0 <= q < m_capacity colliding -> q <> 2 ->
       rd (hashes t') q = rd (hashes colliding) q) /\
    keys t' = keys colliding /\ values t' = values colliding /\
    m_num_elements t' = m_num_elements colliding - 1 /\
    m_capacity t' = m_capacity colliding.
Proof.
  apply (proj1 (remove_on_a_consistent_table 8 colliding 5 11
                  colliding_consistent ltac:(vm_compute; lia)) 2 101).
  vm_compute. repeat split; try reflexivity; discriminate.
Defined.

End Witnesses.
